(** * Notifly: the asynchronous notification pipeline, embedded in Rocq

    A shallow embedding of the Go sources of the notification service:
    the error kinds and the HTTP error handler ([common]), the queue
    server's retry delay ([queue]), the Redis sliding-window limiter
    ([ratelimit]), the intake service, the worker, the reaper and the
    HTTP handlers ([notification]), the PostgREST-backed store
    ([store]), the template engine ([template], over the text functions
    of [text]) and the API key check ([middleware]).

    Go strings are [string]; [int], [int64] and [time.Duration] are [Z]
    with the 64-bit wrap-around written out; a [time.Time] is the number
    of nanoseconds since the Unix epoch; a nil-able pointer or interface
    value is an [option]; a Go map is a [gmap]. *)

From Stdlib Require Import ZArith String Ascii List Bool Lia DecimalString.
From Stdlib Require Strings.Byte.
From stdpp Require Import base option list gmap strings fin_maps sorting.

Local Open Scope string_scope.
Local Open Scope list_scope.
Local Open Scope Z_scope.

(** ** Package common: error kinds (internal/common/errors.go) *)

Module common.

(** The values of Go's [error] interface that flow through this program.
    The four struct types of errors.go have no [Unwrap] method, so they
    end a chain; [wrapError] is what [fmt.Errorf] builds for a [%w] verb
    (it carries the already formatted message); [errorString] is what
    [errors.New] and a [fmt.Errorf] without [%w] build; [sentinel] is a
    package-level error variable of a library, compared by identity. *)
Inductive error : Type :=
| NotFoundError (Resource ID : string)
| ValidationError (Message : string)
| UnauthorizedError (Message : string)
| ProviderError (Provider Message : string)
| errorString (s : string)
| sentinel (name : string)
| wrapError (msg : string) (err : error).

(** The [Error() string] methods. *)
Definition Error (e : error) : string :=
  match e with
  | NotFoundError Resource ID => Resource +:+ " with id '" +:+ ID +:+ "' not found"
  | ValidationError Message => Message
  | UnauthorizedError Message =>
      if String.eqb Message "" then "unauthorized" else Message
  | ProviderError Provider Message => Provider +:+ " provider error: " +:+ Message
  | errorString s => s
  | sentinel name => name
  | wrapError msg _ => msg
  end.

Definition NewNotFoundError (resource id : string) : error := NotFoundError resource id.
Definition NewValidationError (message : string) : error := ValidationError message.
Definition NewUnauthorizedError (message : string) : error := UnauthorizedError message.
Definition NewProviderError (provider message : string) : error := ProviderError provider message.

(** [fmt.Errorf(prefix + "%w", err)] and [fmt.Errorf(prefix + "%s", s)]. *)
Definition Errorf_w (prefix : string) (err : error) : error :=
  wrapError (prefix +:+ Error err) err.
Definition Errorf_s (prefix s : string) : error := errorString (prefix +:+ s).

(** [Unwrap() error]: only [fmt]'s wrapper has one. *)
Definition Unwrap (e : error) : option error :=
  match e with
  | wrapError _ err => Some err
  | _ => None
  end.

(** The chain of an error: the error itself, then what repeated [Unwrap]
    yields. *)
Fixpoint chain (e : error) : list error :=
  e :: match e with
       | wrapError _ err => chain err
       | _ => []
       end.

(** The innermost error of a chain. *)
Fixpoint innermost (e : error) : error :=
  match e with
  | wrapError _ err => innermost err
  | _ => e
  end.

(** [errors.As(err, &target)]: the first error of the chain that the type
    assertion [sel] accepts. A nil [err] matches nothing. *)
Fixpoint As_chain {T : Type} (sel : error -> option T) (e : error) : option T :=
  match sel e with
  | Some t => Some t
  | None => match e with
            | wrapError _ err => As_chain sel err
            | _ => None
            end
  end.

Definition errors_As {T : Type} (sel : error -> option T) (err : option error) : option T :=
  match err with
  | Some e => As_chain sel e
  | None => None
  end.

(** [errors.Is(err, target)] for a target compared by identity. *)
Fixpoint errors_Is (e : error) (target : string) : bool :=
  match e with
  | sentinel name => String.eqb name target
  | wrapError _ err => errors_Is err target
  | _ => false
  end.

(** The type assertions behind the four [errors.As] targets. *)
Definition isNotFoundError (e : error) : option error :=
  match e with NotFoundError _ _ => Some e | _ => None end.
Definition isValidationError (e : error) : option error :=
  match e with ValidationError _ => Some e | _ => None end.
Definition isUnauthorizedError (e : error) : option error :=
  match e with UnauthorizedError _ => Some e | _ => None end.
Definition isProviderError (e : error) : option error :=
  match e with ProviderError _ _ => Some e | _ => None end.

(** *** The response envelope (unnamed/part_004) *)

Record APIError := { Code : Z; Message : string }.

Record APIResponse (D : Type) :=
  { Success : bool; Data : option D; Error_ : option APIError }.
Arguments Success {D}.
Arguments Data {D}.
Arguments Error_ {D}.

(** What a handler wrote with [c.JSON(statusCode, body)]. *)
Definition Written (D : Type) : Type := (Z * APIResponse D)%type.

Definition StatusOK : Z := 200.
Definition StatusAccepted : Z := 202.
Definition StatusBadRequest : Z := 400.
Definition StatusUnauthorized : Z := 401.
Definition StatusNotFound : Z := 404.
Definition StatusInternalServerError : Z := 500.
Definition StatusBadGateway : Z := 502.

Definition Success_ {D : Type} (statusCode : Z) (data : D) : Written D :=
  (statusCode, {| Success := true; Data := Some data; Error_ := None |}).

Definition Error_resp {D : Type} (statusCode : Z) (message : string) : Written D :=
  (statusCode,
   {| Success := false; Data := None;
      Error_ := Some {| Code := statusCode; Message := message |} |}).

(** [HandleError]: the [switch] tries the four kinds in source order. *)
Definition HandleError {D : Type} (err : option error) : Written D :=
  match errors_As isNotFoundError err with
  | Some notFound => Error_resp StatusNotFound (Error notFound)
  | None =>
  match errors_As isValidationError err with
  | Some validation => Error_resp StatusBadRequest (Error validation)
  | None =>
  match errors_As isUnauthorizedError err with
  | Some unauthorized => Error_resp StatusUnauthorized (Error unauthorized)
  | None =>
  match errors_As isProviderError err with
  | Some provider => Error_resp StatusBadGateway "notification delivery failed"
  | None => Error_resp StatusInternalServerError "internal server error"
  end end end end.

End common.

(** ** Go's 64-bit integers *)

Module go.

(** Two's complement wrap-around of [int64] arithmetic. *)
Definition int64 (z : Z) : Z := (z + 2 ^ 63) mod 2 ^ 64 - 2 ^ 63.

(** Conversion to [uint] / [uint64]. *)
Definition uint64 (z : Z) : Z := z mod 2 ^ 64.

(** [x << s] on an [int64] with an unsigned count: a count of 64 or more
    shifts every bit out. *)
Definition shl_int64 (x s : Z) : Z :=
  if 64 <=? s then 0 else int64 (Z.shiftl x s).

Definition mul_int64 (x y : Z) : Z := int64 (x * y).
Definition sub_int64 (x y : Z) : Z := int64 (x - y).

(** [time.Duration] constants, in nanoseconds. *)
Definition Second : Z := 1000000000.
Definition Minute : Z := 60 * Second.
Definition Hour : Z := 60 * Minute.

(** [float64(n)] of an [int64], as the integer it denotes: round to the
    nearest value with a 53-bit significand, ties to even. Redis keeps
    sorted-set scores as such doubles and parses a decimal bound the same
    way. *)
Definition float64_of_nonneg (t : Z) : Z :=
  if t <? 2 ^ 53 then t
  else
    let e := Z.log2 t - 52 in
    let q := t / 2 ^ e in
    let r := t mod 2 ^ e in
    let half := 2 ^ (e - 1) in
    let q' := if r <? half then q
              else if half <? r then q + 1
              else if Z.even q then q else q + 1 in
    q' * 2 ^ e.

Definition float64 (t : Z) : Z :=
  if t <? 0 then - float64_of_nonneg (- t) else float64_of_nonneg t.

End go.

(** ** The asynq queue library, as far as the program relies on it *)

Module asynq.
Import common.

(** [asynq.SkipRetry]: a handler wraps it to have the task archived
    instead of retried. *)
Definition SkipRetry_name : string := "skip retry for the task".
Definition SkipRetry : error := sentinel SkipRetry_name.

(** A task as the client hands it to the queue: type, payload and the
    options [MaxRetry] and [Queue]. *)
Record Task := { Typename : string; Payload : string; MaxRetry : Z; Queue : string }.

Inductive Outcome := Done | Retried (delay : Z) | Archived.

(** The server's treatment of a handler result: success completes the
    task; a failure is retried after [retryDelay retried] unless the
    retries are used up or the error wraps [SkipRetry]. *)
Definition handle_result (retryDelay : Z -> Z) (retried maxRetry : Z)
    (res : option error) : Outcome :=
  match res with
  | None => Done
  | Some err =>
      if (maxRetry <=? retried) || errors_Is err SkipRetry_name
      then Archived
      else Retried (retryDelay retried)
  end.

(** An error is non-retryable when the server archives the task whatever
    the retry budget. *)
Definition non_retryable (err : error) : bool := errors_Is err SkipRetry_name.

End asynq.


(** ** The Redis commands the limiter issues *)

Module redis.

(** A key holding a sorted set: every member has one score (a double),
    and the key may carry an expiry deadline. *)
Record entry := { zs : gmap string Z; expire_at : option Z }.

Definition no_entry : entry := {| zs := ∅; expire_at := None |}.

(** What a command run at server time [now] finds under [key]: a key
    whose deadline has passed is gone. *)
Definition get (now : Z) (db : gmap string entry) (key : string) : entry :=
  match db !! key with
  | Some e =>
      match expire_at e with
      | Some deadline => if deadline <=? now then no_entry else e
      | None => e
      end
  | None => no_entry
  end.

(** Redis drops a sorted set that became empty. *)
Definition put (db : gmap string entry) (key : string) (e : entry) : gmap string entry :=
  if decide (zs e = ∅) then delete key db else <[key := e]> db.

(** [ZREMRANGEBYSCORE key -inf max]: both bounds are inclusive, and the
    decimal text of [max] is read as a double. *)
Definition ZRemRangeByScore_upto (now : Z) (key : string) (max : Z)
    (db : gmap string entry) : gmap string entry :=
  let e := get now db key in
  put db key {| zs := filter (fun kv => go.float64 max < kv.2) (zs e);
                expire_at := expire_at e |}.

(** [ZCARD key]. *)
Definition ZCard (now : Z) (key : string) (db : gmap string entry) : Z :=
  Z.of_nat (size (zs (get now db key))).

(** [ZADD key score member]: a member already present only changes its
    score. *)
Definition ZAdd (now : Z) (key : string) (score : Z) (member : string)
    (db : gmap string entry) : gmap string entry :=
  let e := get now db key in
  put db key {| zs := <[member := score]> (zs e); expire_at := expire_at e |}.

(** [EXPIRE key ttl]: no effect on a missing key; a ttl that is not
    positive deletes the key. *)
Definition Expire (now : Z) (key : string) (ttl : Z)
    (db : gmap string entry) : gmap string entry :=
  let e := get now db key in
  if decide (zs e = ∅) then delete key db
  else if ttl <=? 0 then delete key db
  else <[key := {| zs := zs e; expire_at := Some (now + ttl) |}]> db.

End redis.

(** ** Package ratelimit (in email/resend.go's bundle) *)

Module ratelimit.
Import common.

Record RedisRecipientLimiter := { maxPerHour : Z; window : Z }.

(** [NewRedisRecipientLimiter]: the window is fixed to one hour. *)
Definition NewRedisRecipientLimiter (maxPerHour : Z) : RedisRecipientLimiter :=
  {| maxPerHour := maxPerHour; window := go.Hour |}.

(** What one call of [Allow] draws from its environment: the clock
    reading of [time.Now()] (the Redis server is taken to read the same
    clock), the four bytes of [rand.Read], and for each of the two
    pipelines whether [Exec] fails. A failed [Exec] is taken to have run
    none of its commands. *)
Record AllowEnv :=
  { now : Z; randBytes : list Byte.byte;
    exec1_err : option error; exec2_err : option error }.

Definition hex_digit (n : N) : ascii :=
  match n with
  | 0%N => "0" | 1%N => "1" | 2%N => "2" | 3%N => "3" | 4%N => "4"
  | 5%N => "5" | 6%N => "6" | 7%N => "7" | 8%N => "8" | 9%N => "9"
  | 10%N => "a" | 11%N => "b" | 12%N => "c" | 13%N => "d" | 14%N => "e"
  | _ => "f"
  end%char.

(** [hex.EncodeToString]. *)
Fixpoint hex_EncodeToString (bs : list Byte.byte) : string :=
  match bs with
  | [] => ""
  | b :: bs' =>
      let n := Strings.Byte.to_N b in
      String (hex_digit (n / 16)%N) (String (hex_digit (n mod 16)%N) (hex_EncodeToString bs'))
  end.

(** The decimal text of [%d]. *)
Definition itoa (z : Z) : string := NilZero.string_of_int (Z.to_int z).

Definition bucket_key (recipient : string) : string := "notifly:ratelimit:" +:+ recipient.

(** The member of an admission: [fmt.Sprintf("%d:%s", now.UnixNano(), hex)]. *)
Definition member_of (env : AllowEnv) : string :=
  itoa (now env) +:+ ":" +:+ hex_EncodeToString (randBytes env).

(** [Allow]: expire, count, and record the admission when under the
    limit. The two pipelines are separate round trips. *)
Definition Allow (r : RedisRecipientLimiter) (env : AllowEnv) (recipient : string)
    (db : gmap string redis.entry) : (bool * option error) * gmap string redis.entry :=
  let key := bucket_key recipient in
  let windowStart := now env - window r in
  match exec1_err env with
  | Some err => ((false, Some (Errorf_w "checking recipient rate limit: " err)), db)
  | None =>
      let db1 := redis.ZRemRangeByScore_upto (now env) key windowStart db in
      let count := redis.ZCard (now env) key db1 in
      if maxPerHour r <=? count then ((false, None), db1)
      else
        match exec2_err env with
        | Some err => ((false, Some (Errorf_w "recording rate limit entry: " err)), db1)
        | None =>
            let db2 := redis.ZAdd (now env) key (go.float64 (now env)) (member_of env) db1 in
            let db3 := redis.Expire (now env) key (window r + go.Minute) db2 in
            ((true, None), db3)
        end
  end.

(** A sequential run of calls against one Redis, each paired with its
    result. *)
Fixpoint run (r : RedisRecipientLimiter) (calls : list (string * AllowEnv))
    (db : gmap string redis.entry)
    : list (string * AllowEnv * (bool * option error)) * gmap string redis.entry :=
  match calls with
  | [] => ([], db)
  | (recipient, env) :: rest =>
      let '(res, db') := Allow r env recipient db in
      let '(out, db'') := run r rest db' in
      ((recipient, env, res) :: out, db'')
  end.

(** The store is healthy during a call when neither pipeline fails. *)
Definition healthy (env : AllowEnv) : bool :=
  match exec1_err env, exec2_err env with
  | None, None => true
  | _, _ => false
  end.

(** The clock never runs backwards over the calls. *)
Fixpoint clock_monotone (t0 : Z) (calls : list (string * AllowEnv)) : bool :=
  match calls with
  | [] => true
  | (_, env) :: rest => (t0 <=? now env) && clock_monotone (now env) rest
  end.

(** The admissions of [recipient] among the results. *)
Definition admitted (recipient : string)
    (x : string * AllowEnv * (bool * option error)) : bool :=
  let '(rcp, _, (allowed, err)) := x in
  String.eqb rcp recipient && allowed && match err with None => true | Some _ => false end.

(** The entries of [recipient] a call at time [now] does not expire. *)
Definition unexpired (r : RedisRecipientLimiter) (now : Z) (recipient : string)
    (db : gmap string redis.entry) : gmap string Z :=
  filter (fun kv => go.float64 (now - window r) < kv.2)
         (redis.zs (redis.get now db (bucket_key recipient))).

(** An admission of [recipient] made up to time [T] whose stored score
    lies above the expiry bound of a call at [T]: the admissions a window
    of length [window r] ending at [T] holds, as Redis sees them. *)
Definition in_window (r : RedisRecipientLimiter) (recipient : string) (T : Z)
    (x : string * AllowEnv * (bool * option error)) : bool :=
  admitted recipient x && (now (snd (fst x)) <=? T)
  && (go.float64 (T - window r) <? go.float64 (now (snd (fst x)))).

(** The same window on the clock readings themselves. *)
Definition in_clock_window (r : RedisRecipientLimiter) (recipient : string) (T : Z)
    (x : string * AllowEnv * (bool * option error)) : bool :=
  admitted recipient x && (now (snd (fst x)) <=? T) && (T - window r <? now (snd (fst x))).

(** The recipient and member of a call, and of a call with its result. *)
Definition call_member (c : string * AllowEnv) : string * string :=
  (fst c, member_of (snd c)).
Definition key_member (x : string * AllowEnv * (bool * option error)) : string * string :=
  call_member (fst x).

(** No two calls for one recipient draw the same member. *)
Definition distinct_members (calls : list (string * AllowEnv)) : bool :=
  bool_decide (NoDup (map call_member calls)).

(** Every bucket holds at most [maxPerHour] entries, none scored after
    the clock reading [t], and none scored later than its key's deadline
    less the ttl. *)
Definition bucket_inv (r : RedisRecipientLimiter) (t : Z) (db : gmap string redis.entry) : Prop :=
  forall key e, db !! key = Some e ->
    Z.of_nat (size (redis.zs e)) <= maxPerHour r /\
    (forall m s, redis.zs e !! m = Some s -> s <= go.float64 t) /\
    (forall d m s, redis.expire_at e = Some d -> redis.zs e !! m = Some s ->
                   s <= go.float64 (d - window r - go.Minute)).

(** Every admission so far is still in its bucket or is old enough for a
    call at [t] to expire it. *)
Definition hist_inv (r : RedisRecipientLimiter) (t : Z) (db : gmap string redis.entry)
    (hist : list (string * AllowEnv * (bool * option error))) : Prop :=
  forall rcp env res, In (rcp, env, res) hist -> admitted rcp (rcp, env, res) = true ->
    (exists e, db !! bucket_key rcp = Some e /\
               redis.zs e !! member_of env = Some (go.float64 (now env))) \/
    go.float64 (now env) <= go.float64 (t - window r).

End ratelimit.

(** ** Package notification: the domain *)

Module notification.
Import common.

(** *** log_model.go and the model of unnamed/part_000 *)

Definition NotificationStatus := string.
Definition StatusQueued : NotificationStatus := "queued".
Definition StatusProcessing : NotificationStatus := "processing".
Definition StatusSent : NotificationStatus := "sent".
Definition StatusFailed : NotificationStatus := "failed".
Definition StatusDelivered : NotificationStatus := "delivered".
Definition StatusBounced : NotificationStatus := "bounced".
Definition StatusOpened : NotificationStatus := "opened".

Definition Channel := string.
Definition ChannelEmail : Channel := "email".
Definition ChannelSMS : Channel := "sms".
Definition ChannelPush : Channel := "push".

Definition NotificationType := string.
Definition TypeConfirmSignup : NotificationType := "confirm_signup".
Definition TypeInviteUser : NotificationType := "invite_user".
Definition TypeMagicLink : NotificationType := "magic_link".
Definition TypeChangeEmail : NotificationType := "change_email".
Definition TypeResetPassword : NotificationType := "reset_password".
Definition TypeReauthentication : NotificationType := "reauthentication".
Definition TypePasswordChanged : NotificationType := "password_changed".
Definition TypeEmailChanged : NotificationType := "email_changed".
Definition TypePhoneChanged : NotificationType := "phone_changed".
Definition TypeIdentityLinked : NotificationType := "identity_linked".
Definition TypeIdentityUnlinked : NotificationType := "identity_unlinked".

Definition validTypes : gmap string bool :=
  list_to_map
    [(TypeConfirmSignup, true); (TypeInviteUser, true); (TypeMagicLink, true);
     (TypeChangeEmail, true); (TypeResetPassword, true); (TypeReauthentication, true);
     (TypePasswordChanged, true); (TypeEmailChanged, true); (TypePhoneChanged, true);
     (TypeIdentityLinked, true); (TypeIdentityUnlinked, true)].

(** Indexing a Go map by a missing key yields the zero value. *)
Definition IsValidType (t : NotificationType) : bool := default false (validTypes !! t).

(** [map[string]any], nil when [None]; the values are kept as text. *)
Definition TemplateData := option (gmap string string).

(** A [time.Time] is its Unix time in nanoseconds; [None] is the zero
    [Time] of a field never set, or a nil [*time.Time]. *)
Record NotificationLog := {
  log_ID : string;
  log_IdempotencyKey : string;
  log_Channel : string;
  log_Type : string;
  log_Recipient : string;
  log_TemplateData : TemplateData;
  log_ProviderID : string;
  log_Status : NotificationStatus;
  log_ErrorMessage : string;
  log_CreatedAt : option Z;
  log_UpdatedAt : option Z;
  log_SentAt : option Z;
  log_DeliveredAt : option Z;
  log_OpenedAt : option Z;
  log_BouncedAt : option Z
}.

Record SendRequest := {
  req_Channel : Channel;
  req_Type : NotificationType;
  req_To : string;
  req_Data : TemplateData;
  req_IdempotencyKey : string
}.

Record SendResponse := {
  resp_ID : string;
  resp_IdempotencyKey : string;
  resp_Channel : string;
  resp_Status : string
}.

Record Message := {
  msg_To : string;
  msg_Subject : string;
  msg_HTML : string;
  msg_Text : string
}.

Record ListFilter := {
  flt_Page : Z;
  flt_PageSize : Z;
  flt_Status : string;
  flt_Recipient : string;
  flt_Channel : string
}.

Record ListResponse := {
  lr_Notifications : list NotificationLog;
  lr_Total : Z;
  lr_Page : Z;
  lr_PageSize : Z
}.

(** *** The ports and the ambient effects

    The domain reaches its collaborators through the interfaces
    [NotificationStore], [Enqueuer], [RecipientRateLimiter],
    [TemplateRenderer] and [Provider], and reads the clock and writes the
    log through [time] and [slog]. One constructor per method; the index
    is what the method returns. [Create] fills fields of the log it is
    handed, so it returns the log too. *)

Inductive Level := LevelInfo | LevelWarn | LevelError.

(** An attribute value of a log record. *)
Inductive any := AStr (s : string) | AInt (z : Z) | AErr (e : error).

Inductive Op : Type -> Type :=
| Store_Create (log : NotificationLog) : Op (NotificationLog * option error)
| Store_GetByID (id : string) : Op (option NotificationLog * option error)
| Store_GetByIdempotencyKey (key : string) : Op (option NotificationLog * option error)
| Store_UpdateStatus (id : string) (status : NotificationStatus) (providerID errMsg : string)
    : Op (option error)
| Store_ListStale (olderThan : Z) (limit : Z) : Op (list NotificationLog * option error)
| Enqueuer_EnqueueSendNotification (logID : string) : Op (option error)
| RateLimiter_Allow (recipient : string) : Op (bool * option error)
| Renderer_Render (notifType : NotificationType) (data : TemplateData)
    : Op (string * string * string * option error)
| Provider_Send (channel : Channel) (msg : Message) : Op (string * option error)
| time_Now : Op Z
| slog (level : Level) (msg : string) (args : list (string * any)) : Op unit.

(** A method body: it returns, or calls out and goes on with the answer. *)
Inductive Prog (A : Type) : Type :=
| Ret (a : A)
| Do {R : Type} (op : Op R) (k : R -> Prog A).
Arguments Ret {A} a.
Arguments Do {A R} op k.

Fixpoint bind {A B : Type} (p : Prog A) (f : A -> Prog B) : Prog B :=
  match p with
  | Ret a => f a
  | Do op k => Do op (fun r => bind (k r) f)
  end.

Definition call {R : Type} (op : Op R) : Prog R := Do op Ret.

Notation "'let*' x ':=' p 'in' q" := (bind p (fun x => q))
  (at level 10, x pattern, p at level 100, q at level 200).

(** What an execution did: each call with its answer, in order. *)
Inductive Event :=
| EvCreate (log : NotificationLog) (res : NotificationLog * option error)
| EvGetByID (id : string) (res : option NotificationLog * option error)
| EvGetByIdempotencyKey (key : string) (res : option NotificationLog * option error)
| EvUpdateStatus (id : string) (status : NotificationStatus) (providerID errMsg : string)
    (res : option error)
| EvListStale (olderThan : Z) (limit : Z) (res : list NotificationLog * option error)
| EvEnqueue (logID : string) (res : option error)
| EvAllow (recipient : string) (res : bool * option error)
| EvRender (notifType : NotificationType) (data : TemplateData)
    (res : string * string * string * option error)
| EvSend (channel : Channel) (msg : Message) (res : string * option error)
| EvNow (t : Z)
| EvSlog (level : Level) (msg : string) (args : list (string * any)).

Definition event_of {R : Type} (op : Op R) : R -> Event :=
  match op in Op R return R -> Event with
  | Store_Create log => EvCreate log
  | Store_GetByID id => EvGetByID id
  | Store_GetByIdempotencyKey key => EvGetByIdempotencyKey key
  | Store_UpdateStatus id status providerID errMsg => EvUpdateStatus id status providerID errMsg
  | Store_ListStale olderThan limit => EvListStale olderThan limit
  | Enqueuer_EnqueueSendNotification logID => EvEnqueue logID
  | RateLimiter_Allow recipient => EvAllow recipient
  | Renderer_Render notifType data => EvRender notifType data
  | Provider_Send channel msg => EvSend channel msg
  | time_Now => EvNow
  | slog level msg args => fun _ => EvSlog level msg args
  end.

Definition is_slog (ev : Event) : bool :=
  match ev with EvSlog _ _ _ => true | _ => false end.

Definition is_lookup (ev : Event) : bool :=
  match ev with EvGetByIdempotencyKey _ _ => true | _ => false end.

(** The calls that change something outside: the limiter, and the
    store's and the queue's writes. *)
Definition is_effect (ev : Event) : bool :=
  match ev with
  | EvAllow _ _ | EvCreate _ _ | EvEnqueue _ _ | EvUpdateStatus _ _ _ _ _ => true
  | _ => false
  end.

(** The collaborators, as functions on a world of type [W]. *)
Definition handler (W : Type) : Type := forall R : Type, Op R -> W -> R * W.

(** Running a body against the collaborators: the result, the world left
    behind and the events. *)
Fixpoint exec {W A : Type} (h : handler W) (p : Prog A) (w : W) : A * W * list Event :=
  match p with
  | Ret a => (a, w, [])
  | Do op k =>
      let '(r, w1) := h _ op w in
      let '(a, w2, evs) := exec h (k r) w1 in
      (a, w2, event_of op r :: evs)
  end.

(** One call of a body, for interleaved executions. *)
Definition step {W A : Type} (h : handler W) (p : Prog A) (w : W) : Prog A * W :=
  match p with
  | Ret a => (Ret a, w)
  | Do op k => let '(r, w1) := h _ op w in (k r, w1)
  end.

(** Collaborators with nothing behind them: a store that holds no record
    and accepts every write, a queue, a limiter and a provider that
    always succeed, a clock that stands still. *)
Definition empty_ports : handler unit :=
  fun R op w =>
    (match op in Op R return R with
     | Store_Create log => (log, None)
     | Store_GetByID _ => (None, None)
     | Store_GetByIdempotencyKey _ => (None, None)
     | Store_UpdateStatus _ _ _ _ => None
     | Store_ListStale _ _ => ([], None)
     | Enqueuer_EnqueueSendNotification _ => None
     | RateLimiter_Allow _ => (true, None)
     | Renderer_Render _ _ => ("", "", "", None)
     | Provider_Send _ _ => ("", None)
     | time_Now => 0
     | slog _ _ _ => tt
     end, w).

(** *** Service.Enqueue (the service of reaper.go's bundle) *)

(** The store and the enqueuer are the ambient ports; the limiter may be
    nil. *)
Record Service := { rateLimiter : bool }.

Definition Result : Type := (option SendResponse * option error)%type.

(** The record to create for a request. *)
Definition new_log (req : SendRequest) : NotificationLog :=
  {| log_ID := ""; log_IdempotencyKey := req_IdempotencyKey req;
     log_Channel := req_Channel req; log_Type := req_Type req;
     log_Recipient := req_To req; log_TemplateData := req_Data req;
     log_ProviderID := ""; log_Status := StatusQueued; log_ErrorMessage := "";
     log_CreatedAt := None; log_UpdatedAt := None; log_SentAt := None;
     log_DeliveredAt := None; log_OpenedAt := None; log_BouncedAt := None |}.

(** The response that mirrors an existing record. *)
Definition existing_response (existing : NotificationLog) : SendResponse :=
  {| resp_ID := log_ID existing;
     resp_IdempotencyKey := log_IdempotencyKey existing;
     resp_Channel := log_Channel existing;
     resp_Status := log_Status existing |}.

(** The response for a record just created and enqueued. *)
Definition queued_response (req : SendRequest) (notifLog : NotificationLog) : SendResponse :=
  {| resp_ID := log_ID notifLog;
     resp_IdempotencyKey := log_IdempotencyKey notifLog;
     resp_Channel := req_Channel req;
     resp_Status := StatusQueued |}.

(** Steps 4 to 6: create the log, enqueue the task. *)
Definition Enqueue_create (req : SendRequest) : Prog Result :=
  let* (notifLog, err) := call (Store_Create (new_log req)) in
  match err with
  | Some err => Ret (None, Some (Errorf_w "creating notification log: " err))
  | None =>
      let* err := call (Enqueuer_EnqueueSendNotification (log_ID notifLog)) in
      match err with
      | Some err =>
          let* _ := call (Store_UpdateStatus (log_ID notifLog) StatusFailed ""
                       ("failed to enqueue: " +:+ Error err)) in
          Ret (None, Some (Errorf_w "enqueuing notification: " err))
      | None =>
          let* _ := call (slog LevelInfo "notification enqueued"
                       [("id", AStr (log_ID notifLog)); ("channel", AStr (req_Channel req));
                        ("type", AStr (req_Type req)); ("to", AStr (req_To req))]) in
          Ret (Some (queued_response req notifLog), None)
      end
  end.

(** Step 3: the per-recipient limit. *)
Definition Enqueue_ratelimit (s : Service) (req : SendRequest) : Prog Result :=
  if rateLimiter s then
    let* (allowed, err) := call (RateLimiter_Allow (req_To req)) in
    match err with
    | Some err =>
        let* _ := call (slog LevelError "rate limit check failed, proceeding without limit"
                     [("recipient", AStr (req_To req)); ("error", AErr err)]) in
        Enqueue_create req
    | None =>
        if negb allowed
        then Ret (None, Some (NewValidationError
                                ("rate limit exceeded for recipient: " +:+ req_To req)))
        else Enqueue_create req
    end
  else Enqueue_create req.

(** Step 2: the idempotency lookup. *)
Definition Enqueue_idempotency (s : Service) (req : SendRequest) : Prog Result :=
  if negb (String.eqb (req_IdempotencyKey req) "") then
    let* (existing, err) := call (Store_GetByIdempotencyKey (req_IdempotencyKey req)) in
    let* _ := match err with
         | Some err =>
             call (slog LevelError "idempotency check failed"
                     [("key", AStr (req_IdempotencyKey req)); ("error", AErr err)])
         | None => Ret tt
         end in
    match existing with
    | Some existing =>
        let* _ := call (slog LevelInfo "idempotent request — returning existing result"
                     [("idempotency_key", AStr (req_IdempotencyKey req));
                      ("existing_id", AStr (log_ID existing));
                      ("existing_status", AStr (log_Status existing))]) in
        Ret (Some (existing_response existing), None)
    | None => Enqueue_ratelimit s req
    end
  else Enqueue_ratelimit s req.

Definition Enqueue (s : Service) (req : SendRequest) : Prog Result :=
  if negb (IsValidType (req_Type req))
  then Ret (None, Some (NewValidationError
                          ("unsupported notification type: " +:+ req_Type req)))
  else Enqueue_idempotency s req.

Definition is_allow (ev : Event) : bool :=
  match ev with EvAllow _ _ => true | _ => false end.

(** What the last steps of [Enqueue] return, given the answers of
    [Create] and of the enqueuer. *)
Definition create_outcome (req : SendRequest) (cres : NotificationLog * option error)
    (rest : list Event) (res : Result) : Prop :=
  match snd cres with
  | Some cerr => res = (None, Some (Errorf_w "creating notification log: " cerr)) /\ rest = []
  | None =>
      exists eres rest',
        rest = EvEnqueue (log_ID (fst cres)) eres :: rest' /\
        match eres with
        | Some eerr => res = (None, Some (Errorf_w "enqueuing notification: " eerr))
        | None => res = (Some (queued_response req (fst cres)), None)
        end
  end.

(** *** Worker.ProcessTask (unnamed/part_002) *)

(** [providers] lists the channels that have a provider. *)
Record Worker := { providers : list Channel }.

Definition has_provider (w : Worker) (channel : Channel) : bool :=
  existsb (String.eqb channel) (providers w).

(** From the send onwards. *)
Definition ProcessTask_send (logID : string) (start : Z) (notifLog : NotificationLog)
    (subject html text : string) : Prog (option error) :=
  let channel := log_Channel notifLog in
  let notifType := log_Type notifLog in
  let msg := {| msg_To := log_Recipient notifLog; msg_Subject := subject;
                msg_HTML := html; msg_Text := text |} in
  let* (providerID, err) := call (Provider_Send channel msg) in
  match err with
  | Some err =>
      let errMsg := "provider error: " +:+ Error err in
      let* _ := call (Store_UpdateStatus logID StatusFailed "" errMsg) in
      let* t := call time_Now in
      let* _ := call (slog LevelError "notification delivery failed"
                   [("log_id", AStr logID); ("channel", AStr channel);
                    ("type", AStr notifType); ("to", AStr (log_Recipient notifLog));
                    ("error", AErr err); ("duration", AInt (t - start))]) in
      Ret (Some (NewProviderError channel (Error err)))
  | None =>
      let* uerr := call (Store_UpdateStatus logID StatusSent providerID "") in
      let* _ := match uerr with
           | Some uerr =>
               call (slog LevelError "failed to update status to sent"
                       [("log_id", AStr logID); ("error", AErr uerr)])
           | None => Ret tt
           end in
      let* t := call time_Now in
      let* _ := call (slog LevelInfo "notification sent"
                   [("log_id", AStr logID); ("channel", AStr channel);
                    ("type", AStr notifType); ("to", AStr (log_Recipient notifLog));
                    ("provider_id", AStr providerID); ("duration", AInt (t - start))]) in
      Ret None
  end.

(** The checks, the rendering and the delivery. *)
Definition ProcessTask_deliver (w : Worker) (logID : string) (start : Z)
    (notifLog : NotificationLog) : Prog (option error) :=
  let channel := log_Channel notifLog in
  let notifType := log_Type notifLog in
  if negb (IsValidType notifType) then
    let errMsg := "unsupported notification type: " +:+ notifType in
    let* _ := call (Store_UpdateStatus logID StatusFailed "" errMsg) in
    Ret (Some (NewValidationError errMsg))
  else if negb (has_provider w channel) then
    let errMsg := "unsupported channel: " +:+ channel in
    let* _ := call (Store_UpdateStatus logID StatusFailed "" errMsg) in
    Ret (Some (NewValidationError errMsg))
  else
    let* (subject, html, text, err) :=
      call (Renderer_Render notifType (log_TemplateData notifLog)) in
    match err with
    | Some err =>
        let errMsg := "rendering template: " +:+ Error err in
        let* _ := call (Store_UpdateStatus logID StatusFailed "" errMsg) in
        Ret (Some (Errorf_w ("rendering template " +:+ notifType +:+ ": ") err))
    | None => ProcessTask_send logID start notifLog subject html text
    end.

(** From the status update to [processing] onwards. *)
Definition ProcessTask_found (w : Worker) (logID : string) (start : Z)
    (notifLog : NotificationLog) : Prog (option error) :=
  let* uerr := call (Store_UpdateStatus logID StatusProcessing "" "") in
  let* _ := match uerr with
            | Some uerr =>
                call (slog LevelError "failed to update status to processing"
                        [("log_id", AStr logID); ("error", AErr uerr)])
            | None => Ret tt
            end in
  ProcessTask_deliver w logID start notifLog.

(** The events that follow a successful send. *)
Definition sent_tail (logID : string) (notifLog : NotificationLog) (start : Z)
    (providerID : string) (ures : option error) (t : Z) : list Event :=
  EvUpdateStatus logID StatusSent providerID "" ures
  :: match ures with
     | Some uerr => [EvSlog LevelError "failed to update status to sent"
                       [("log_id", AStr logID); ("error", AErr uerr)]]
     | None => []
     end
  ++ [EvNow t;
      EvSlog LevelInfo "notification sent"
        [("log_id", AStr logID); ("channel", AStr (log_Channel notifLog));
         ("type", AStr (log_Type notifLog)); ("to", AStr (log_Recipient notifLog));
         ("provider_id", AStr providerID); ("duration", AInt (t - start))]].

(** What the worker does before it sends: it reads the clock and the
    record, asks for the status [processing], logs and renders. *)
Definition before_send (ev : Event) : bool :=
  match ev with
  | EvNow _ | EvGetByID _ _ | EvSlog _ _ _ | EvRender _ _ _ => true
  | EvUpdateStatus _ status providerID errMsg _ =>
      String.eqb status StatusProcessing && String.eqb providerID "" && String.eqb errMsg ""
  | _ => false
  end.

Definition is_getbyid (ev : Event) : bool :=
  match ev with EvGetByID _ _ => true | _ => false end.

Definition ProcessTask (w : Worker) (logID : string) : Prog (option error) :=
  let* start := call time_Now in
  let* (notifLog, err) := call (Store_GetByID logID) in
  match err with
  | Some err => Ret (Some (Errorf_w ("fetching notification log " +:+ logID +:+ ": ") err))
  | None =>
      match notifLog with
      | None =>
          let* _ := call (slog LevelError "notification log not found" [("log_id", AStr logID)]) in
          Ret (Some (Errorf_s "notification log not found: " logID))
      | Some notifLog => ProcessTask_found w logID start notifLog
      end
  end.

(** *** The reaper (reaper.go) *)

Record ReaperConfig := { Interval : Z; StaleThreshold : Z; BatchSize : Z }.
Record Reaper := { config : ReaperConfig }.

Definition NewReaper (cfg : ReaperConfig) : Reaper :=
  let cfg := if Interval cfg <=? 0
             then {| Interval := 5 * go.Minute; StaleThreshold := StaleThreshold cfg;
                     BatchSize := BatchSize cfg |} else cfg in
  let cfg := if StaleThreshold cfg <=? 0
             then {| Interval := Interval cfg; StaleThreshold := 10 * go.Minute;
                     BatchSize := BatchSize cfg |} else cfg in
  let cfg := if BatchSize cfg <=? 0
             then {| Interval := Interval cfg; StaleThreshold := StaleThreshold cfg;
                     BatchSize := 50 |} else cfg in
  {| config := cfg |}.

(** [d.Round(time.Second)]: to the nearest second, halves away from
    zero. *)
Definition Round_Second (d : Z) : Z :=
  if d <? 0 then - (((- d + go.Second / 2) / go.Second) * go.Second)
  else ((d + go.Second / 2) / go.Second) * go.Second.

(** [time.Since(updatedAt).Round(time.Second)]; the distance to a zero
    [Time] saturates at the largest [Duration]. *)
Definition age_attr (t : Z) (updatedAt : option Z) : any :=
  match updatedAt with
  | Some u => AInt (Round_Second (t - u))
  | None => AInt (2 ^ 63 - 1)
  end.

(** The loop of [sweep] over the stale logs; it returns [recovered]. *)
Fixpoint sweep_loop (staleLogs : list NotificationLog) (recovered : Z) : Prog Z :=
  match staleLogs with
  | [] => Ret recovered
  | notifLog :: rest =>
      let* err := call (Store_UpdateStatus (log_ID notifLog) StatusQueued "" "") in
      match err with
      | Some err =>
          let* _ := call (slog LevelError "reaper: failed to reset status"
                       [("log_id", AStr (log_ID notifLog)); ("error", AErr err)]) in
          sweep_loop rest recovered
      | None =>
          let* err := call (Enqueuer_EnqueueSendNotification (log_ID notifLog)) in
          match err with
          | Some err =>
              let* _ := call (slog LevelError "reaper: failed to re-enqueue task"
                           [("log_id", AStr (log_ID notifLog)); ("error", AErr err)]) in
              sweep_loop rest recovered
          | None =>
              let* t := call time_Now in
              let* _ := call (slog LevelInfo "reaper: recovered stale task"
                           [("log_id", AStr (log_ID notifLog));
                            ("original_status", AStr (log_Status notifLog));
                            ("age", age_attr t (log_UpdatedAt notifLog))]) in
              sweep_loop rest (recovered + 1)
          end
      end
  end.

(** The events a sweep can produce: its status updates are resets to
    [queued] with no provider id and no error message, and it creates
    nothing. *)
Definition reaper_event (ev : Event) : bool :=
  match ev with
  | EvUpdateStatus _ status providerID errMsg _ =>
      String.eqb status StatusQueued && String.eqb providerID "" && String.eqb errMsg ""
  | EvCreate _ _ => false
  | _ => true
  end.

Definition is_liststale (ev : Event) : bool :=
  match ev with EvListStale _ _ _ => true | _ => false end.

(** The shape of the loop's events: only resets and passive events;
    every enqueue directly follows the accepted reset of the same id;
    every stale log gets its reset attempted, and its enqueue attempted
    when the reset was accepted. *)
Definition sweep_shape (staleLogs : list NotificationLog) (tr : list Event) : Prop :=
  (forall ev, In ev tr -> reaper_event ev = true /\ is_liststale ev = false) /\
  (forall id eres, In (EvEnqueue id eres) tr ->
     exists pre post,
       tr = pre ++ EvUpdateStatus id StatusQueued "" "" None :: EvEnqueue id eres :: post) /\
  (forall l, In l staleLogs ->
     exists ures, In (EvUpdateStatus (log_ID l) StatusQueued "" "" ures) tr /\
                  (ures = None -> exists eres, In (EvEnqueue (log_ID l) eres) tr)).

Definition sweep (r : Reaper) : Prog unit :=
  let* t := call time_Now in
  let olderThan := t - StaleThreshold (config r) in
  let* (staleLogs, err) := call (Store_ListStale olderThan (BatchSize (config r))) in
  match err with
  | Some err =>
      call (slog LevelError "reaper: failed to list stale tasks" [("error", AErr err)])
  | None =>
      match staleLogs with
      | [] => Ret tt
      | _ =>
          let* _ := call (slog LevelWarn "reaper: found stale tasks"
                       [("count", AInt (Z.of_nat (length staleLogs)))]) in
          let* recovered := sweep_loop staleLogs 0 in
          if 0 <? recovered
          then call (slog LevelInfo "reaper: sweep complete"
                       [("recovered", AInt recovered);
                        ("total_stale", AInt (Z.of_nat (length staleLogs)))])
          else Ret tt
      end
  end.

(** *** The task of the queue (the tasks of unnamed/part_000) *)

Definition TaskTypeSendNotification : string := "notification:send".

Record SendNotificationPayload := { LogID : string }.

(** [json.Marshal] of the payload: the id between the quotes of
    [log_id]. An id is a UUID, so nothing in it needs escaping. *)
Definition dquote : string := String "034"%char EmptyString.

Definition marshal_payload (p : SendNotificationPayload) : string :=
  "{" +:+ dquote +:+ "log_id" +:+ dquote +:+ ":" +:+ dquote +:+ LogID p +:+ dquote +:+ "}".

(** *** The rest of the service (reaper.go's bundle) *)

(** [Service.GetNotification]. *)
Definition GetNotification (id : string) : Prog (option NotificationLog * option error) :=
  let* (notifLog, err) := call (Store_GetByID id) in
  match err with
  | Some err => Ret (None, Some (Errorf_w "fetching notification: " err))
  | None =>
      match notifLog with
      | None => Ret (None, Some (NewNotFoundError "notification" id))
      | Some notifLog => Ret (Some notifLog, None)
      end
  end.

(** The two store methods and the logger that [ListNotifications] and
    [HandleWebhookEvent] reach, as functions on a world. *)
Section service_over_a_store.
Context {W : Type}.
Variable store_List : ListFilter -> W -> (list NotificationLog * Z * option error) * W.
Variable store_UpdateWebhookStatus :
  string -> NotificationStatus -> W -> option error * W.
Variable slog_ : Level -> string -> list (string * any) -> W -> W.

(** [Service.ListNotifications]: the store gets the filter as it came;
    the defaults are applied again for the response. *)
Definition ListNotifications (filter : ListFilter) (w : W)
    : (option ListResponse * option error) * W :=
  let '((logs, total, err), w) := store_List filter w in
  match err with
  | Some err => ((None, Some (Errorf_w "listing notifications: " err)), w)
  | None =>
      let page := if flt_Page filter <? 1 then 1 else flt_Page filter in
      let pageSize := if (flt_PageSize filter <? 1) || (100 <? flt_PageSize filter)
                      then 20 else flt_PageSize filter in
      ((Some {| lr_Notifications := logs; lr_Total := total;
                lr_Page := page; lr_PageSize := pageSize |}, None), w)
  end.

(** [Service.HandleWebhookEvent]. *)
Definition HandleWebhookEvent (providerID : string) (status : NotificationStatus) (w : W)
    : option error * W :=
  if String.eqb providerID "" then (Some (NewValidationError "provider_id is required"), w)
  else
    let '(err, w) := store_UpdateWebhookStatus providerID status w in
    match err with
    | Some err => (Some (Errorf_w "updating webhook status: " err), w)
    | None =>
        (None, slog_ LevelInfo "webhook status updated"
                 [("provider_id", AStr providerID); ("status", AStr status)] w)
    end.

(** *** The HTTP handlers (handler.go)

    Each takes what gin bound from the request, or the error of the
    binding, and yields what it writes. *)

(** [Handler.ListNotifications]. *)
Definition Handler_ListNotifications (bound : ListFilter + error) (w : W)
    : Written (option ListResponse) * W :=
  match bound with
  | inr err => (Error_resp StatusBadRequest ("invalid query parameters: " +:+ Error err), w)
  | inl filter =>
      let '((resp, err), w) := ListNotifications filter w in
      match err with
      | Some err => (HandleError (Some err), w)
      | None => (Success_ StatusOK resp, w)
      end
  end.

(** The body of a Resend webhook: the event type and [data.email_id]. *)
Record ResendEvent := { ev_Type : string; ev_EmailID : string }.

(** [gin.H{"status": s}]. *)
Definition H_status (s : string) : gmap string string := {[ "status" := s ]}.

(** The statuses the webhook maps event types to. *)
Definition webhook_status (eventType : string) : option NotificationStatus :=
  if String.eqb eventType "email.delivered" then Some StatusDelivered
  else if String.eqb eventType "email.bounced" then Some StatusBounced
  else if String.eqb eventType "email.opened" then Some StatusOpened
  else None.

(** [Handler.ResendWebhook]. *)
Definition Handler_ResendWebhook (bound : ResendEvent + error) (w : W)
    : Written (gmap string string) * W :=
  match bound with
  | inr err => (Error_resp StatusBadRequest ("invalid webhook payload: " +:+ Error err), w)
  | inl event =>
      match webhook_status (ev_Type event) with
      | None =>
          let w := slog_ LevelInfo "ignoring webhook event" [("type", AStr (ev_Type event))] w in
          (Success_ StatusOK (H_status "ignored"), w)
      | Some status =>
          let '(err, w) := HandleWebhookEvent (ev_EmailID event) status w in
          match err with
          | Some err =>
              let w := slog_ LevelError "webhook processing failed"
                         [("event_type", AStr (ev_Type event));
                          ("email_id", AStr (ev_EmailID event)); ("error", AErr err)] w in
              (HandleError (Some err), w)
          | None => (Success_ StatusOK (H_status "processed"), w)
          end
      end
  end.

End service_over_a_store.

(** [Handler.Send]. *)
Definition Handler_Send (s : Service) (bound : SendRequest + error)
    : Prog (Written (option SendResponse)) :=
  match bound with
  | inr err => Ret (Error_resp StatusBadRequest ("invalid request body: " +:+ Error err))
  | inl req =>
      let* (resp, err) := Enqueue s req in
      match err with
      | Some err =>
          let* _ := call (slog LevelError "enqueue notification failed"
                       [("error", AErr err); ("channel", AStr (req_Channel req));
                        ("type", AStr (req_Type req)); ("to", AStr (req_To req))]) in
          Ret (HandleError (Some err))
      | None => Ret (Success_ StatusAccepted resp)
      end
  end.

(** [Handler.GetNotification]. *)
Definition Handler_GetNotification (id : string) : Prog (Written (option NotificationLog)) :=
  let* (notifLog, err) := GetNotification id in
  match err with
  | Some err => Ret (HandleError (Some err))
  | None => Ret (Success_ StatusOK notifLog)
  end.

End notification.

(** ** Package queue (the asynq wrappers, in store/supabase.go's bundle) *)

Module queue.
Import common notification.

(** The [RetryDelayFunc] of [NewServer]:
    [time.Duration(30*(1<<uint(n-1))) * time.Second]. The constant [1]
    takes the type of the conversion, an [int64]. *)
Definition RetryDelayFunc (n : Z) : Z :=
  go.mul_int64 (go.mul_int64 30 (go.shl_int64 1 (go.uint64 (go.sub_int64 n 1)))) go.Second.

(** [EnqueueSendNotification]: build the task and hand it to the client,
    whose [Enqueue] may fail; [tasks] is what the queue holds. *)
Definition EnqueueSendNotification (fault : option error) (logID : string) (maxRetry : Z)
    (tasks : list asynq.Task) : option error * list asynq.Task :=
  let task := {| asynq.Typename := TaskTypeSendNotification;
                 asynq.Payload := marshal_payload {| LogID := logID |};
                 asynq.MaxRetry := maxRetry;
                 asynq.Queue := "notifications" |} in
  match fault with
  | Some err => (Some (Errorf_w "enqueuing task: " err), tasks)
  | None => (None, tasks ++ [task])
  end.

End queue.

(** ** Package store: the table and the PostgREST calls (store/supabase.go,
    schema in unnamed/part_005) *)

Module store.
Import common notification.

(** A row of [notification_logs], which is also the shape of the JSON the
    store sends and receives. A nullable column, and a text field left
    out by [omitempty], is an [option]; timestamps travel as RFC 3339
    text and are kept as the instants they denote. *)
Record supabaseRow := {
  row_ID : string;
  row_IdempotencyKey : option string;
  row_Channel : string;
  row_Type : string;
  row_Recipient : string;
  row_TemplateData : TemplateData;
  row_ProviderID : option string;
  row_Status : string;
  row_ErrorMessage : option string;
  row_CreatedAt : option Z;
  row_UpdatedAt : option Z;
  row_SentAt : option Z;
  row_DeliveredAt : option Z;
  row_OpenedAt : option Z;
  row_BouncedAt : option Z
}.

(** [rowToLog]. *)
Definition rowToLog (row : supabaseRow) : NotificationLog :=
  {| log_ID := row_ID row;
     log_IdempotencyKey := default "" (row_IdempotencyKey row);
     log_Channel := row_Channel row;
     log_Type := row_Type row;
     log_Recipient := row_Recipient row;
     log_TemplateData := row_TemplateData row;
     log_ProviderID := default "" (row_ProviderID row);
     log_Status := row_Status row;
     log_ErrorMessage := default "" (row_ErrorMessage row);
     log_CreatedAt := row_CreatedAt row;
     log_UpdatedAt := row_UpdatedAt row;
     log_SentAt := row_SentAt row;
     log_DeliveredAt := row_DeliveredAt row;
     log_OpenedAt := row_OpenedAt row;
     log_BouncedAt := row_BouncedAt row |}.

(** *** The database behind PostgREST *)

(** [VARCHAR(n)] holds at most [n] characters. The text that reaches the
    database is UTF-8, in which a character is a byte that is no
    continuation byte (10xxxxxx) and the continuation bytes after it. *)
Definition is_continuation (c : ascii) : bool :=
  (128 <=? N_of_ascii c)%N && (N_of_ascii c <? 192)%N.

Fixpoint char_length (s : string) : nat :=
  match s with
  | EmptyString => 0
  | String c rest => if is_continuation c then char_length rest else S (char_length rest)
  end.

Definition varchar (n : nat) (s : string) : bool := Nat.leb (char_length s) n.

Definition has_id (id : string) (row : supabaseRow) : bool := String.eqb (row_ID row) id.

Definition has_key (key : string) (row : supabaseRow) : bool :=
  match row_IdempotencyKey row with
  | Some k => String.eqb k key
  | None => false
  end.

(** [INSERT ... RETURNING *]: the defaults fill what the request left
    out, then the constraints of the schema decide: the lengths of the
    [VARCHAR] columns, the primary key, and [UNIQUE] on a non-null
    [idempotency_key]. [uuid] is what [gen_random_uuid()] draws and [now]
    what [NOW()] reads. *)
Definition insert (uuid : string) (now : Z) (row : supabaseRow) (table : list supabaseRow)
    : (supabaseRow + error) :=
  let row' :=
    {| row_ID := if String.eqb (row_ID row) "" then uuid else row_ID row;
       row_IdempotencyKey := row_IdempotencyKey row;
       row_Channel := row_Channel row;
       row_Type := row_Type row;
       row_Recipient := row_Recipient row;
       row_TemplateData := row_TemplateData row;
       row_ProviderID := row_ProviderID row;
       row_Status := row_Status row;
       row_ErrorMessage := row_ErrorMessage row;
       row_CreatedAt := Some (default now (row_CreatedAt row));
       row_UpdatedAt := Some (default now (row_UpdatedAt row));
       row_SentAt := row_SentAt row;
       row_DeliveredAt := row_DeliveredAt row;
       row_OpenedAt := row_OpenedAt row;
       row_BouncedAt := row_BouncedAt row |} in
  if negb (varchar 255 (default "" (row_IdempotencyKey row')) && varchar 20 (row_Channel row')
           && varchar 50 (row_Type row') && varchar 255 (row_Recipient row')
           && varchar 255 (default "" (row_ProviderID row')) && varchar 20 (row_Status row'))
  then inr (errorString "value too long for type character varying")
  else if existsb (has_id (row_ID row')) table
  then inr (errorString "duplicate key value violates unique constraint notification_logs_pkey")
  else if match row_IdempotencyKey row' with
          | Some k => existsb (has_key k) table
          | None => false
          end
  then inr (errorString
              "duplicate key value violates unique constraint notification_logs_idempotency_key_key")
  else inl row'.

(** A JSON value of an update body. *)
Inductive value := VString (s : string) | VTime (t : Z).

Definition set_text (v : option value) (old : string) : string :=
  match v with Some (VString s) => s | _ => old end.
Definition set_opt_text (v : option value) (old : option string) : option string :=
  match v with Some (VString s) => Some s | _ => old end.
Definition set_time (v : option value) (old : option Z) : option Z :=
  match v with Some (VTime t) => Some t | _ => old end.

(** [UPDATE ... SET]: only the columns named in the body change. *)
Definition apply_update (update : gmap string value) (row : supabaseRow) : supabaseRow :=
  {| row_ID := row_ID row;
     row_IdempotencyKey := row_IdempotencyKey row;
     row_Channel := row_Channel row;
     row_Type := row_Type row;
     row_Recipient := row_Recipient row;
     row_TemplateData := row_TemplateData row;
     row_ProviderID := set_opt_text (update !! "provider_id") (row_ProviderID row);
     row_Status := set_text (update !! "status") (row_Status row);
     row_ErrorMessage := set_opt_text (update !! "error_message") (row_ErrorMessage row);
     row_CreatedAt := row_CreatedAt row;
     row_UpdatedAt := set_time (update !! "updated_at") (row_UpdatedAt row);
     row_SentAt := set_time (update !! "sent_at") (row_SentAt row);
     row_DeliveredAt := set_time (update !! "delivered_at") (row_DeliveredAt row);
     row_OpenedAt := set_time (update !! "opened_at") (row_OpenedAt row);
     row_BouncedAt := set_time (update !! "bounced_at") (row_BouncedAt row) |}.

(** [Update(update).Eq(column, v)]: every row the filter selects. *)
Definition update_where (sel : supabaseRow -> bool) (update : gmap string value)
    (table : list supabaseRow) : list supabaseRow :=
  map (fun row => if sel row then apply_update update row else row) table.

(** *** SupabaseStore

    Each method is one PostgREST round trip; [fault] is the error of
    [Execute] when the round trip fails, and a failed round trip leaves
    the table as it was. The replies of PostgREST are well-formed JSON, so
    [json.Unmarshal] does not fail. *)

(** The [omitempty] of the [template_data] tag: [encoding/json] leaves a
    map without entries out of the body like a nil one, so the column of
    the inserted row is NULL and reads back as a nil map. *)
Definition omitempty_map (data : TemplateData) : TemplateData :=
  match data with
  | Some m => if decide (m = ∅) then None else Some m
  | None => None
  end.

Definition Create (fault : option error) (uuid : string) (now : Z) (log : NotificationLog)
    (table : list supabaseRow) : (NotificationLog * option error) * list supabaseRow :=
  let row :=
    {| row_ID := "";
       row_IdempotencyKey :=
         if negb (String.eqb (log_IdempotencyKey log) "")
         then Some (log_IdempotencyKey log) else None;
       row_Channel := log_Channel log;
       row_Type := log_Type log;
       row_Recipient := log_Recipient log;
       row_TemplateData := omitempty_map (log_TemplateData log);
       row_ProviderID := None;
       row_Status := log_Status log;
       row_ErrorMessage := None;
       row_CreatedAt := None; row_UpdatedAt := None; row_SentAt := None;
       row_DeliveredAt := None; row_OpenedAt := None; row_BouncedAt := None |} in
  match fault with
  | Some err => ((log, Some (Errorf_w "inserting notification log: " err)), table)
  | None =>
      match insert uuid now row table with
      | inr err => ((log, Some (Errorf_w "inserting notification log: " err)), table)
      | inl created =>
          ({| log_ID := row_ID created;
              log_IdempotencyKey := log_IdempotencyKey log;
              log_Channel := log_Channel log;
              log_Type := log_Type log;
              log_Recipient := log_Recipient log;
              log_TemplateData := log_TemplateData log;
              log_ProviderID := log_ProviderID log;
              log_Status := log_Status log;
              log_ErrorMessage := log_ErrorMessage log;
              log_CreatedAt := match row_CreatedAt created with
                               | Some t => Some t | None => log_CreatedAt log end;
              log_UpdatedAt := match row_UpdatedAt created with
                               | Some t => Some t | None => log_UpdatedAt log end;
              log_SentAt := log_SentAt log;
              log_DeliveredAt := log_DeliveredAt log;
              log_OpenedAt := log_OpenedAt log;
              log_BouncedAt := log_BouncedAt log |}, None,
           table ++ [created])
      end
  end.

(** [Single()] asks for exactly one row; PostgREST answers any other
    count with an error. *)
Definition GetByID (fault : option error) (id : string) (table : list supabaseRow)
    : option NotificationLog * option error :=
  match fault with
  | Some err => (None, Some (Errorf_w "fetching notification log: " err))
  | None =>
      match List.filter (has_id id) table with
      | [row] => (Some (rowToLog row), None)
      | _ => (None, Some (Errorf_w "fetching notification log: "
                            (errorString "JSON object requested, multiple (or no) rows returned")))
      end
  end.

Definition GetByIdempotencyKey (fault : option error) (key : string) (table : list supabaseRow)
    : option NotificationLog * option error :=
  match fault with
  | Some err => (None, Some (Errorf_w "fetching by idempotency key: " err))
  | None =>
      match List.filter (has_key key) table with
      | [] => (None, None)
      | row :: _ => (Some (rowToLog row), None)
      end
  end.

(** The body [UpdateStatus] sends. *)
Definition status_update (now : Z) (status : NotificationStatus) (providerID errMsg : string)
    : gmap string value :=
  let update : gmap string value :=
    <["updated_at" := VTime now]> (<["status" := VString status]> ∅) in
  let update := if negb (String.eqb providerID "")
                then <["provider_id" := VString providerID]> update else update in
  let update := if negb (String.eqb errMsg "")
                then <["error_message" := VString errMsg]> update else update in
  if String.eqb status StatusSent then <["sent_at" := VTime now]> update else update.

Definition UpdateStatus (fault : option error) (now : Z) (id : string)
    (status : NotificationStatus) (providerID errMsg : string) (table : list supabaseRow)
    : option error * list supabaseRow :=
  match fault with
  | Some err => (Some (Errorf_w "updating notification status: " err), table)
  | None => (None, update_where (has_id id) (status_update now status providerID errMsg) table)
  end.

(** [ORDER BY updated_at ASC]. *)
Definition updated_before (a b : supabaseRow) : bool :=
  match row_UpdatedAt a, row_UpdatedAt b with
  | Some x, Some y => x <=? y
  | None, _ => true
  | Some _, None => false
  end.

Fixpoint insert_sorted (row : supabaseRow) (rows : list supabaseRow) : list supabaseRow :=
  match rows with
  | [] => [row]
  | r :: rest => if updated_before row r then row :: rows else r :: insert_sorted row rest
  end.

Definition order_by_updated_at (rows : list supabaseRow) : list supabaseRow :=
  fold_right insert_sorted [] rows.

Definition is_stale (olderThan : Z) (row : supabaseRow) : bool :=
  (String.eqb (row_Status row) StatusQueued || String.eqb (row_Status row) StatusProcessing)
  && match row_UpdatedAt row with Some u => u <? olderThan | None => false end.

Definition ListStale (fault : option error) (olderThan : Z) (limit : Z)
    (table : list supabaseRow) : list NotificationLog * option error :=
  let limit := if limit <=? 0 then 50 else limit in
  match fault with
  | Some err => ([], Some (Errorf_w "listing stale notifications: " err))
  | None =>
      (map rowToLog
         (take (Z.to_nat limit) (order_by_updated_at (List.filter (is_stale olderThan) table))),
       None)
  end.

(** [UNIQUE (idempotency_key)]: no two rows carry the same non-null key. *)
Definition unique_keys (table : list supabaseRow) : Prop :=
  NoDup (omap row_IdempotencyKey table).

(** The table holds a row with this id and this idempotency key. *)
Definition has_row (id key : string) (table : list supabaseRow) : Prop :=
  exists row, In row table /\ row_ID row = id /\ row_IdempotencyKey row = Some key.

(** The table's primary key: no two rows share an id. *)
Definition unique_ids (table : list supabaseRow) : Prop := NoDup (map row_ID table).

(** *** UpdateWebhookStatus *)

Definition has_provider_id (providerID : string) (row : supabaseRow) : bool :=
  match row_ProviderID row with
  | Some p => String.eqb p providerID
  | None => false
  end.

(** The body [UpdateWebhookStatus] sends. *)
Definition webhook_update (now : Z) (status : NotificationStatus) : gmap string value :=
  let update : gmap string value :=
    <["updated_at" := VTime now]> (<["status" := VString status]> ∅) in
  if String.eqb status StatusDelivered then <["delivered_at" := VTime now]> update
  else if String.eqb status StatusBounced then <["bounced_at" := VTime now]> update
  else if String.eqb status StatusOpened then <["opened_at" := VTime now]> update
  else update.

Definition UpdateWebhookStatus (fault : option error) (now : Z) (providerID : string)
    (status : NotificationStatus) (table : list supabaseRow) : option error * list supabaseRow :=
  match fault with
  | Some err => (Some (Errorf_w "updating webhook status: " err), table)
  | None => (None, update_where (has_provider_id providerID) (webhook_update now status) table)
  end.

(** *** List *)

(** The [Eq] filters of the query: an empty text field of the filter
    adds none. *)
Definition selects (filter : ListFilter) (row : supabaseRow) : bool :=
  (String.eqb (flt_Status filter) "" || String.eqb (row_Status row) (flt_Status filter))
  && (String.eqb (flt_Recipient filter) ""
      || String.eqb (row_Recipient row) (flt_Recipient filter))
  && (String.eqb (flt_Channel filter) "" || String.eqb (row_Channel row) (flt_Channel filter)).

(** [ORDER BY created_at DESC]: the later [created_at] first, and a NULL
    before any value. Among rows with equal [created_at] Postgres returns
    whatever order its plan produces, which may differ from one query to
    the next: [tie a b] says whether this query puts [a] before [b]. *)
Definition created_after (tie : supabaseRow -> supabaseRow -> bool) (a b : supabaseRow) : bool :=
  match row_CreatedAt a, row_CreatedAt b with
  | Some x, Some y => (y <? x) || ((y =? x) && tie a b)
  | None, Some _ => true
  | Some _, None => false
  | None, None => tie a b
  end.

Fixpoint insert_desc (tie : supabaseRow -> supabaseRow -> bool) (row : supabaseRow)
    (rows : list supabaseRow) : list supabaseRow :=
  match rows with
  | [] => [row]
  | r :: rest =>
      if created_after tie row r then row :: rows else r :: insert_desc tie row rest
  end.

Definition order_by_created_at_desc (tie : supabaseRow -> supabaseRow -> bool)
    (rows : list supabaseRow) : list supabaseRow :=
  fold_right (insert_desc tie) [] rows.

(** [a] is not older than [b]: the order without regard to ties. *)
Definition not_older (a b : supabaseRow) : bool := created_after (fun _ _ => true) a b.

(** [List]. [Range(offset, offset+PageSize-1)] becomes [offset] and
    [limit = to - from + 1] in the request; the arithmetic is on [int].
    With [count=exact] PostgREST refuses a range that starts beyond the
    count, and Postgres refuses a negative offset. The count is that of
    the rows the filters select, whatever the range. [tie] is the order
    this query gives to rows created at the same instant. *)
Definition List (fault : option error) (tie : supabaseRow -> supabaseRow -> bool)
    (filter : ListFilter) (table : list supabaseRow)
    : list NotificationLog * Z * option error :=
  let page := if flt_Page filter <? 1 then 1 else flt_Page filter in
  let pageSize := if (flt_PageSize filter <? 1) || (100 <? flt_PageSize filter)
                  then 20 else flt_PageSize filter in
  let offset := go.mul_int64 (go.sub_int64 page 1) pageSize in
  let to := go.sub_int64 (go.int64 (offset + pageSize)) 1 in
  let limit := go.int64 (go.sub_int64 to offset + 1) in
  match fault with
  | Some err => ([], 0, Some (Errorf_w "listing notification logs: " err))
  | None =>
      let rows := List.filter (selects filter) table in
      let count := Z.of_nat (length rows) in
      if (offset <? 0) || (count <? offset)
      then ([], 0, Some (Errorf_w "listing notification logs: "
                           (errorString "Requested range not satisfiable")))
      else (map rowToLog
              (take (Z.to_nat limit)
                 (drop (Z.to_nat offset) (order_by_created_at_desc tie rows))),
            count, None)
  end.

End store.

(** ** The two processes wired to their collaborators (cmd/server, cmd/worker) *)

Module system.
Import common notification.

(** What the composition roots fix: the limiter, the retry budget of the
    enqueuer adapter, and the template engine, taken as a function. *)
Record Config := {
  limiter : ratelimit.RedisRecipientLimiter;
  maxRetry : Z;
  render : NotificationType -> TemplateData -> string * string * string * option error
}.

(** The shared state, and what the environment will do next: the error
    of each coming store and queue round trip ([None] when it succeeds),
    the UUIDs the database will draw, the random bytes and pipeline
    errors of the coming limiter calls, the answers of the provider. An
    exhausted list means no fault. *)
Record World := {
  table : list store.supabaseRow;
  buckets : gmap string redis.entry;
  tasks : list asynq.Task;
  logged : list (Level * string * list (string * any));
  clock : Z;
  store_faults : list (option error);
  uuids : list string;
  queue_faults : list (option error);
  limiter_draws : list (list Byte.byte * option error * option error);
  sends : list (string * option error)
}.

Definition set_table (x : list store.supabaseRow) (w : World) : World :=
  {| table := x; buckets := buckets w; tasks := tasks w; logged := logged w;
     clock := clock w; store_faults := store_faults w; uuids := uuids w;
     queue_faults := queue_faults w; limiter_draws := limiter_draws w; sends := sends w |}.
Definition set_buckets (x : gmap string redis.entry) (w : World) : World :=
  {| table := table w; buckets := x; tasks := tasks w; logged := logged w;
     clock := clock w; store_faults := store_faults w; uuids := uuids w;
     queue_faults := queue_faults w; limiter_draws := limiter_draws w; sends := sends w |}.
Definition set_tasks (x : list asynq.Task) (w : World) : World :=
  {| table := table w; buckets := buckets w; tasks := x; logged := logged w;
     clock := clock w; store_faults := store_faults w; uuids := uuids w;
     queue_faults := queue_faults w; limiter_draws := limiter_draws w; sends := sends w |}.
Definition set_logged (x : list (Level * string * list (string * any))) (w : World) : World :=
  {| table := table w; buckets := buckets w; tasks := tasks w; logged := x;
     clock := clock w; store_faults := store_faults w; uuids := uuids w;
     queue_faults := queue_faults w; limiter_draws := limiter_draws w; sends := sends w |}.
Definition set_clock (x : Z) (w : World) : World :=
  {| table := table w; buckets := buckets w; tasks := tasks w; logged := logged w;
     clock := x; store_faults := store_faults w; uuids := uuids w;
     queue_faults := queue_faults w; limiter_draws := limiter_draws w; sends := sends w |}.
Definition set_store_faults (x : list (option error)) (w : World) : World :=
  {| table := table w; buckets := buckets w; tasks := tasks w; logged := logged w;
     clock := clock w; store_faults := x; uuids := uuids w;
     queue_faults := queue_faults w; limiter_draws := limiter_draws w; sends := sends w |}.
Definition set_uuids (x : list string) (w : World) : World :=
  {| table := table w; buckets := buckets w; tasks := tasks w; logged := logged w;
     clock := clock w; store_faults := store_faults w; uuids := x;
     queue_faults := queue_faults w; limiter_draws := limiter_draws w; sends := sends w |}.
Definition set_queue_faults (x : list (option error)) (w : World) : World :=
  {| table := table w; buckets := buckets w; tasks := tasks w; logged := logged w;
     clock := clock w; store_faults := store_faults w; uuids := uuids w;
     queue_faults := x; limiter_draws := limiter_draws w; sends := sends w |}.
Definition set_limiter_draws (x : list (list Byte.byte * option error * option error))
    (w : World) : World :=
  {| table := table w; buckets := buckets w; tasks := tasks w; logged := logged w;
     clock := clock w; store_faults := store_faults w; uuids := uuids w;
     queue_faults := queue_faults w; limiter_draws := x; sends := sends w |}.
Definition set_sends (x : list (string * option error)) (w : World) : World :=
  {| table := table w; buckets := buckets w; tasks := tasks w; logged := logged w;
     clock := clock w; store_faults := store_faults w; uuids := uuids w;
     queue_faults := queue_faults w; limiter_draws := limiter_draws w; sends := x |}.

(** The next fault of a list. *)
Definition next_fault (l : list (option error)) : option error :=
  match l with f :: _ => f | [] => None end.

(** The store port is the [SupabaseStore], the enqueuer the asynq client,
    the limiter the [RedisRecipientLimiter]; the renderer is [render] and
    the provider answers from [sends]. *)
Definition run_op (cfg : Config) : handler World :=
  fun R op =>
    match op in Op R return World -> R * World with
    | Store_Create log => fun w =>
        let fault := next_fault (store_faults w) in
        let '(res, table') :=
          store.Create fault (hd "" (uuids w)) (clock w) log (table w) in
        (res, set_table table'
                (set_uuids (match fault with None => tl (uuids w) | Some _ => uuids w end)
                   (set_store_faults (tl (store_faults w)) w)))
    | Store_GetByID id => fun w =>
        (store.GetByID (next_fault (store_faults w)) id (table w),
         set_store_faults (tl (store_faults w)) w)
    | Store_GetByIdempotencyKey key => fun w =>
        (store.GetByIdempotencyKey (next_fault (store_faults w)) key (table w),
         set_store_faults (tl (store_faults w)) w)
    | Store_UpdateStatus id status providerID errMsg => fun w =>
        let '(res, table') :=
          store.UpdateStatus (next_fault (store_faults w)) (clock w) id status providerID errMsg
            (table w) in
        (res, set_table table' (set_store_faults (tl (store_faults w)) w))
    | Store_ListStale olderThan limit => fun w =>
        (store.ListStale (next_fault (store_faults w)) olderThan limit (table w),
         set_store_faults (tl (store_faults w)) w)
    | Enqueuer_EnqueueSendNotification logID => fun w =>
        let '(res, tasks') :=
          queue.EnqueueSendNotification (next_fault (queue_faults w)) logID (maxRetry cfg)
            (tasks w) in
        (res, set_tasks tasks' (set_queue_faults (tl (queue_faults w)) w))
    | RateLimiter_Allow recipient => fun w =>
        let '(bytes, e1, e2) := hd ([], None, None) (limiter_draws w) in
        let env := {| ratelimit.now := clock w; ratelimit.randBytes := bytes;
                      ratelimit.exec1_err := e1; ratelimit.exec2_err := e2 |} in
        let '(res, buckets') := ratelimit.Allow (limiter cfg) env recipient (buckets w) in
        (res, set_buckets buckets' (set_limiter_draws (tl (limiter_draws w)) w))
    | Renderer_Render notifType data => fun w => (render cfg notifType data, w)
    | Provider_Send channel msg => fun w =>
        (hd ("", None) (sends w), set_sends (tl (sends w)) w)
    | time_Now => fun w => (clock w, w)
    | slog level msg args => fun w => (tt, set_logged (logged w ++ [(level, msg, args)]) w)
    end.

(** *** What the events of an execution did to the table and the queue *)

Definition is_create (ev : Event) : bool :=
  match ev with EvCreate _ _ => true | _ => false end.

(** A status update the store accepted at time [now]. *)
Definition table_after (now : Z) (ev : Event) (table : list store.supabaseRow)
    : list store.supabaseRow :=
  match ev with
  | EvUpdateStatus id status providerID errMsg None =>
      store.update_where (store.has_id id) (store.status_update now status providerID errMsg) table
  | _ => table
  end.

Definition send_task (cfg : Config) (logID : string) : asynq.Task :=
  {| asynq.Typename := TaskTypeSendNotification;
     asynq.Payload := marshal_payload {| LogID := logID |};
     asynq.MaxRetry := maxRetry cfg;
     asynq.Queue := "notifications" |}.

(** A task the queue accepted. *)
Definition tasks_after (cfg : Config) (ev : Event) (tasks : list asynq.Task)
    : list asynq.Task :=
  match ev with
  | EvEnqueue logID None => tasks ++ [send_task cfg logID]
  | _ => tasks
  end.

Definition replay_table (now : Z) (evs : list Event) (table : list store.supabaseRow)
    : list store.supabaseRow :=
  fold_left (fun t ev => table_after now ev t) evs table.

Definition replay_tasks (cfg : Config) (evs : list Event) (tasks : list asynq.Task)
    : list asynq.Task :=
  fold_left (fun t ev => tasks_after cfg ev t) evs tasks.

(** A row after an accepted [UpdateStatus(id, status, "", "")]. *)
Definition moved_row (now : Z) (status : NotificationStatus) (row : store.supabaseRow)
    : store.supabaseRow :=
  store.apply_update (store.status_update now status "" "") row.

(** The reset the reaper applies to a row. *)
Definition reset_row (now : Z) (row : store.supabaseRow) : store.supabaseRow :=
  moved_row now StatusQueued row.

(** Events among which the store accepted no update but moves to
    [status] that name no provider id and no error message, and in which
    nothing was created. *)
Definition accepts_only (status : NotificationStatus) (ev : Event) : bool :=
  match ev with
  | EvUpdateStatus _ status' providerID errMsg None =>
      String.eqb status' status && String.eqb providerID "" && String.eqb errMsg ""
  | EvCreate _ _ => false
  | _ => true
  end.

(** *** Two calls in flight

    A schedule lets the left call or the right call make its next call
    out, or lets time pass. *)
Inductive Move := Left | Right | Tick (d : Z).

Definition move {A B : Type} (cfg : Config) (st : Prog A * Prog B * World) (m : Move)
    : Prog A * Prog B * World :=
  let '(p1, p2, w) := st in
  match m with
  | Left => let '(p1', w') := step (run_op cfg) p1 w in (p1', p2, w')
  | Right => let '(p2', w') := step (run_op cfg) p2 w in (p1, p2', w')
  | Tick d => (p1, p2, set_clock (clock w + Z.max 0 d) w)
  end.

Definition interleave {A B : Type} (cfg : Config) (sched : list Move)
    (st : Prog A * Prog B * World) : Prog A * Prog B * World :=
  fold_left (move cfg) sched st.

(** *** Two intakes with one idempotency key, in flight together

    What each of them may rely on while the other runs: the rows carrying
    the key stay in the table. *)
Definition keeps_rows (key : string) (t t' : list store.supabaseRow) : Prop :=
  forall id, store.has_row id key t -> store.has_row id key t'.

(** The table has grown by at most one row since it had [n0] rows, and
    then it holds a row with the key. *)
Definition one_more (key : string) (n0 : nat) (t : list store.supabaseRow) : Prop :=
  length t = n0 \/ (length t = S n0 /\ exists id, store.has_row id key t).

(** The only records the call creates carry the key. *)
Definition creates_only (key : string) {R : Type} (op : Op R) : Prop :=
  match op with
  | Store_Create log => log_IdempotencyKey log = key
  | _ => True
  end.

(** A call in flight is safe when, whatever the other does to the table
    in between (keeping the rows of the key and the uniqueness of keys),
    each of its next calls creates only records with the key, and the
    response it ends with names a row that carries the key. *)
Fixpoint safe (cfg : Config) (key : string) (p : Prog Result) (w : World) : Prop :=
  match p with
  | Ret res => forall r, fst res = Some r -> store.has_row (resp_ID r) key (table w)
  | Do op k =>
      creates_only key op /\
      forall w', keeps_rows key (table w) (table w') -> store.unique_keys (table w') ->
                 safe cfg key (k (fst (run_op cfg _ op w'))) (snd (run_op cfg _ op w'))
  end.

(** What holds of two safe calls in flight, whatever the schedule. *)
Definition in_flight (cfg : Config) (key : string) (n0 : nat)
    (st : Prog Result * Prog Result * World) : Prop :=
  let '(p1, p2, w) := st in
  store.unique_keys (table w) /\ one_more key n0 (table w) /\
  safe cfg key p1 w /\ safe cfg key p2 w.

(** What a call returned, once it has. *)
Definition returned {A : Type} (p : Prog A) : option A :=
  match p with Ret a => Some a | Do _ _ => None end.

(** The same schedule and state seen from the other call. *)
Definition mirror_move (m : Move) : Move :=
  match m with Left => Right | Right => Left | Tick d => Tick d end.

Definition mirror {A B : Type} (st : Prog A * Prog B * World) : Prog B * Prog A * World :=
  let '(p1, p2, w) := st in (p2, p1, w).

(** An empty system at time [t]. *)
Definition boot (t : Z) : World :=
  {| table := []; buckets := ∅; tasks := []; logged := []; clock := t;
     store_faults := []; uuids := []; queue_faults := []; limiter_draws := [];
     sends := [] |}.

(** *** The store's remaining methods and the logger, on the world *)

Definition store_List (tie : store.supabaseRow -> store.supabaseRow -> bool)
    (filter : ListFilter) (w : World) : (list NotificationLog * Z * option error) * World :=
  (store.List (next_fault (store_faults w)) tie filter (table w),
   set_store_faults (tl (store_faults w)) w).

Definition store_UpdateWebhookStatus (providerID : string) (status : NotificationStatus)
    (w : World) : option error * World :=
  let '(res, table') :=
    store.UpdateWebhookStatus (next_fault (store_faults w)) (clock w) providerID status
      (table w) in
  (res, set_table table' (set_store_faults (tl (store_faults w)) w)).

Definition slog_ (level : Level) (msg : string) (args : list (string * any)) (w : World)
    : World :=
  set_logged (logged w ++ [(level, msg, args)]) w.

(** What a response of the intake names: a row of the table with the
    response's id that reads as the response says, in a table whose ids
    are unique. *)
Definition names_row (r : SendResponse) (t : list store.supabaseRow) : Prop :=
  store.unique_ids t /\
  exists row, In row t /\ store.row_ID row = resp_ID r /\
    log_IdempotencyKey (store.rowToLog row) = resp_IdempotencyKey r /\
    log_Channel (store.rowToLog row) = resp_Channel r /\
    log_Status (store.rowToLog row) = resp_Status r.

End system.

(** ** Go's text functions, as the template engine uses them *)

Module text.

(** Go strings are byte strings; the functions below work on the bytes.
    The patterns of the two regular expressions and the entity names are
    ASCII, and no byte of a multi-byte UTF-8 sequence is an ASCII byte,
    so matching on bytes is matching on runes. *)

Definition byte (c : ascii) : N := N_of_ascii c.

(** [strings.ReplaceAll(s, old, new)] for a non-empty [old]: the
    matches are taken from the left and do not overlap. [skip] counts
    the bytes of the current match still to be dropped. *)
Fixpoint replace_from (skip : nat) (old new s : string) : string :=
  match s with
  | EmptyString => EmptyString
  | String c rest =>
      match skip with
      | S k => replace_from k old new rest
      | O =>
          if String.prefix old s
          then new +:+ replace_from (String.length old - 1) old new rest
          else String c (replace_from 0 old new rest)
      end
  end.

Definition ReplaceAll (s old new : string) : string := replace_from 0 old new s.

(** Whether the byte [>] occurs in [s]. *)
Fixpoint has_gt (s : string) : bool :=
  match s with
  | EmptyString => false
  | String c rest => Ascii.eqb c ">" || has_gt rest
  end.

(** [regexp.MustCompile(`<[^>]*>`).ReplaceAllString(s, "")]: a match
    starts at a [<] that has a [>] somewhere after it and runs to the
    first such [>]; [in_tag] tells that a match is being dropped. *)
Fixpoint strip_tags (in_tag : bool) (s : string) : string :=
  match s with
  | EmptyString => EmptyString
  | String c rest =>
      if in_tag
      then if Ascii.eqb c ">" then strip_tags false rest else strip_tags true rest
      else if Ascii.eqb c "<" && has_gt rest then strip_tags true rest
      else String c (strip_tags false rest)
  end.

(** The class [\s] of Go's regexp: tab, newline, form feed, carriage
    return and space. *)
Definition re_space (c : ascii) : bool :=
  let n := byte c in
  ((n =? 9) || (n =? 10) || (n =? 12) || (n =? 13) || (n =? 32))%N.

(** [regexp.MustCompile(`\s+`).ReplaceAllString(s, " ")]; [in_run]
    tells that the space of the current run is already written. *)
Fixpoint collapse_spaces (in_run : bool) (s : string) : string :=
  match s with
  | EmptyString => EmptyString
  | String c rest =>
      if re_space c
      then if in_run then collapse_spaces true rest
           else String " " (collapse_spaces true rest)
      else String c (collapse_spaces false rest)
  end.

(** The ASCII white space of [unicode.IsSpace]: the class above and the
    vertical tab. *)
Definition asciiSpace (c : ascii) : bool :=
  let n := byte c in ((9 <=? n) && (n <=? 13) || (n =? 32))%N.

(** The UTF-8 encodings of the other white space: U+0085 and U+00A0 in
    two bytes; U+1680, U+2000 to U+200A, U+2028, U+2029, U+202F, U+205F
    and U+3000 in three. A byte sequence decodes to one of them exactly
    when it is one of these encodings. *)
Definition space2 (c1 c2 : ascii) : bool :=
  ((byte c1 =? 194) && ((byte c2 =? 133) || (byte c2 =? 160)))%N.

Definition space3 (c1 c2 c3 : ascii) : bool :=
  let '(a, b, c) := (byte c1, byte c2, byte c3) in
  ((a =? 225) && (b =? 154) && (c =? 128)
   || (a =? 226) && (b =? 128)
      && ((128 <=? c) && (c <=? 138) || (c =? 168) || (c =? 169) || (c =? 175))
   || (a =? 226) && (b =? 129) && (c =? 159)
   || (a =? 227) && (b =? 128) && (c =? 128))%N.

(** [strings.TrimLeftFunc(s, unicode.IsSpace)]. *)
Fixpoint TrimLeft_space (s : string) : string :=
  match s with
  | EmptyString => EmptyString
  | String c1 r1 =>
      if asciiSpace c1 then TrimLeft_space r1
      else
        match r1 with
        | String c2 r2 =>
            if space2 c1 c2 then TrimLeft_space r2
            else
              match r2 with
              | String c3 r3 => if space3 c1 c2 c3 then TrimLeft_space r3 else s
              | EmptyString => s
              end
        | EmptyString => s
        end
  end.

(** The same from the right, on the reversed bytes: [DecodeLastRune]
    finds a white space exactly when the string ends with one of the
    encodings. *)
Fixpoint trim_reversed (s : list ascii) : list ascii :=
  match s with
  | [] => []
  | c1 :: r1 =>
      if asciiSpace c1 then trim_reversed r1
      else
        match r1 with
        | c2 :: r2 =>
            if space2 c2 c1 then trim_reversed r2
            else
              match r2 with
              | c3 :: r3 => if space3 c3 c2 c1 then trim_reversed r3 else s
              | [] => s
              end
        | [] => s
        end
  end.

Definition TrimRight_space (s : string) : string :=
  string_of_list_ascii (rev (trim_reversed (rev (list_ascii_of_string s)))).

(** [strings.TrimSpace]. *)
Definition TrimSpace (s : string) : string := TrimRight_space (TrimLeft_space s).

(** Every byte of the class [\s] is a space, and none is followed by
    another. *)
Fixpoint single_spaced (l : list ascii) : bool :=
  match l with
  | [] => true
  | c :: rest =>
      (negb (re_space c)
       || Ascii.eqb c " " && match rest with c2 :: _ => negb (re_space c2) | [] => true end)
      && single_spaced rest
  end.

End text.

(** ** Package template (infra/template/engine.go) *)

Module template.
Import common notification.

Record templateMeta := { Subject : string; TemplateName : string }.

(** [registry]. *)
Definition registry : gmap string templateMeta :=
  list_to_map
    [(TypeConfirmSignup,
      {| Subject := "Confirm Your Email Address"; TemplateName := "confirm_signup" |});
     (TypeInviteUser, {| Subject := "You've Been Invited"; TemplateName := "invite_user" |});
     (TypeMagicLink, {| Subject := "Your Sign-In Link"; TemplateName := "magic_link" |});
     (TypeChangeEmail,
      {| Subject := "Confirm Your New Email Address"; TemplateName := "change_email" |});
     (TypeResetPassword,
      {| Subject := "Reset Your Password"; TemplateName := "reset_password" |});
     (TypeReauthentication,
      {| Subject := "Confirm Your Identity"; TemplateName := "reauthentication" |});
     (TypePasswordChanged,
      {| Subject := "Your Password Has Been Changed"; TemplateName := "password_changed" |});
     (TypeEmailChanged,
      {| Subject := "Your Email Address Has Been Changed"; TemplateName := "email_changed" |});
     (TypePhoneChanged,
      {| Subject := "Your Phone Number Has Been Changed"; TemplateName := "phone_changed" |});
     (TypeIdentityLinked,
      {| Subject := "A New Identity Has Been Linked"; TemplateName := "identity_linked" |});
     (TypeIdentityUnlinked,
      {| Subject := "An Identity Has Been Unlinked"; TemplateName := "identity_unlinked" |})].

(** A value of the [map[string]any] the renderer is given: a string, or
    any other value, kept as its JSON text. *)
Inductive anyval := VStr (s : string) | VOther (json : string).

(** The data map, nil when [None]. *)
Definition Data := option (gmap string anyval).

(** [data["Subject"].(string)]: the string and [true], or the empty
    string and [false] for a missing key, a nil map or another type. *)
Definition subject_of (data : Data) : string * bool :=
  match data with
  | Some m => match m !! "Subject" with
              | Some (VStr s) => (s, true)
              | _ => ("", false)
              end
  | None => ("", false)
  end.

(** [stripHTML]. *)
Definition stripHTML (s : string) : string :=
  let text := text.strip_tags false s in
  let text := text.ReplaceAll text "&amp;" "&" in
  let text := text.ReplaceAll text "&lt;" "<" in
  let text := text.ReplaceAll text "&gt;" ">" in
  let text := text.ReplaceAll text "&quot;" dquote in
  let text := text.ReplaceAll text "&#39;" "'" in
  let text := text.ReplaceAll text "&nbsp;" " " in
  let text := text.collapse_spaces false text in
  text.TrimSpace text.

Section Engine.

(** [e.templates.ExecuteTemplate(&buf, name, data)]: the output, or the
    error of [html/template]. *)
Variable ExecuteTemplate : string -> Data -> string + error.

(** [Engine.Render]. *)
Definition Render (notifType : NotificationType) (data : Data)
    : string * string * string * option error :=
  match registry !! notifType with
  | None => ("", "", "", Some (Errorf_s "no template registered for type: " notifType))
  | Some meta =>
      let subject :=
        let '(customSubject, ok) := subject_of data in
        if ok && negb (String.eqb customSubject "") then customSubject else Subject meta in
      match ExecuteTemplate (TemplateName meta +:+ ".html") data with
      | inr err =>
          ("", "", "",
           Some (Errorf_w ("executing template " +:+ TemplateName meta +:+ ": ") err))
      | inl html => (subject, html, stripHTML html, None)
      end
  end.

End Engine.

End template.

(** ** Package middleware: the API key check *)

Module middleware.
Import common.

(** The bytes of a string, as numbers. *)
Definition bytes (s : string) : list Z :=
  map (fun c => Z.of_N (N_of_ascii c)) (list_ascii_of_string s).

(** [subtle.ConstantTimeByteEq(x, y uint8) int]:
    [int((uint32(x^y) - 1) >> 31)]. *)
Definition ConstantTimeByteEq (x y : Z) : Z :=
  Z.shiftr ((Z.lxor x y - 1) mod 2 ^ 32) 31.

(** The loop of [ConstantTimeCompare]: [v |= x[i] ^ y[i]]. *)
Fixpoint or_xor (v : Z) (x y : list Z) : Z :=
  match x, y with
  | a :: x', b :: y' => or_xor (Z.lor v (Z.lxor a b)) x' y'
  | _, _ => v
  end.

(** [subtle.ConstantTimeCompare(x, y []byte) int]. *)
Definition ConstantTimeCompare (x y : list Z) : Z :=
  if negb (Nat.eqb (length x) (length y)) then 0
  else ConstantTimeByteEq (or_xor 0 x y) 0.

(** [isValidKey]. *)
Fixpoint isValidKey (key : string) (validKeys : list string) : bool :=
  match validKeys with
  | [] => false
  | valid :: rest =>
      if ConstantTimeCompare (bytes key) (bytes valid) =? 1 then true
      else isValidKey key rest
  end.

(** What a middleware does to a request: it aborts with a response, or
    lets the next handler run. *)
Inductive Flow (D : Type) := Abort (written : Written D) | Next.
Arguments Abort {D} written.
Arguments Next {D}.

(** [Auth(validKeys)], on the value of the [X-API-Key] header (empty
    when the header is missing). *)
Definition Auth {D : Type} (validKeys : list string) (apiKey : string) : Flow D :=
  if String.eqb apiKey "" then Abort (Error_resp StatusUnauthorized "missing X-API-Key header")
  else if negb (isValidKey apiKey validKeys)
  then Abort (Error_resp StatusUnauthorized "invalid API key")
  else Next.

End middleware.

(** ** Sample data for the executable checks *)

Module sample.
Import common notification system.

Definition T0 : Z := 1790000000000000000.

Definition cfg : Config :=
  {| limiter := ratelimit.NewRedisRecipientLimiter 3;
     maxRetry := 5;
     render := fun _ _ => ("Confirm Your Email Address", "<p>Welcome</p>", "Welcome", None) |}.

Definition svc : Service := {| rateLimiter := true |}.
Definition wk : Worker := {| providers := [ChannelEmail] |}.

Definition signup : SendRequest :=
  {| req_Channel := ChannelEmail; req_Type := TypeConfirmSignup; req_To := "a@b.com";
     req_Data := None; req_IdempotencyKey := "k1" |}.

(** The same kind of request with a data object that has no entries. *)
Definition no_data : SendRequest :=
  {| req_Channel := ChannelEmail; req_Type := TypeConfirmSignup; req_To := "a@b.com";
     req_Data := Some ∅; req_IdempotencyKey := "k2" |}.

(** A fresh system whose database will draw these ids. *)
Definition fresh : World := set_uuids ["id-1"; "id-2"] (boot T0).

(** The system after the first intake of [signup]. *)
Definition accepted : World := snd (fst (exec (run_op cfg) (Enqueue svc signup) fresh)).

(** The record that intake created, as the store returns it. *)
Definition record1 : NotificationLog :=
  {| log_ID := "id-1"; log_IdempotencyKey := "k1"; log_Channel := "email";
     log_Type := "confirm_signup"; log_Recipient := "a@b.com"; log_TemplateData := None;
     log_ProviderID := ""; log_Status := "queued"; log_ErrorMessage := "";
     log_CreatedAt := Some T0; log_UpdatedAt := Some T0; log_SentAt := None;
     log_DeliveredAt := None; log_OpenedAt := None; log_BouncedAt := None |}.

Definition refused : error := errorString "dial tcp 127.0.0.1:6379: connect: connection refused".

(** A fresh system whose Redis refuses the limiter's first pipeline. *)
Definition redis_down : World := set_limiter_draws [([], Some refused, None)] fresh.

(** The accepted record about to be delivered by a provider that answers
    with the id [re_123], while the store fails the third round trip of
    the worker, the update to [sent]. *)
Definition store_blip : World :=
  set_store_faults [None; None; Some (errorString "unexpected EOF")]
    (set_sends [("re_123", None)] accepted).

(** A record left in [processing] by a worker that died after an
    earlier failed attempt, twenty minutes before the reaper wakes up. *)
Definition stuck_row : store.supabaseRow :=
  {| store.row_ID := "id-9"; store.row_IdempotencyKey := None;
     store.row_Channel := "email"; store.row_Type := "confirm_signup";
     store.row_Recipient := "a@b.com"; store.row_TemplateData := None;
     store.row_ProviderID := Some "re_old";
     store.row_Status := "processing";
     store.row_ErrorMessage := Some "provider error: resend: rate limited";
     store.row_CreatedAt := Some (T0 - 30 * go.Minute);
     store.row_UpdatedAt := Some (T0 - 20 * go.Minute);
     store.row_SentAt := None; store.row_DeliveredAt := None;
     store.row_OpenedAt := None; store.row_BouncedAt := None |}.

Definition stuck : World := set_table [stuck_row] (boot T0).

Definition reaper : Reaper :=
  NewReaper {| Interval := 5 * go.Minute; StaleThreshold := 10 * go.Minute; BatchSize := 50 |}.

(** Three records created a minute apart; the second went out through
    the provider as [re_123]. *)
Definition listed (n : Z) (id recipient status : string) (providerID : option string)
    : store.supabaseRow :=
  {| store.row_ID := id; store.row_IdempotencyKey := None;
     store.row_Channel := "email"; store.row_Type := "magic_link";
     store.row_Recipient := recipient; store.row_TemplateData := None;
     store.row_ProviderID := providerID; store.row_Status := status;
     store.row_ErrorMessage := None;
     store.row_CreatedAt := Some (T0 + n * go.Minute);
     store.row_UpdatedAt := Some (T0 + n * go.Minute);
     store.row_SentAt := None; store.row_DeliveredAt := None;
     store.row_OpenedAt := None; store.row_BouncedAt := None |}.

Definition inbox : list store.supabaseRow :=
  [listed 0 "id-1" "a@b.com" "queued" None;
   listed 1 "id-2" "a@b.com" "sent" (Some "re_123");
   listed 2 "id-3" "c@d.com" "processing" None].

(** The system an hour later, holding these records. *)
Definition with_inbox : World := set_table inbox (boot (T0 + go.Hour)).

(** Two ways the database may order rows created at the same instant. *)
Definition as_stored (a b : store.supabaseRow) : bool := false.
Definition latest_write_first (a b : store.supabaseRow) : bool := true.

(** Pages of two. *)
Definition page (n : Z) : ListFilter :=
  {| flt_Page := n; flt_PageSize := 2; flt_Status := ""; flt_Recipient := "";
     flt_Channel := "" |}.

(** The webhook of Resend telling that [re_123] was delivered. *)
Definition delivered : ResendEvent := {| ev_Type := "email.delivered"; ev_EmailID := "re_123" |}.

(** A call of the limiter at time [t] against a healthy Redis. *)
Definition call_at (t : Z) : ratelimit.AllowEnv :=
  {| ratelimit.now := t; ratelimit.randBytes := [Byte.x01; Byte.x02; Byte.x03; Byte.x04];
     ratelimit.exec1_err := None; ratelimit.exec2_err := None |}.

(** A request for a type the service does not know. *)
Definition newsletter : SendRequest :=
  {| req_Channel := ChannelEmail; req_Type := "newsletter"; req_To := "a@b.com";
     req_Data := None; req_IdempotencyKey := "" |}.

(** The accepted record about to be delivered by a provider that refuses
    it. *)
Definition provider_down : World :=
  set_sends [("", Some (errorString "resend: rate limited"))] accepted.

(** The accepted record about to be delivered by a provider that takes
    it. *)
Definition provider_up : World := set_sends [("re_123", None)] accepted.

(** A store whose next round trip fails with an error that says not to
    retry. *)
Definition store_says_skip : World := set_store_faults [Some asynq.SkipRetry] accepted.

End sample.

(** * Properties *)

(** ** The HTTP error handler *)

Section HandleError_props.
Import common.

(** A chain ends at the first error that is not a [fmt] wrapper, so one
    that holds a [ProviderError] holds none of the three kinds tried
    before it. *)
Lemma chain_provider_only (e : error) (Provider Message : string) :
  In (ProviderError Provider Message) (chain e) ->
  As_chain isNotFoundError e = None /\
  As_chain isValidationError e = None /\
  As_chain isUnauthorizedError e = None /\
  As_chain isProviderError e = Some (ProviderError Provider Message).
Proof.
  induction e as [r i|m|m|p m|s|n|msg e IH]; simpl; intros [H|H];
    try discriminate H; try contradiction.
  - inversion H; subst. repeat split; reflexivity.
  - apply IH in H. exact H.
Qed.

(** C7. Given an error whose chain holds a [ProviderError], however deep
    under [%w] wrappers, [HandleError] answers 502 with the fixed message
    "notification delivery failed": the body does not depend on the
    provider's name or message. *)
Theorem HandleError_provider_masked (D : Type) (e : error) (Provider Message : string) :
  In (ProviderError Provider Message) (chain e) ->
  @HandleError D (Some e) =
    (502, {| Success := false; Data := None;
             Error_ := Some {| Code := 502;
                               Message := "notification delivery failed" |} |}).
Proof.
  intros H. apply chain_provider_only in H as (H1 & H2 & H3 & H4).
  unfold HandleError. simpl. rewrite H1, H2, H3, H4. reflexivity.
Qed.

Lemma HandleError_provider_masked_witness :
  let e := Errorf_w "sending: " (Errorf_w "attempt 2: "
             (NewProviderError "email" "resend: API key sk_live_123 rejected")) in
  In (ProviderError "email" "resend: API key sk_live_123 rejected") (chain e) /\
  @HandleError unit (Some e) =
    (502, {| Success := false; Data := None;
             Error_ := Some {| Code := 502;
                               Message := "notification delivery failed" |} |}).
Proof.
  split.
  - simpl. right. right. left. reflexivity.
  - apply (HandleError_provider_masked unit _ "email" "resend: API key sk_live_123 rejected").
    simpl. right. right. left. reflexivity.
Defined.

End HandleError_props.

(** ** The retry delay of the queue server *)

Section RetryDelay_props.

Lemma int64_small (z : Z) : - 2 ^ 63 <= z < 2 ^ 63 -> go.int64 z = z.
Proof.
  intros H. unfold go.int64.
  rewrite Z.mod_small by lia. lia.
Qed.

Lemma int64_range (z : Z) : - 2 ^ 63 <= go.int64 z < 2 ^ 63.
Proof.
  unfold go.int64. pose proof (Z.mod_pos_bound (z + 2 ^ 63) (2 ^ 64) ltac:(lia)). lia.
Qed.

(** As a function of its argument the delay is the doubling sequence of
    the source comment: 30 * 2^(n-1) seconds for an argument from 1 to
    29 (in nanoseconds, the unit of [time.Duration]). *)
Lemma RetryDelayFunc_exponential (n : Z) :
  1 <= n <= 29 ->
  queue.RetryDelayFunc n = 30 * 2 ^ (n - 1) * go.Second.
Proof.
  intros Hn. unfold queue.RetryDelayFunc, go.mul_int64, go.sub_int64, go.shl_int64, go.uint64.
  rewrite (int64_small (n - 1)) by lia.
  rewrite (Z.mod_small (n - 1)) by lia.
  destruct (64 <=? n - 1) eqn:E; [apply Z.leb_le in E; lia|].
  rewrite Z.shiftl_mul_pow2 by lia. rewrite Z.mul_1_l.
  assert (Hp : 1 <= 2 ^ (n - 1) <= 2 ^ 28).
  { split.
    - apply (Z.pow_le_mono_r 2 0 (n - 1)); lia.
    - apply Z.pow_le_mono_r; lia. }
  assert (H28 : 2 ^ 28 = 268435456) by reflexivity.
  rewrite (int64_small (2 ^ (n - 1))) by lia.
  rewrite (int64_small (30 * 2 ^ (n - 1))) by lia.
  unfold go.Second. rewrite int64_small by lia. reflexivity.
Qed.

(** The first five values are the 30 s, 60 s, 120 s, 240 s, 480 s of the
    source comment. *)
Example RetryDelayFunc_first_five :
  map queue.RetryDelayFunc [1; 2; 3; 4; 5] =
  map (fun s => s * go.Second) [30; 60; 120; 240; 480].
Proof. reflexivity. Qed.

(** An argument of 0 or less, or of 65 or more, shifts every bit out:
    [uint(n-1)] is then at least 64 and the delay is zero. *)
Lemma RetryDelayFunc_shifted_out (n : Z) :
  - 2 ^ 63 < n < 2 ^ 63 -> n <= 0 \/ 65 <= n -> queue.RetryDelayFunc n = 0.
Proof.
  intros Hr Hn. unfold queue.RetryDelayFunc, go.sub_int64, go.shl_int64, go.uint64.
  rewrite (int64_small (n - 1)) by lia.
  assert (H64 : 64 <= (n - 1) mod 2 ^ 64).
  { destruct Hn as [Hn|Hn].
    - replace (n - 1) with ((n - 1 + 2 ^ 64) + (- 1) * 2 ^ 64) by lia.
      rewrite Z.mod_add by lia. rewrite Z.mod_small by lia. lia.
    - rewrite Z.mod_small by lia. lia. }
  apply Z.leb_le in H64. rewrite H64. reflexivity.
Qed.

(** The result is an [int64], so from an argument of 30 on, where
    30 * 2^(n-1) seconds is more nanoseconds than an [int64] holds, it is
    not that value. *)
Lemma RetryDelayFunc_overflow (n : Z) :
  30 <= n -> queue.RetryDelayFunc n <> 30 * 2 ^ (n - 1) * go.Second.
Proof.
  intros Hn. unfold queue.RetryDelayFunc at 1, go.mul_int64 at 1.
  pose proof (int64_range (go.mul_int64 30
    (go.shl_int64 1 (go.uint64 (go.sub_int64 n 1))) * go.Second)) as Hr.
  assert (Hp : 2 ^ 29 <= 2 ^ (n - 1)) by (apply Z.pow_le_mono_r; lia).
  assert (H29 : 2 ^ 29 = 536870912) by reflexivity.
  unfold go.Second in *. lia.
Qed.

(** At 30 the result is negative. *)
Example RetryDelayFunc_overflow_at_30 :
  queue.RetryDelayFunc 30 = -2340616713709551616.
Proof. reflexivity. Qed.

(** C8 on the code. The server calls the delay function with the number
    of retries already made, so the wait before the n-th retry of a task
    (n from 1 up to the retry budget, the error not one that stops the
    retries) is [RetryDelayFunc (n - 1)]: never the 30 * 2^(n-1) seconds
    of the claim and of the source comment. The first retry is scheduled
    with no delay at all, and the retries 2 to 30 wait 30 * 2^(n-2)
    seconds, one doubling behind. *)
Theorem RetryDelayFunc_nth_retry (n maxRetry : Z) (err : common.error) :
  1 <= n <= maxRetry ->
  asynq.non_retryable err = false ->
  asynq.handle_result queue.RetryDelayFunc (n - 1) maxRetry (Some err)
    = asynq.Retried (queue.RetryDelayFunc (n - 1)) /\
  queue.RetryDelayFunc (n - 1) <> 30 * 2 ^ (n - 1) * go.Second /\
  (n = 1 -> queue.RetryDelayFunc (n - 1) = 0) /\
  (2 <= n <= 30 -> queue.RetryDelayFunc (n - 1) = 30 * 2 ^ (n - 2) * go.Second).
Proof.
  intros Hn Herr. split; [|split; [|split]].
  - unfold asynq.handle_result. unfold asynq.non_retryable in Herr. rewrite Herr.
    destruct (Z.leb_spec maxRetry (n - 1)); [lia|reflexivity].
  - destruct (Z.le_gt_cases n 1) as [H1|H1].
    + replace n with 1 by lia. vm_compute. discriminate.
    + destruct (Z.le_gt_cases n 30) as [H30|H30].
      * rewrite RetryDelayFunc_exponential by lia.
        replace (n - 1) with (Z.succ (n - 1 - 1)) at 2 by lia.
        rewrite Z.pow_succ_r by lia.
        assert (Hp : 0 < 2 ^ (n - 1 - 1)) by (apply Z.pow_pos_nonneg; lia).
        unfold go.Second. lia.
      * unfold queue.RetryDelayFunc at 1, go.mul_int64 at 1.
        pose proof (int64_range (go.mul_int64 30
          (go.shl_int64 1 (go.uint64 (go.sub_int64 (n - 1) 1))) * go.Second)) as Hr.
        assert (Hp : 2 ^ 30 <= 2 ^ (n - 1)) by (apply Z.pow_le_mono_r; lia).
        assert (H30' : 2 ^ 30 = 1073741824) by reflexivity.
        unfold go.Second in *. lia.
  - intros ->. reflexivity.
  - intros H. rewrite RetryDelayFunc_exponential by lia.
    replace (n - 1 - 1) with (n - 2) by lia. reflexivity.
Qed.

(** The first failure of a task with the default budget of five retries:
    the retry is scheduled at once, not after 30 s. *)
Lemma RetryDelayFunc_nth_retry_witness :
  let err := common.errorString "resend: service unavailable" in
  (1 <= 1 <= 5 /\ asynq.non_retryable err = false) /\
  asynq.handle_result queue.RetryDelayFunc 0 5 (Some err) = asynq.Retried 0 /\
  queue.RetryDelayFunc 0 <> 30 * go.Second.
Proof.
  intros err.
  assert (H1 : 1 <= 1 <= 5) by lia.
  assert (H2 : asynq.non_retryable err = false) by reflexivity.
  split; [split; [exact H1|exact H2]|].
  destruct (RetryDelayFunc_nth_retry 1 5 err H1 H2) as (Hd & Hne & _ & _).
  split; [exact Hd|exact Hne].
Defined.

End RetryDelay_props.

(** ** The sliding-window limiter *)

Section float64_props.

Lemma float64_nonneg_small (t : Z) : t < 2 ^ 53 -> go.float64_of_nonneg t = t.
Proof.
  intros H. unfold go.float64_of_nonneg.
  destruct (t <? 2 ^ 53) eqn:E; [reflexivity|]. apply Z.ltb_ge in E. lia.
Qed.

(** Above 2^53 the rounded value lies on the grid of step [2^e] around
    the argument, inside the argument's binade. *)
Lemma float64_nonneg_grid (t : Z) :
  2 ^ 53 <= t ->
  exists e q r q',
    e = Z.log2 t - 52 /\ 1 <= e /\ t = q * 2 ^ e + r /\ 0 <= r < 2 ^ e /\
    2 ^ 52 <= q < 2 ^ 53 /\ q <= q' <= q + 1 /\
    (q' = q <-> (r < 2 ^ (e - 1) \/ (r = 2 ^ (e - 1) /\ Z.even q = true))) /\
    go.float64_of_nonneg t = q' * 2 ^ e.
Proof.
  intros Ht.
  assert (H53 : 0 < 2 ^ 53) by reflexivity.
  assert (Hpos : 0 < t) by lia.
  pose proof (Z.log2_spec t Hpos) as [Hlo Hhi].
  assert (Hl : 53 <= Z.log2 t).
  { apply Z.log2_le_pow2; lia. }
  set (e := Z.log2 t - 52) in *.
  assert (He : 1 <= e) by (unfold e; lia).
  assert (HP : 0 < 2 ^ e) by (apply Z.pow_pos_nonneg; lia).
  assert (Hsplit : 2 ^ Z.log2 t = 2 ^ 52 * 2 ^ e).
  { rewrite <- Z.pow_add_r by lia. f_equal. unfold e. lia. }
  assert (Hsplit' : 2 ^ Z.succ (Z.log2 t) = 2 ^ 53 * 2 ^ e).
  { rewrite <- Z.pow_add_r by lia. f_equal. unfold e. lia. }
  pose proof (Z.div_mod t (2 ^ e) ltac:(lia)) as Hdm.
  pose proof (Z.mod_pos_bound t (2 ^ e) HP) as Hr.
  set (q := t / 2 ^ e) in *. set (r := t mod 2 ^ e) in *.
  assert (Hq : 2 ^ 52 <= q < 2 ^ 53).
  { split.
    - apply Z.div_le_lower_bound; lia.
    - apply Z.div_lt_upper_bound; lia. }
  unfold go.float64_of_nonneg.
  destruct (t <? 2 ^ 53) eqn:E; [apply Z.ltb_lt in E; lia|].
  fold e. fold q. fold r.
  destruct (r <? 2 ^ (e - 1)) eqn:E1.
  { apply Z.ltb_lt in E1. exists e, q, r, q.
    repeat split; try lia; intuition (try lia; try congruence). }
  apply Z.ltb_ge in E1.
  destruct (2 ^ (e - 1) <? r) eqn:E2.
  { apply Z.ltb_lt in E2. exists e, q, r, (q + 1).
    repeat split; try lia; intuition (try lia; try congruence). }
  apply Z.ltb_ge in E2.
  assert (r = 2 ^ (e - 1)) by lia.
  destruct (Z.even q) eqn:E3.
  - exists e, q, r, q.
    repeat split; try lia; intuition (try lia; try congruence).
  - exists e, q, r, (q + 1).
    repeat split; try lia; intuition (try lia; try congruence).
Qed.

Lemma float64_nonneg_mono (a b : Z) :
  0 <= a <= b -> go.float64_of_nonneg a <= go.float64_of_nonneg b.
Proof.
  intros [Ha Hab].
  destruct (Z.lt_ge_cases b (2 ^ 53)) as [Hb|Hb].
  { rewrite !float64_nonneg_small by lia. exact Hab. }
  destruct (float64_nonneg_grid b Hb)
    as (eb & qb & rb & qb' & Heb & Heb1 & Hbeq & Hrb & Hqb & Hqb' & Hdb & Hfb).
  assert (HPb : 0 < 2 ^ eb) by (apply Z.pow_pos_nonneg; lia).
  destruct (Z.lt_ge_cases a (2 ^ 53)) as [Ha53|Ha53].
  { rewrite float64_nonneg_small by lia. rewrite Hfb. nia. }
  destruct (float64_nonneg_grid a Ha53)
    as (ea & qa & ra & qa' & Hea & Hea1 & Haeq & Hra & Hqa & Hqa' & Hda & Hfa).
  assert (HPa : 0 < 2 ^ ea) by (apply Z.pow_pos_nonneg; lia).
  rewrite Hfa, Hfb.
  assert (Hle : ea <= eb).
  { subst ea eb. pose proof (Z.log2_le_mono a b Hab). lia. }
  destruct (Z.eq_dec ea eb) as [Heq|Hne].
  - subst eb. rewrite <- Heq in *. clear Heq.
    apply Z.mul_le_mono_nonneg_r; [lia|].
    destruct (Z.eq_dec qa qb) as [Hq|Hq].
    + subst qb. assert (ra <= rb) by lia.
      destruct (Z.eq_dec qb' qa) as [Hb'|Hb']; [|lia].
      apply Hdb in Hb'.
      assert (qa' = qa); [|lia].
      apply Hda. destruct Hb' as [?|[? ?]]; [left; lia|].
      destruct (Z.eq_dec ra (2 ^ (ea - 1))); [right; tauto|left; lia].
    + assert (qa < qb) by nia. lia.
  - assert (Hstep : 2 * 2 ^ ea <= 2 ^ eb).
    { replace (2 * 2 ^ ea) with (2 ^ (ea + 1)).
      - apply Z.pow_le_mono_r; lia.
      - rewrite Z.pow_add_r by lia. lia. }
    assert (qa' * 2 ^ ea <= 2 ^ 53 * 2 ^ ea) by nia.
    assert (2 ^ 52 * 2 ^ eb <= qb' * 2 ^ eb) by nia.
    assert (H5253 : 2 ^ 53 = 2 * 2 ^ 52) by reflexivity.
    nia.
Qed.

Lemma float64_mono (a b : Z) : a <= b -> go.float64 a <= go.float64 b.
Proof.
  intros Hab. unfold go.float64.
  assert (Hnn : forall t, 0 <= t -> 0 <= go.float64_of_nonneg t).
  { intros t Ht. pose proof (float64_nonneg_mono 0 t ltac:(lia)) as H.
    rewrite (float64_nonneg_small 0) in H by reflexivity. exact H. }
  destruct (a <? 0) eqn:Ea, (b <? 0) eqn:Eb;
    try apply Z.ltb_lt in Ea; try apply Z.ltb_lt in Eb;
    try apply Z.ltb_ge in Ea; try apply Z.ltb_ge in Eb.
  - pose proof (float64_nonneg_mono (- b) (- a) ltac:(lia)). lia.
  - pose proof (Hnn (- a) ltac:(lia)). pose proof (Hnn b Eb). lia.
  - lia.
  - apply float64_nonneg_mono. lia.
Qed.

End float64_props.
Section redis_props.
Import redis.

Lemma get_lookup (now : Z) (db : gmap string entry) (key : string) :
  get now db key = no_entry \/
  (db !! key = Some (get now db key) /\
   forall d, expire_at (get now db key) = Some d -> now < d).
Proof.
  unfold get. destruct (db !! key) as [e|] eqn:E; [|left; reflexivity].
  destruct (expire_at e) as [d|] eqn:Ed.
  - destruct (d <=? now) eqn:Ex; [left; reflexivity|].
    right. split; [reflexivity|]. intros d' Hd'. rewrite Ed in Hd'.
    inversion Hd'; subst. apply Z.leb_gt in Ex. exact Ex.
  - right. split; [reflexivity|]. intros d' Hd'. congruence.
Qed.

Lemma put_lookup_ne (db : gmap string entry) (key key' : string) (e : entry) :
  key <> key' -> put db key e !! key' = db !! key'.
Proof.
  intros Hne. unfold put. destruct (decide (zs e = ∅)).
  - apply lookup_delete_ne. exact Hne.
  - apply lookup_insert_ne. exact Hne.
Qed.

Lemma put_lookup_eq (db : gmap string entry) (key : string) (e : entry) :
  put db key e !! key = if decide (zs e = ∅) then None else Some e.
Proof.
  unfold put. destruct (decide (zs e = ∅)).
  - apply lookup_delete_eq.
  - apply lookup_insert_eq.
Qed.

End redis_props.

Section limiter_props.
Import common redis ratelimit.

Lemma zs_get_put (now : Z) (db : gmap string entry) (key : string) (x : entry) :
  (forall d, expire_at x = Some d -> now < d) ->
  zs (get now (put db key x) key) = zs x /\
  (zs x <> ∅ -> get now (put db key x) key = x).
Proof.
  intros Hlive. unfold get. rewrite put_lookup_eq.
  destruct (decide (zs x = ∅)) as [He|He].
  - split; [simpl; congruence|contradiction].
  - destruct (expire_at x) as [d|] eqn:Ed; [|split; reflexivity].
    specialize (Hlive d eq_refl).
    destruct (d <=? now) eqn:Ex; [apply Z.leb_le in Ex; lia|]. split; reflexivity.
Qed.

Lemma get_live (now : Z) (db : gmap string entry) (key : string) :
  forall d, expire_at (get now db key) = Some d -> now < d.
Proof.
  destruct (get_lookup now db key) as [H|[_ H]]; [|exact H].
  rewrite H. simpl. discriminate.
Qed.

Lemma insert_nonempty (m : gmap string Z) (k : string) (v : Z) : <[k := v]> m <> ∅.
Proof. apply insert_non_empty. Qed.

(** What a call does to Redis when both pipelines succeed. *)
Lemma Allow_healthy (r : RedisRecipientLimiter) (env : AllowEnv) (recipient : string)
    (db db' : gmap string entry) (res : bool * option error) :
  healthy env = true ->
  0 <= window r ->
  Allow r env recipient db = (res, db') ->
  let key := bucket_key recipient in
  let kept := unexpired r (now env) recipient db in
  (forall key', key <> key' -> db' !! key' = db !! key') /\
  ((maxPerHour r <= Z.of_nat (size kept) /\ res = (false, None) /\
    db' = ZRemRangeByScore_upto (now env) key (now env - window r) db /\
    db' !! key = if decide (kept = ∅) then None
                 else Some {| zs := kept; expire_at := expire_at (get (now env) db key) |})
   \/
   (Z.of_nat (size kept) < maxPerHour r /\ res = (true, None) /\
    db' !! key = Some {| zs := <[member_of env := go.float64 (now env)]> kept;
                         expire_at := Some (now env + (window r + go.Minute)) |})).
Proof.
  intros Hh HW HA key kept. unfold healthy in Hh.
  destruct (exec1_err env) eqn:E1; [discriminate|].
  destruct (exec2_err env) eqn:E2; [discriminate|].
  unfold Allow in HA. rewrite E1, E2 in HA. fold key in HA.
  set (e := get (now env) db key) in *.
  assert (Hkept : kept = filter (fun kv => go.float64 (now env - window r) < kv.2) (zs e))
    by reflexivity.
  set (x := {| zs := kept; expire_at := expire_at e |}).
  assert (Hdb1 : ZRemRangeByScore_upto (now env) key (now env - window r) db = put db key x)
    by reflexivity.
  rewrite Hdb1 in HA.
  assert (Hx : forall d, expire_at x = Some d -> now env < d).
  { simpl. apply get_live. }
  destruct (zs_get_put (now env) db key x Hx) as [Hzs Hget].
  unfold ZCard in HA. rewrite Hzs in HA. simpl in HA.
  destruct (maxPerHour r <=? Z.of_nat (size kept)) eqn:Ec.
  - apply Z.leb_le in Ec. inversion HA; subst res db'. split.
    + intros key' Hne. apply put_lookup_ne. exact Hne.
    + left. repeat split; try assumption. rewrite put_lookup_eq. reflexivity.
  - apply Z.leb_gt in Ec. inversion HA; subst res db'. clear HA.
    set (db1 := put db key x) in *.
    assert (Hadd : ZAdd (now env) key (go.float64 (now env)) (member_of env) db1 =
                   <[key := {| zs := <[member_of env := go.float64 (now env)]> kept;
                               expire_at := expire_at (get (now env) db1 key) |}]> db1).
    { unfold ZAdd, put. rewrite Hzs. simpl.
      destruct (decide (<[member_of env := go.float64 (now env)]> kept = ∅)) as [Hn|Hn];
        [exfalso; exact (insert_nonempty _ _ _ Hn)|]. reflexivity. }
    rewrite Hadd.
    set (y := {| zs := <[member_of env := go.float64 (now env)]> kept;
                 expire_at := expire_at (get (now env) db1 key) |}).
    assert (Hy : get (now env) (<[key := y]> db1) key = y).
    { unfold get. rewrite lookup_insert_eq.
      destruct (expire_at y) as [d|] eqn:Ed; [|reflexivity].
      simpl in Ed. apply get_live in Ed.
      destruct (d <=? now env) eqn:Ex; [apply Z.leb_le in Ex; lia|]. reflexivity. }
    unfold Expire. rewrite Hy. simpl.
    destruct (decide (<[member_of env := go.float64 (now env)]> kept = ∅)) as [Hn|Hn];
      [exfalso; exact (insert_nonempty _ _ _ Hn)|].
    assert (Hm : go.Minute = 60000000000) by reflexivity.
    destruct (window r + go.Minute <=? 0) eqn:Et; [apply Z.leb_le in Et; lia|].
    split.
    + intros key' Hne. rewrite lookup_insert_ne by exact Hne.
      rewrite lookup_insert_ne by exact Hne. apply put_lookup_ne. exact Hne.
    + right. repeat split; try assumption. apply lookup_insert_eq.
Qed.

End limiter_props.

Section limiter_inv.
Import common redis ratelimit.

Lemma bucket_key_inj (a b : string) : bucket_key a = bucket_key b -> a = b.
Proof. unfold bucket_key. simpl. intros H. injection H. trivial. Qed.

Lemma size_filter_le (P : string * Z -> Prop) `{forall x, Decision (P x)} (m : gmap string Z) :
  (size (filter P m) <= size m)%nat.
Proof. apply map_subseteq_size, map_filter_subseteq. Qed.

Variable r : RedisRecipientLimiter.
Hypothesis window_nonneg : 0 <= window r.
Hypothesis max_nonneg : 0 <= maxPerHour r.

Lemma bucket_inv_empty (t : Z) : bucket_inv r t ∅.
Proof. intros key e H. rewrite lookup_empty in H. discriminate. Qed.

(** One healthy call keeps the buckets within the limit and every
    admission accounted for. *)
Lemma Allow_preserves (env : AllowEnv) (recipient : string) (t : Z)
    (db db' : gmap string entry) (res : bool * option error)
    (hist : list (string * AllowEnv * (bool * option error))) :
  healthy env = true ->
  t <= now env ->
  bucket_inv r t db ->
  hist_inv r t db hist ->
  (forall env0 res0, In (recipient, env0, res0) hist -> member_of env0 <> member_of env) ->
  Allow r env recipient db = (res, db') ->
  bucket_inv r (now env) db' /\ hist_inv r (now env) db' (hist ++ [(recipient, env, res)]).
Proof.
  intros Hh Ht Hb Hhist Hfresh HA.
  destruct (Allow_healthy r env recipient db db' res Hh window_nonneg HA) as [Hother Hkey].
  set (key := bucket_key recipient) in *.
  set (kept := unexpired r (now env) recipient db) in *.
  set (e := get (now env) db key) in *.
  assert (Hmono : go.float64 t <= go.float64 (now env)) by (apply float64_mono; exact Ht).
  assert (Hmono' : go.float64 (t - window r) <= go.float64 (now env - window r))
    by (apply float64_mono; lia).
  (* the surviving entries come from the live bucket *)
  assert (Hkept : forall m s, kept !! m = Some s ->
            zs e !! m = Some s /\ go.float64 (now env - window r) < s).
  { intros m s Hm. unfold kept, unexpired in Hm. fold key in Hm. fold e in Hm.
    apply map_lookup_filter_Some in Hm. simpl in Hm. tauto. }
  assert (He : e = no_entry \/ db !! key = Some e).
  { destruct (get_lookup (now env) db key) as [H|[H _]]; [left|right]; exact H. }
  assert (Hkept_old : forall m s, kept !! m = Some s ->
            exists e0, db !! key = Some e0 /\ zs e0 !! m = Some s /\ e0 = e).
  { intros m s Hm. apply Hkept in Hm as [Hm _].
    destruct He as [He|He].
    - rewrite He in Hm. simpl in Hm. rewrite lookup_empty in Hm. discriminate.
    - exists e. auto. }
  assert (Hsize : Z.of_nat (size kept) <= Z.of_nat (size (zs e))).
  { apply Nat2Z.inj_le. unfold kept, unexpired. fold key. fold e. apply size_filter_le. }
  split.
  - (* the buckets *)
    intros key' e' He'.
    destruct (decide (key = key')) as [<-|Hne].
    + destruct Hkey as [(Hc & _ & _ & Hl)|(Hc & _ & Hl)]; rewrite Hl in He'.
      * destruct (decide (kept = ∅)); [discriminate|]. inversion He'; subst e'. simpl.
        destruct He as [He|He].
        { exfalso. apply n. unfold kept, unexpired. fold key. fold e. rewrite He. simpl.
          apply map_filter_empty. }
        destruct (Hb key e He) as (B1 & B2 & B3).
        split; [lia|]. split.
        -- intros m s Hm. apply Hkept in Hm as [Hm _]. specialize (B2 m s Hm). lia.
        -- intros d m s Hd Hm. apply Hkept in Hm as [Hm _]. exact (B3 d m s Hd Hm).
      * inversion He'; subst e'. simpl.
        assert (Hscores : forall m s,
                  <[member_of env := go.float64 (now env)]> kept !! m = Some s ->
                  s <= go.float64 (now env)).
        { intros m s Hm. destruct (decide (member_of env = m)) as [<-|Hm'].
          - rewrite lookup_insert_eq in Hm. inversion Hm. lia.
          - rewrite lookup_insert_ne in Hm by exact Hm'.
            destruct (Hkept_old m s Hm) as (e0 & He0 & Hm0 & _).
            destruct (Hb key e0 He0) as (_ & B2 & _). specialize (B2 m s Hm0). lia. }
        split.
        { rewrite map_size_insert.
          destruct (kept !! member_of env); simpl; lia. }
        split; [exact Hscores|].
        intros d m s Hd Hm. inversion Hd; subst d.
        replace (now env + (window r + go.Minute) - window r - go.Minute) with (now env) by lia.
        exact (Hscores m s Hm).
    + rewrite (Hother key' Hne) in He'.
      destruct (Hb key' e' He') as (B1 & B2 & B3).
      split; [exact B1|]. split; [|exact B3].
      intros m s Hm. specialize (B2 m s Hm). lia.
  - (* the admissions *)
    intros rcp env0 res0 Hin Hadm.
    apply in_app_or in Hin as [Hin|Hin].
    + destruct (Hhist rcp env0 res0 Hin Hadm) as [(e0 & He0 & Hm0)|Hold]; [|right; lia].
      destruct (decide (key = bucket_key rcp)) as [Heq|Hne].
      * apply bucket_key_inj in Heq. subst rcp. fold key in He0.
        (* expired with its key, expired by score, or kept *)
        assert (Hcase : go.float64 (now env0) <= go.float64 (now env - window r) \/
                        kept !! member_of env0 = Some (go.float64 (now env0))).
        { destruct (Z.le_gt_cases (go.float64 (now env0)) (go.float64 (now env - window r)))
            as [Hle|Hgt]; [left; exact Hle|].
          unfold e, get in He. rewrite He0 in He.
          unfold kept, unexpired. fold key. unfold get. rewrite He0.
          destruct (Hb key e0 He0) as (_ & _ & B3).
          destruct (expire_at e0) as [d|] eqn:Ed.
          - destruct (d <=? now env) eqn:Ex.
            + left. apply Z.leb_le in Ex. specialize (B3 d _ _ eq_refl Hm0).
              assert (go.float64 (d - window r - go.Minute) <= go.float64 (now env - window r)).
              { apply float64_mono. assert (go.Minute = 60000000000) by reflexivity. lia. }
              lia.
            + right. apply map_lookup_filter_Some. simpl. split; [exact Hm0|lia].
          - right. apply map_lookup_filter_Some. simpl. split; [exact Hm0|lia]. }
        destruct Hcase as [Hexp|Hk]; [right; exact Hexp|]. left. fold key.
        destruct Hkey as [(_ & _ & _ & Hl)|(_ & _ & Hl)]; rewrite Hl.
        -- destruct (decide (kept = ∅)) as [Hemp|_].
           { rewrite Hemp, lookup_empty in Hk. discriminate. }
           eexists. split; [reflexivity|]. exact Hk.
        -- eexists. split; [reflexivity|]. simpl.
           rewrite lookup_insert_ne; [exact Hk|].
           intros Hsame. exact (Hfresh env0 res0 Hin (eq_sym Hsame)).
      * left. exists e0. rewrite (Hother _ Hne). auto.
    + destruct Hin as [Hin|[]]. inversion Hin; subst rcp env0 res0. clear Hin.
      destruct Hkey as [(_ & Hres & _)|(_ & _ & Hl)].
      * subst res. simpl in Hadm. rewrite andb_false_r in Hadm. discriminate.
      * left. fold key. rewrite Hl. eexists. split; [reflexivity|]. simpl.
        apply lookup_insert_eq.
Qed.

Lemma NoDup_map_filter {A B C : Type} (f : A -> B) (g : A -> C) (p : A -> bool) (l : list A) :
  NoDup (map f l) ->
  (forall x y, In x l -> In y l -> p x = true -> p y = true -> g x = g y -> f x = f y) ->
  NoDup (map g (List.filter p l)).
Proof.
  induction l as [|a l IH]; simpl; intros Hnd Hinj; [constructor|].
  apply NoDup_cons in Hnd as [Hnotin Hnd].
  assert (IH' : NoDup (map g (List.filter p l))).
  { apply IH; [exact Hnd|]. intros x y Hx Hy. apply Hinj; right; assumption. }
  destruct (p a) eqn:Ea; [|exact IH'].
  simpl. apply NoDup_cons. split; [|exact IH'].
  intros Hin. apply list_elem_of_In in Hin. apply in_map_iff in Hin as (y & Hgy & Hy).
  apply filter_In in Hy as [Hy Hpy].
  apply Hnotin. apply list_elem_of_In. apply in_map_iff. exists y. split; [|exact Hy].
  symmetry. apply Hinj; simpl; auto.
Qed.

Lemma length_le_size (l : list string) (m : gmap string Z) :
  NoDup l -> (forall k, In k l -> is_Some (m !! k)) -> (length l <= size m)%nat.
Proof.
  intros Hnd Hin.
  rewrite <- (size_list_to_set (C := gset string) l Hnd).
  rewrite <- (size_dom m).
  apply subseteq_size. intros k Hk.
  apply elem_of_list_to_set in Hk. apply list_elem_of_In in Hk.
  apply elem_of_dom. apply Hin. exact Hk.
Qed.

Lemma admitted_recipient (rcp : string) (x : string * AllowEnv * (bool * option error)) :
  admitted rcp x = true -> fst (fst x) = rcp.
Proof.
  destruct x as [[rcp' env] [allowed err]]. simpl. intros H.
  apply andb_true_iff in H as [H _]. apply andb_true_iff in H as [H _].
  apply String.eqb_eq in H. exact H.
Qed.

(** With the invariants in force at [t], a window ending at [T >= t]
    holds no more admissions than the bucket has room for. *)
Lemma window_count (t T : Z) (rcp : string) (db : gmap string entry)
    (hist : list (string * AllowEnv * (bool * option error))) :
  bucket_inv r t db -> hist_inv r t db hist ->
  NoDup (map key_member hist) -> t <= T ->
  Z.of_nat (length (List.filter (in_window r rcp T) hist)) <= maxPerHour r.
Proof.
  intros Hb Hhist Hnd HtT.
  remember (List.filter (in_window r rcp T) hist) as L eqn:EL0.
  assert (HL : forall x, In x L ->
            exists e, db !! bucket_key rcp = Some e /\
                      is_Some (zs e !! member_of (snd (fst x)))).
  { intros x Hx. rewrite EL0 in Hx. apply filter_In in Hx as [Hx Hw]. unfold in_window in Hw.
    apply andb_true_iff in Hw as [Hw Hs]. apply andb_true_iff in Hw as [Hadm _].
    apply Z.ltb_lt in Hs.
    pose proof (admitted_recipient rcp x Hadm) as Hrcp.
    destruct x as [[rcp' env] res]. simpl in *. subst rcp'.
    destruct (Hhist rcp env res Hx Hadm) as [(e & He & Hm)|Hold].
    - exists e. split; [exact He|]. rewrite Hm. eauto.
    - assert (go.float64 (t - window r) <= go.float64 (T - window r))
        by (apply float64_mono; lia). lia. }
  destruct L as [|x0 L']; [simpl; exact max_nonneg|].
  destruct (HL x0 (or_introl eq_refl)) as (e & He & _).
  destruct (Hb _ e He) as (Hsize & _ & _).
  assert (Hlen : (length (map (fun x => member_of (snd (fst x))) (x0 :: L')) <= size (zs e))%nat).
  { apply length_le_size.
    - rewrite EL0. apply (NoDup_map_filter key_member); [exact Hnd|].
      intros x y _ _ Hx Hy Hxy. unfold in_window in Hx, Hy.
      apply andb_true_iff in Hx as [Hx _]. apply andb_true_iff in Hx as [Hx _].
      apply andb_true_iff in Hy as [Hy _]. apply andb_true_iff in Hy as [Hy _].
      apply admitted_recipient in Hx, Hy. unfold key_member, call_member. congruence.
    - intros k Hk. apply in_map_iff in Hk as (x & <- & Hx).
      destruct (HL x Hx) as (e' & He' & Hm). congruence. }
  rewrite length_map in Hlen. lia.
Qed.

End limiter_inv.

Section limiter_run.
Import common redis ratelimit.

Variable r : RedisRecipientLimiter.
Hypothesis window_nonneg : 0 <= window r.
Hypothesis max_nonneg : 0 <= maxPerHour r.

Lemma filter_window_later (rcp : string) (T : Z)
    (x : string * AllowEnv * (bool * option error)) :
  T < now (snd (fst x)) -> in_window r rcp T x = false.
Proof.
  intros H. unfold in_window.
  destruct (now (snd (fst x)) <=? T) eqn:E; [apply Z.leb_le in E; lia|].
  rewrite andb_false_r. reflexivity.
Qed.

(** The window bound is an invariant of a healthy sequential run. *)
Lemma run_window :
  forall (calls : list (string * AllowEnv)) (db : gmap string entry)
         (hist : list (string * AllowEnv * (bool * option error))) (t : Z),
  bucket_inv r t db -> hist_inv r t db hist ->
  (forall rcp T, Z.of_nat (length (List.filter (in_window r rcp T) hist)) <= maxPerHour r) ->
  clock_monotone t calls = true ->
  forallb (fun c => healthy (snd c)) calls = true ->
  NoDup (map key_member hist ++ map call_member calls) ->
  forall rcp T,
    Z.of_nat (length (List.filter (in_window r rcp T) (hist ++ fst (run r calls db))))
    <= maxPerHour r.
Proof.
  induction calls as [|[recipient env] rest IH]; intros db hist t Hb Hh Hc Hclk Hhl Hnd rcp T.
  - simpl. rewrite app_nil_r. apply Hc.
  - simpl in Hclk, Hhl. apply andb_true_iff in Hclk as [Ht Hclk].
    apply andb_true_iff in Hhl as [Hhe Hhl]. apply Z.leb_le in Ht.
    simpl. destruct (Allow r env recipient db) as [res db1] eqn:EA.
    destruct (run r rest db1) as [out db2] eqn:ER. simpl.
    assert (Hfresh : forall env0 res0, In (recipient, env0, res0) hist ->
              member_of env0 <> member_of env).
    { intros env0 res0 Hin Heq. apply NoDup_app in Hnd as (_ & Hdisj & _).
      apply (Hdisj (recipient, member_of env0)).
      - apply list_elem_of_In. apply in_map_iff. exists (recipient, env0, res0). auto.
      - apply list_elem_of_In. simpl. left. unfold call_member. simpl. congruence. }
    destruct (Allow_preserves r window_nonneg env recipient t db db1 res hist
                Hhe Ht Hb Hh Hfresh EA) as [Hb1 Hh1].
    assert (Hnd1 : NoDup (map key_member (hist ++ [(recipient, env, res)]) ++ map call_member rest)).
    { rewrite map_app. simpl. rewrite <- app_assoc. exact Hnd. }
    assert (Hc1 : forall rcp T,
              Z.of_nat (length (List.filter (in_window r rcp T) (hist ++ [(recipient, env, res)])))
              <= maxPerHour r).
    { intros rcp' T'. destruct (Z.lt_ge_cases T' (now env)) as [Hlt|Hge].
      - rewrite List.filter_app. simpl.
        rewrite (filter_window_later rcp' T' (recipient, env, res)) by exact Hlt.
        rewrite app_nil_r. apply Hc.
      - apply (window_count r max_nonneg (now env) T' rcp' db1); try assumption.
        apply NoDup_app in Hnd1 as (H & _ & _). exact H. }
    specialize (IH db1 (hist ++ [(recipient, env, res)]) (now env) Hb1 Hh1 Hc1 Hclk Hhl Hnd1 rcp T).
    rewrite ER in IH. simpl in IH. rewrite <- app_assoc in IH. exact IH.
Qed.

(** From an empty Redis: the bound for every recipient and instant. *)
Lemma run_window_bound (calls : list (string * AllowEnv)) (t0 : Z) (recipient : string) (T : Z) :
  forallb (fun c => healthy (snd c)) calls = true ->
  clock_monotone t0 calls = true ->
  distinct_members calls = true ->
  Z.of_nat (length (List.filter (in_window r recipient T) (fst (run r calls ∅))))
  <= maxPerHour r.
Proof.
  intros Hh Hclk Hd.
  apply (run_window calls ∅ [] t0).
  - apply bucket_inv_empty.
  - intros rcp env res [].
  - intros rcp T'. simpl. exact max_nonneg.
  - exact Hclk.
  - exact Hh.
  - simpl. unfold distinct_members in Hd. apply bool_decide_eq_true in Hd. exact Hd.
Qed.

End limiter_run.

(** C4 as the code has it. In a sequential run against a healthy store,
    with a clock that never runs backwards and no two calls of a recipient
    drawing the same member, every window ending at an instant [T] holds
    at most [maxPerHour] admissions of a recipient; the window is the one
    Redis applies, on the [float64] scores: the admissions made up to [T]
    whose score exceeds that of [T - window]. And a call that finds
    [maxPerHour] or more unexpired entries answers [(false, nil)] and
    leaves Redis as the expiry alone left it: nothing is added. *)
Theorem Allow_sliding_window (r : ratelimit.RedisRecipientLimiter)
    (calls : list (string * ratelimit.AllowEnv)) (t0 : Z) :
  0 <= ratelimit.maxPerHour r ->
  0 <= ratelimit.window r ->
  forallb (fun c => ratelimit.healthy (snd c)) calls = true ->
  ratelimit.clock_monotone t0 calls = true ->
  ratelimit.distinct_members calls = true ->
  (forall recipient T,
     Z.of_nat (length (List.filter (ratelimit.in_window r recipient T)
                                   (fst (ratelimit.run r calls ∅))))
     <= ratelimit.maxPerHour r) /\
  (forall env recipient db,
     ratelimit.healthy env = true ->
     ratelimit.maxPerHour r
       <= Z.of_nat (size (ratelimit.unexpired r (ratelimit.now env) recipient db)) ->
     let db' := redis.ZRemRangeByScore_upto (ratelimit.now env) (ratelimit.bucket_key recipient)
                  (ratelimit.now env - ratelimit.window r) db in
     ratelimit.Allow r env recipient db = ((false, None), db') /\
     redis.zs (redis.get (ratelimit.now env) db' (ratelimit.bucket_key recipient))
       = ratelimit.unexpired r (ratelimit.now env) recipient db).
Proof.
  intros Hmax HW Hh Hclk Hd. split.
  - intros recipient T. apply (run_window_bound r HW Hmax calls t0); assumption.
  - intros env recipient db Hhe Hfull db'.
    destruct (ratelimit.Allow r env recipient db) as [res db1] eqn:EA.
    destruct (Allow_healthy r env recipient db db1 res Hhe HW EA) as [_ [H|H]].
    + destruct H as (_ & -> & -> & _). split; [reflexivity|].
      apply zs_get_put. simpl. apply get_live.
    + destruct H as (Hlt & _). lia.
Qed.

Lemma Allow_sliding_window_witness :
  let r := ratelimit.NewRedisRecipientLimiter 2 in
  let call t b := ("a@b.com", {| ratelimit.now := t; ratelimit.randBytes := [b; b; b; b];
                                 ratelimit.exec1_err := None; ratelimit.exec2_err := None |}) in
  let calls := [call 1790000000000000000 Byte.x01; call 1790000000000000000 Byte.x02;
                call 1790000000000000512 Byte.x03;
                call (1790000000000000000 + go.Hour) Byte.x04] in
  (0 <= ratelimit.maxPerHour r /\ 0 <= ratelimit.window r /\
   forallb (fun c => ratelimit.healthy (snd c)) calls = true /\
   ratelimit.clock_monotone 0 calls = true /\
   ratelimit.distinct_members calls = true) /\
  map snd (fst (ratelimit.run r calls ∅))
    = [(true, None); (true, None); (false, None); (true, None)] /\
  (forall recipient T,
     Z.of_nat (length (List.filter (ratelimit.in_window r recipient T)
                                   (fst (ratelimit.run r calls ∅))))
     <= 2).
Proof.
  intros r call calls.
  assert (H1 : 0 <= ratelimit.maxPerHour r) by (simpl; lia).
  assert (H2 : 0 <= ratelimit.window r) by (vm_compute; discriminate).
  assert (H3 : forallb (fun c => ratelimit.healthy (snd c)) calls = true) by reflexivity.
  assert (H4 : ratelimit.clock_monotone 0 calls = true) by (vm_compute; reflexivity).
  assert (H5 : ratelimit.distinct_members calls = true) by (vm_compute; reflexivity).
  split; [repeat split; assumption|].
  split; [vm_compute; reflexivity|].
  exact (proj1 (Allow_sliding_window r calls 0 H1 H2 H3 H4 H5)).
Defined.

(** On the clock readings themselves the bound fails by less than one
    rounding step of the scores: with a limit of 1, an admission at
    1790000000000000100 ns and another 50 ns short of an hour later are
    both granted, because both that reading and the later call's window
    start round to the same double. *)
Lemma Allow_window_exceeded :
  let r := ratelimit.NewRedisRecipientLimiter 1 in
  let call t := ("a@b.com", {| ratelimit.now := t;
                               ratelimit.randBytes := [Byte.x01; Byte.x02; Byte.x03; Byte.x04];
                               ratelimit.exec1_err := None; ratelimit.exec2_err := None |}) in
  let t1 := 1790000000000000100 in
  let t2 := t1 + go.Hour - 50 in
  let calls := [call t1; call t2] in
  forallb (fun c => ratelimit.healthy (snd c)) calls = true /\
  ratelimit.clock_monotone 0 calls = true /\
  ratelimit.distinct_members calls = true /\
  t2 - ratelimit.window r < t1 <= t2 /\
  map snd (fst (ratelimit.run r calls ∅)) = [(true, None); (true, None)] /\
  ~ (Z.of_nat (length (List.filter (ratelimit.in_clock_window r "a@b.com" t2)
                                   (fst (ratelimit.run r calls ∅))))
     <= ratelimit.maxPerHour r).
Proof.
  repeat split; try (vm_compute; reflexivity); try (vm_compute; discriminate).
  vm_compute. intros H. apply H. reflexivity.
Qed.

(** Where every clock reading and the window start are exactly
    representable as doubles, the window is the one on the clock. *)
Lemma run_envs (r : ratelimit.RedisRecipientLimiter) (calls : list (string * ratelimit.AllowEnv)) :
  forall db x, In x (fst (ratelimit.run r calls db)) -> In (fst x) calls.
Proof.
  induction calls as [|[rcp env] rest IH]; intros db x; simpl; [tauto|].
  destruct (ratelimit.Allow r env rcp db) as [res db1].
  destruct (ratelimit.run r rest db1) as [out db2] eqn:ER. simpl.
  intros [<-|Hin]; [left; reflexivity|].
  right. apply (IH db1). rewrite ER. exact Hin.
Qed.

Corollary Allow_clock_window_exact (r : ratelimit.RedisRecipientLimiter)
    (calls : list (string * ratelimit.AllowEnv)) (t0 : Z) (recipient : string) (T : Z) :
  0 <= ratelimit.maxPerHour r ->
  0 <= ratelimit.window r ->
  forallb (fun c => ratelimit.healthy (snd c)) calls = true ->
  ratelimit.clock_monotone t0 calls = true ->
  ratelimit.distinct_members calls = true ->
  (forall c, In c calls -> go.float64 (ratelimit.now (snd c)) = ratelimit.now (snd c)) ->
  go.float64 (T - ratelimit.window r) = T - ratelimit.window r ->
  Z.of_nat (length (List.filter (ratelimit.in_clock_window r recipient T)
                                (fst (ratelimit.run r calls ∅))))
  <= ratelimit.maxPerHour r.
Proof.
  intros Hmax HW Hh Hclk Hd Hex HexT.
  rewrite (List.filter_ext_in (ratelimit.in_clock_window r recipient T)
                              (ratelimit.in_window r recipient T)).
  - apply (run_window_bound r HW Hmax calls t0); assumption.
  - intros x Hx. apply run_envs in Hx. apply Hex in Hx.
    unfold ratelimit.in_clock_window, ratelimit.in_window. rewrite Hx, HexT. reflexivity.
Qed.

(** ** The intake service *)

Section Enqueue_props.
Import common notification.

Context {W : Type} (h : handler W).

Local Arguments Enqueue_create : simpl never.
Local Arguments Enqueue_ratelimit : simpl never.

(** Taking the next call of an execution apart. *)
Ltac exec_call :=
  match goal with
  | |- context [h ?R ?op ?w] =>
      let r := fresh "r" in let w1 := fresh "w" in let E := fresh "Eh" in
      destruct (h R op w) as [r w1] eqn:E; cbn
  | H : context [h ?R ?op ?w] |- _ =>
      let r := fresh "r" in let w1 := fresh "w" in let E := fresh "Eh" in
      destruct (h R op w) as [r w1] eqn:E; cbn in H
  end.

Ltac exec_tail p w :=
  let a := fresh "a" in let w2 := fresh "w" in let evs := fresh "evs" in
  let E := fresh "Ex" in
  destruct (exec h p w) as [[a w2] evs] eqn:E; cbn in *.

Lemma Enqueue_create_no_lookup (req : SendRequest) (w : W) :
  forall ev, In ev (snd (exec h (Enqueue_create req) w)) -> is_lookup ev = false.
Proof.
  unfold Enqueue_create. cbn. exec_call. destruct r as [notifLog [err|]]; cbn.
  - intros ev [<-|[]]. reflexivity.
  - exec_call. destruct r as [err|]; cbn.
    + exec_call. intros ev [<-|[<-|[<-|[]]]]; reflexivity.
    + exec_call. intros ev [<-|[<-|[<-|[]]]]; reflexivity.
Qed.

Lemma Enqueue_ratelimit_no_lookup (s : Service) (req : SendRequest) (w : W) :
  forall ev, In ev (snd (exec h (Enqueue_ratelimit s req) w)) -> is_lookup ev = false.
Proof.
  unfold Enqueue_ratelimit. destruct (rateLimiter s); [|apply Enqueue_create_no_lookup].
  cbn. exec_call. destruct r as [allowed [err|]]; cbn.
  - exec_call. pose proof (Enqueue_create_no_lookup req w1) as Hc.
    exec_tail (Enqueue_create req) w1.
    intros ev [<-|[<-|Hin]]; try reflexivity. apply Hc. exact Hin.
  - destruct allowed; cbn.
    + pose proof (Enqueue_create_no_lookup req w0) as Hc.
      exec_tail (Enqueue_create req) w0.
      intros ev [<-|Hin]; try reflexivity. apply Hc. exact Hin.
    + intros ev [<-|[]]. reflexivity.
Qed.

(** C2. In every execution of [Enqueue] on a request with a non-empty
    idempotency key in which the store lookup returns an existing record,
    the call returns the response mirroring that record (its id, status,
    channel and idempotency key) and no error, and the lookup is the only
    call made besides log lines: the limiter is not asked, nothing is
    created, enqueued or updated. *)
Theorem Enqueue_existing_no_side_effects (s : Service) (req : SendRequest) (w : W)
    (key : string) (existing : NotificationLog) (err : option error) :
  req_IdempotencyKey req <> "" ->
  In (EvGetByIdempotencyKey key (Some existing, err)) (snd (exec h (Enqueue s req) w)) ->
  fst (fst (exec h (Enqueue s req) w))
    = (Some {| resp_ID := log_ID existing;
               resp_IdempotencyKey := log_IdempotencyKey existing;
               resp_Channel := log_Channel existing;
               resp_Status := log_Status existing |}, None) /\
  key = req_IdempotencyKey req /\
  (forall ev, In ev (snd (exec h (Enqueue s req) w)) ->
     ev = EvGetByIdempotencyKey key (Some existing, err) \/ is_slog ev = true) /\
  (forall ev, In ev (snd (exec h (Enqueue s req) w)) -> is_effect ev = false).
Proof.
  intros Hkey. unfold Enqueue.
  destruct (IsValidType (req_Type req)); cbn; [|intros []].
  unfold Enqueue_idempotency.
  destruct (String.eqb (req_IdempotencyKey req) "") eqn:Ek;
    [apply String.eqb_eq in Ek; contradiction|].
  cbn. exec_call. destruct r as [[found|] [lerr|]]; cbn.
  - exec_call. exec_call.
    intros [Hin|[Hin|[Hin|[]]]]; try discriminate Hin. inversion Hin; subst.
    repeat split; try reflexivity.
    + intros ev [<-|[<-|[<-|[]]]]; auto.
    + intros ev [<-|[<-|[<-|[]]]]; reflexivity.
  - exec_call.
    intros [Hin|[Hin|[]]]; try discriminate Hin. inversion Hin; subst.
    repeat split; try reflexivity.
    + intros ev [<-|[<-|[]]]; auto.
    + intros ev [<-|[<-|[]]]; reflexivity.
  - exec_call. pose proof (Enqueue_ratelimit_no_lookup s req w1) as Hno.
    exec_tail (Enqueue_ratelimit s req) w1.
    intros [Hin|[Hin|Hin]]; try discriminate Hin. apply Hno in Hin. discriminate Hin.
  - pose proof (Enqueue_ratelimit_no_lookup s req w0) as Hno.
    exec_tail (Enqueue_ratelimit s req) w0.
    intros [Hin|Hin]; try discriminate Hin. apply Hno in Hin. discriminate Hin.
Qed.

End Enqueue_props.

Section Enqueue_fail_open.
Import common notification.

Context {W : Type} (h : handler W).

Local Arguments Enqueue_create : simpl never.
Local Arguments Enqueue_ratelimit : simpl never.

Ltac exec_call :=
  match goal with
  | |- context [h ?R ?op ?w] =>
      let r := fresh "r" in let w1 := fresh "w" in let E := fresh "Eh" in
      destruct (h R op w) as [r w1] eqn:E; cbn
  end.

Lemma Enqueue_create_trace (req : SendRequest) (w : W) :
  exists cres rest,
    snd (exec h (Enqueue_create req) w) = EvCreate (new_log req) cres :: rest /\
    create_outcome req cres rest (fst (fst (exec h (Enqueue_create req) w))) /\
    (forall ev, In ev rest -> is_allow ev = false).
Proof.
  unfold Enqueue_create, create_outcome. cbn. exec_call.
  destruct r as [notifLog [cerr|]]; cbn.
  - eexists (notifLog, Some cerr), []. cbn. repeat split. intros ev [].
  - exec_call. destruct r as [eerr|]; cbn.
    + exec_call. eexists (notifLog, None), _. cbn. split; [reflexivity|]. split.
      * eexists (Some eerr), _. split; reflexivity.
      * intros ev [<-|[<-|[]]]; reflexivity.
    + exec_call. eexists (notifLog, None), _. cbn. split; [reflexivity|]. split.
      * eexists None, _. split; reflexivity.
      * intros ev [<-|[<-|[]]]; reflexivity.
Qed.

Lemma Enqueue_ratelimit_fail_open (s : Service) (req : SendRequest) (w : W)
    (recipient : string) (allowed : bool) (lerr : error) :
  In (EvAllow recipient (allowed, Some lerr)) (snd (exec h (Enqueue_ratelimit s req) w)) ->
  exists cres rest,
    snd (exec h (Enqueue_ratelimit s req) w)
      = EvAllow (req_To req) (allowed, Some lerr)
        :: EvSlog LevelError "rate limit check failed, proceeding without limit"
             [("recipient", AStr (req_To req)); ("error", AErr lerr)]
        :: EvCreate (new_log req) cres :: rest /\
    create_outcome req cres rest (fst (fst (exec h (Enqueue_ratelimit s req) w))).
Proof.
  unfold Enqueue_ratelimit. destruct (rateLimiter s).
  - cbn. exec_call. destruct r as [allowed' [err|]]; cbn.
    + exec_call.
      destruct (Enqueue_create_trace req w1) as (cres & rest & Ht & Ho & Hna).
      destruct (exec h (Enqueue_create req) w1) as [[a w2] evs]. cbn in *. subst evs.
      intros [Hin|[Hin|[Hin|Hin]]]; try discriminate Hin.
      * inversion Hin; subst. exists cres, rest. split; [reflexivity|exact Ho].
      * apply Hna in Hin. discriminate Hin.
    + destruct allowed'; cbn.
      * destruct (Enqueue_create_trace req w0) as (cres & rest & Ht & Ho & Hna).
        destruct (exec h (Enqueue_create req) w0) as [[a w2] evs]. cbn in *. subst evs.
        intros [Hin|[Hin|Hin]]; try discriminate Hin.
        apply Hna in Hin. discriminate Hin.
      * intros [Hin|[]]. discriminate Hin.
  - destruct (Enqueue_create_trace req w) as (cres & rest & Ht & Ho & Hna).
    destruct (exec h (Enqueue_create req) w) as [[a w2] evs]. cbn in *. subst evs.
    intros [Hin|Hin]; try discriminate Hin. apply Hna in Hin. discriminate Hin.
Qed.

(** C3. In every execution of [Enqueue] in which the limiter's [Allow]
    returns a non-nil error (whatever its boolean), the call logs
    "rate limit check failed, proceeding without limit" and goes on to
    [Create] the queued record and to enqueue its id. What it returns is
    decided by those two alone: the queued response when both succeed, a
    wrapped internal error of [Create] or of the enqueuer otherwise, and
    never a rate-limit rejection. *)
Theorem Enqueue_limiter_fail_open (s : Service) (req : SendRequest) (w : W)
    (recipient : string) (allowed : bool) (lerr : error) :
  In (EvAllow recipient (allowed, Some lerr)) (snd (exec h (Enqueue s req) w)) ->
  exists pre cres rest,
    snd (exec h (Enqueue s req) w)
      = pre ++ EvAllow (req_To req) (allowed, Some lerr)
        :: EvSlog LevelError "rate limit check failed, proceeding without limit"
             [("recipient", AStr (req_To req)); ("error", AErr lerr)]
        :: EvCreate (new_log req) cres :: rest /\
    (forall ev, In ev pre -> is_effect ev = false) /\
    match snd cres with
    | Some cerr =>
        fst (fst (exec h (Enqueue s req) w))
          = (None, Some (Errorf_w "creating notification log: " cerr))
    | None =>
        exists eres rest',
          rest = EvEnqueue (log_ID (fst cres)) eres :: rest' /\
          match eres with
          | Some eerr =>
              fst (fst (exec h (Enqueue s req) w))
                = (None, Some (Errorf_w "enqueuing notification: " eerr))
          | None =>
              fst (fst (exec h (Enqueue s req) w))
                = (Some {| resp_ID := log_ID (fst cres);
                           resp_IdempotencyKey := log_IdempotencyKey (fst cres);
                           resp_Channel := req_Channel req;
                           resp_Status := StatusQueued |}, None)
          end
    end.
Proof.
  assert (Hfin : forall cres rest res, create_outcome req cres rest res ->
            match snd cres with
            | Some cerr => res = (None, Some (Errorf_w "creating notification log: " cerr))
            | None =>
                exists eres rest',
                  rest = EvEnqueue (log_ID (fst cres)) eres :: rest' /\
                  match eres with
                  | Some eerr => res = (None, Some (Errorf_w "enqueuing notification: " eerr))
                  | None => res = (Some (queued_response req (fst cres)), None)
                  end
            end).
  { intros cres rest res Ho. unfold create_outcome in Ho.
    destruct (snd cres); [tauto|exact Ho]. }
  unfold Enqueue. destruct (IsValidType (req_Type req)); cbn; [|intros []].
  unfold Enqueue_idempotency.
  destruct (String.eqb (req_IdempotencyKey req) "") eqn:Ek; cbn.
  - intros Hin. destruct (Enqueue_ratelimit_fail_open s req w _ _ _ Hin) as (cres & rest & Ht & Ho).
    exists [], cres, rest. split; [exact Ht|]. split; [intros ev []|]. apply (Hfin _ rest), Ho.
  - exec_call. destruct r as [[found|] [err|]]; cbn.
    + exec_call. exec_call. intros [Hin|[Hin|[Hin|[]]]]; discriminate Hin.
    + exec_call. intros [Hin|[Hin|[]]]; discriminate Hin.
    + exec_call. pose proof (Enqueue_ratelimit_fail_open s req w1 recipient allowed lerr) as Hr.
      destruct (exec h (Enqueue_ratelimit s req) w1) as [[a w2] evs]. cbn in *.
      intros [Hin|[Hin|Hin]]; try discriminate Hin.
      destruct (Hr Hin) as (cres & rest & Ht & Ho). subst evs.
      eexists [_; _], cres, rest. split; [reflexivity|]. split.
      * intros ev [<-|[<-|[]]]; reflexivity.
      * apply (Hfin _ rest), Ho.
    + pose proof (Enqueue_ratelimit_fail_open s req w0 recipient allowed lerr) as Hr.
      destruct (exec h (Enqueue_ratelimit s req) w0) as [[a w2] evs]. cbn in *.
      intros [Hin|Hin]; try discriminate Hin.
      destruct (Hr Hin) as (cres & rest & Ht & Ho). subst evs.
      eexists [_], cres, rest. split; [reflexivity|]. split.
      * intros ev [<-|[]]; reflexivity.
      * apply (Hfin _ rest), Ho.
Qed.

End Enqueue_fail_open.

(** ** The worker *)

Section ProcessTask_props.
Import common notification.

Context {W : Type} (h : handler W).

Local Arguments ProcessTask_send : simpl never.
Local Arguments ProcessTask_deliver : simpl never.
Local Arguments ProcessTask_found : simpl never.

Ltac exec_call :=
  match goal with
  | |- context [h ?R ?op ?w] =>
      let r := fresh "r" in let w1 := fresh "w" in let E := fresh "Eh" in
      destruct (h R op w) as [r w1] eqn:E; cbn
  end.

Lemma ProcessTask_send_ok (logID : string) (start : Z) (notifLog : NotificationLog)
    (subject html text : string) (w : W) (channel : Channel) (msg : Message)
    (providerID : string) :
  In (EvSend channel msg (providerID, None))
     (snd (exec h (ProcessTask_send logID start notifLog subject html text) w)) ->
  fst (fst (exec h (ProcessTask_send logID start notifLog subject html text) w)) = None /\
  exists ures t,
    snd (exec h (ProcessTask_send logID start notifLog subject html text) w)
      = EvSend channel msg (providerID, None)
        :: sent_tail logID notifLog start providerID ures t.
Proof.
  unfold ProcessTask_send, sent_tail. cbn. exec_call.
  destruct r as [pid [err|]]; cbn.
  - exec_call. exec_call. exec_call.
    intros [Hin|[Hin|[Hin|[Hin|[]]]]]; discriminate Hin.
  - exec_call. destruct r as [uerr|]; cbn.
    + exec_call. exec_call. exec_call.
      intros [Hin|[Hin|[Hin|[Hin|[Hin|[]]]]]]; try discriminate Hin.
      inversion Hin; subst. split; [reflexivity|]. eexists (Some uerr), _. reflexivity.
    + exec_call. exec_call.
      intros [Hin|[Hin|[Hin|[Hin|[]]]]]; try discriminate Hin.
      inversion Hin; subst. split; [reflexivity|]. eexists None, _. reflexivity.
Qed.

Lemma ProcessTask_deliver_ok (wk : Worker) (logID : string) (start : Z)
    (notifLog : NotificationLog) (w : W) (channel : Channel) (msg : Message)
    (providerID : string) :
  In (EvSend channel msg (providerID, None))
     (snd (exec h (ProcessTask_deliver wk logID start notifLog) w)) ->
  fst (fst (exec h (ProcessTask_deliver wk logID start notifLog) w)) = None /\
  exists pre ures t,
    snd (exec h (ProcessTask_deliver wk logID start notifLog) w)
      = pre ++ EvSend channel msg (providerID, None)
        :: sent_tail logID notifLog start providerID ures t /\
    (forall ev, In ev pre -> before_send ev = true).
Proof.
  unfold ProcessTask_deliver.
  destruct (IsValidType (log_Type notifLog)); cbn.
  2:{ exec_call. intros [Hin|[]]. discriminate Hin. }
  destruct (has_provider wk (log_Channel notifLog)); cbn.
  2:{ exec_call. intros [Hin|[]]. discriminate Hin. }
  exec_call. destruct r as [[[subject html] text] [err|]]; cbn.
  - exec_call. intros [Hin|[Hin|[]]]; discriminate Hin.
  - pose proof (ProcessTask_send_ok logID start notifLog subject html text w0
                  channel msg providerID) as Hs.
    destruct (exec h (ProcessTask_send logID start notifLog subject html text) w0)
      as [[a w2] evs]. cbn in *.
    intros [Hin|Hin]; [discriminate Hin|].
    destruct (Hs Hin) as (Ha & ures & t & Hevs). subst evs. split; [exact Ha|].
    eexists [_], ures, t. split; [reflexivity|].
    intros ev [<-|[]]. reflexivity.
Qed.

Lemma ProcessTask_found_ok (wk : Worker) (logID : string) (start : Z)
    (notifLog : NotificationLog) (w : W) (channel : Channel) (msg : Message)
    (providerID : string) :
  In (EvSend channel msg (providerID, None))
     (snd (exec h (ProcessTask_found wk logID start notifLog) w)) ->
  fst (fst (exec h (ProcessTask_found wk logID start notifLog) w)) = None /\
  exists pre ures t,
    snd (exec h (ProcessTask_found wk logID start notifLog) w)
      = pre ++ EvSend channel msg (providerID, None)
        :: sent_tail logID notifLog start providerID ures t /\
    (forall ev, In ev pre -> before_send ev = true).
Proof.
  unfold ProcessTask_found. cbn. exec_call. destruct r as [uerr|]; cbn.
  - exec_call.
    pose proof (ProcessTask_deliver_ok wk logID start notifLog w1 channel msg providerID) as Hd.
    destruct (exec h (ProcessTask_deliver wk logID start notifLog) w1) as [[a w2] evs].
    cbn in *. intros [Hin|[Hin|Hin]]; try discriminate Hin.
    destruct (Hd Hin) as (Ha & pre & ures & t & Hevs & Hpre). subst evs.
    split; [exact Ha|]. eexists (_ :: _ :: pre), ures, t. split; [reflexivity|].
    intros ev [<-|[<-|Hev]]; try reflexivity. apply Hpre, Hev.
  - pose proof (ProcessTask_deliver_ok wk logID start notifLog w0 channel msg providerID) as Hd.
    destruct (exec h (ProcessTask_deliver wk logID start notifLog) w0) as [[a w2] evs].
    cbn in *. intros [Hin|Hin]; try discriminate Hin.
    destruct (Hd Hin) as (Ha & pre & ures & t & Hevs & Hpre). subst evs.
    split; [exact Ha|]. eexists (_ :: pre), ures, t. split; [reflexivity|].
    intros ev [<-|Hev]; try reflexivity. apply Hpre, Hev.
Qed.

Lemma ProcessTask_send_no_getbyid (logID : string) (start : Z) (notifLog : NotificationLog)
    (subject html text : string) (w : W) :
  forall ev, In ev (snd (exec h (ProcessTask_send logID start notifLog subject html text) w)) ->
             is_getbyid ev = false.
Proof.
  unfold ProcessTask_send. cbn. exec_call. destruct r as [pid [err|]]; cbn.
  - exec_call. exec_call. exec_call. intros ev [<-|[<-|[<-|[<-|[]]]]]; reflexivity.
  - exec_call. destruct r as [uerr|]; cbn.
    + exec_call. exec_call. exec_call. intros ev [<-|[<-|[<-|[<-|[<-|[]]]]]]; reflexivity.
    + exec_call. exec_call. intros ev [<-|[<-|[<-|[<-|[]]]]]; reflexivity.
Qed.

Lemma ProcessTask_deliver_no_getbyid (wk : Worker) (logID : string) (start : Z)
    (notifLog : NotificationLog) (w : W) :
  forall ev, In ev (snd (exec h (ProcessTask_deliver wk logID start notifLog) w)) ->
             is_getbyid ev = false.
Proof.
  unfold ProcessTask_deliver.
  destruct (IsValidType (log_Type notifLog)); cbn.
  2:{ exec_call. intros ev [<-|[]]. reflexivity. }
  destruct (has_provider wk (log_Channel notifLog)); cbn.
  2:{ exec_call. intros ev [<-|[]]. reflexivity. }
  exec_call. destruct r as [[[subject html] text] [err|]]; cbn.
  - exec_call. intros ev [<-|[<-|[]]]; reflexivity.
  - pose proof (ProcessTask_send_no_getbyid logID start notifLog subject html text w0) as Hs.
    destruct (exec h (ProcessTask_send logID start notifLog subject html text) w0)
      as [[a w2] evs]. cbn in *.
    intros ev [<-|Hin]; [reflexivity|]. apply Hs, Hin.
Qed.

Lemma ProcessTask_found_no_getbyid (wk : Worker) (logID : string) (start : Z)
    (notifLog : NotificationLog) (w : W) :
  forall ev, In ev (snd (exec h (ProcessTask_found wk logID start notifLog) w)) ->
             is_getbyid ev = false.
Proof.
  unfold ProcessTask_found. cbn. exec_call. destruct r as [uerr|]; cbn.
  - exec_call.
    pose proof (ProcessTask_deliver_no_getbyid wk logID start notifLog w1) as Hd.
    destruct (exec h (ProcessTask_deliver wk logID start notifLog) w1) as [[a w2] evs].
    cbn in *. intros ev [<-|[<-|Hin]]; try reflexivity. apply Hd, Hin.
  - pose proof (ProcessTask_deliver_no_getbyid wk logID start notifLog w0) as Hd.
    destruct (exec h (ProcessTask_deliver wk logID start notifLog) w0) as [[a w2] evs].
    cbn in *. intros ev [<-|Hin]; try reflexivity. apply Hd, Hin.
Qed.

(** C6 as the code has it. In every execution of [ProcessTask] in which
    [GetByID] returns no record and no error, the worker logs
    "notification log not found" and returns the plain error
    "notification log not found: <id>" without any other call. The error
    does not wrap [asynq.SkipRetry]: the queue server treats it like any
    failure and retries the task while its retry budget lasts. *)
Theorem ProcessTask_missing_record (wk : Worker) (logID : string) (w : W) (id : string) :
  In (EvGetByID id (None, None)) (snd (exec h (ProcessTask wk logID) w)) ->
  (exists t,
     snd (exec h (ProcessTask wk logID) w)
       = [EvNow t; EvGetByID logID (None, None);
          EvSlog LevelError "notification log not found" [("log_id", AStr logID)]]) /\
  fst (fst (exec h (ProcessTask wk logID) w))
    = Some (errorString ("notification log not found: " +:+ logID)) /\
  asynq.non_retryable (errorString ("notification log not found: " +:+ logID)) = false /\
  (forall retried maxRetry, retried < maxRetry ->
     asynq.handle_result queue.RetryDelayFunc retried maxRetry
       (fst (fst (exec h (ProcessTask wk logID) w)))
     = asynq.Retried (queue.RetryDelayFunc retried)).
Proof.
  unfold ProcessTask. cbn. exec_call. exec_call.
  destruct r0 as [[notifLog|] [err|]]; cbn.
  - intros [Hin|[Hin|[]]]; discriminate Hin.
  - pose proof (ProcessTask_found_no_getbyid wk logID r notifLog w1) as Hf.
    destruct (exec h (ProcessTask_found wk logID r notifLog) w1) as [[a w2] evs]. cbn in *.
    intros [Hin|[Hin|Hin]]; try discriminate Hin. apply Hf in Hin. discriminate Hin.
  - intros [Hin|[Hin|[]]]; discriminate Hin.
  - exec_call. intros _. split; [eexists; reflexivity|]. split; [reflexivity|].
    split; [reflexivity|].
    intros retried maxRetry Hlt. unfold asynq.handle_result. cbn.
    destruct (maxRetry <=? retried) eqn:E; [apply Z.leb_le in E; lia|]. reflexivity.
Qed.

(** The whole of a delivery that succeeds. *)
Lemma ProcessTask_send_ok_shape (wk : Worker) (logID : string) (w : W)
    (channel : Channel) (msg : Message) (providerID : string) :
  In (EvSend channel msg (providerID, None)) (snd (exec h (ProcessTask wk logID) w)) ->
  fst (fst (exec h (ProcessTask wk logID) w)) = None /\
  exists pre ures t args,
    snd (exec h (ProcessTask wk logID) w)
      = pre ++ [EvSend channel msg (providerID, None);
                EvUpdateStatus logID StatusSent providerID "" ures]
        ++ match ures with
           | Some uerr => [EvSlog LevelError "failed to update status to sent"
                             [("log_id", AStr logID); ("error", AErr uerr)]]
           | None => []
           end
        ++ [EvNow t; EvSlog LevelInfo "notification sent" args] /\
    (forall ev, In ev pre -> before_send ev = true).
Proof.
  unfold ProcessTask. cbn. exec_call. exec_call.
  destruct r0 as [[notifLog|] [err|]]; cbn.
  - intros [Hin|[Hin|[]]]; discriminate Hin.
  - pose proof (ProcessTask_found_ok wk logID r notifLog w1 channel msg providerID) as Hf.
    destruct (exec h (ProcessTask_found wk logID r notifLog) w1) as [[a w2] evs]. cbn in *.
    intros [Hin|[Hin|Hin]]; try discriminate Hin.
    destruct (Hf Hin) as (Ha & pre & ures & t & Hevs & Hpre). subst evs.
    split; [exact Ha|].
    eexists (_ :: _ :: pre), ures, t, _. split.
    + unfold sent_tail. cbn. reflexivity.
    + intros ev [<-|[<-|Hev]]; try reflexivity. apply Hpre, Hev.
  - intros [Hin|[Hin|[]]]; discriminate Hin.
  - exec_call. intros [Hin|[Hin|[Hin|[]]]]; discriminate Hin.
Qed.

(** C10. In every execution of [ProcessTask] in which the provider's
    [Send] succeeds, the worker returns nil. After the send it asks the
    store once to mark the record [sent] with the provider id; when that
    update fails, the failure is logged and nothing else is done about it
    (the remaining events are the clock reading and the
    "notification sent" log line). Before the send the only update it
    asked for is the one to [processing], and a failed [UpdateStatus] of
    the store leaves every row as it was, so the record keeps its
    previous status. *)
Theorem ProcessTask_sent_update_failure_ignored (wk : Worker) (logID : string) (w : W)
    (channel : Channel) (msg : Message) (providerID : string) :
  In (EvSend channel msg (providerID, None)) (snd (exec h (ProcessTask wk logID) w)) ->
  fst (fst (exec h (ProcessTask wk logID) w)) = None /\
  (exists pre ures t args,
     snd (exec h (ProcessTask wk logID) w)
       = pre ++ [EvSend channel msg (providerID, None);
                 EvUpdateStatus logID StatusSent providerID "" ures]
         ++ match ures with
            | Some uerr => [EvSlog LevelError "failed to update status to sent"
                              [("log_id", AStr logID); ("error", AErr uerr)]]
            | None => []
            end
         ++ [EvNow t; EvSlog LevelInfo "notification sent" args] /\
     (forall ev, In ev pre -> before_send ev = true)) /\
  (forall fault now id status pid errMsg table,
     store.UpdateStatus (Some fault) now id status pid errMsg table
     = (Some (Errorf_w "updating notification status: " fault), table)).
Proof.
  intros Hin.
  destruct (ProcessTask_send_ok_shape wk logID w channel msg providerID Hin) as [Ha Hex].
  split; [exact Ha|]. split; [exact Hex|].
  intros fault now id status pid errMsg table. reflexivity.
Qed.

End ProcessTask_props.

(** ** The proved properties on sample executions *)

Section sample_runs.
Import common notification system sample.

Lemma Enqueue_existing_no_side_effects_witness :
  req_IdempotencyKey signup <> "" /\
  In (EvGetByIdempotencyKey "k1" (Some record1, None))
     (snd (exec (run_op cfg) (Enqueue svc signup) accepted)) /\
  fst (fst (exec (run_op cfg) (Enqueue svc signup) accepted))
    = (Some {| resp_ID := "id-1"; resp_IdempotencyKey := "k1";
               resp_Channel := "email"; resp_Status := "queued" |}, None).
Proof.
  assert (H1 : req_IdempotencyKey signup <> "") by discriminate.
  assert (H2 : In (EvGetByIdempotencyKey "k1" (Some record1, None))
                  (snd (exec (run_op cfg) (Enqueue svc signup) accepted)))
    by (vm_compute; left; reflexivity).
  split; [exact H1|]. split; [exact H2|].
  exact (proj1 (Enqueue_existing_no_side_effects (run_op cfg) svc signup accepted
                  "k1" record1 None H1 H2)).
Defined.

Lemma Enqueue_limiter_fail_open_witness :
  In (EvAllow "a@b.com" (false, Some (Errorf_w "checking recipient rate limit: " refused)))
     (snd (exec (run_op cfg) (Enqueue svc signup) redis_down)) /\
  fst (fst (exec (run_op cfg) (Enqueue svc signup) redis_down))
    = (Some {| resp_ID := "id-1"; resp_IdempotencyKey := "k1";
               resp_Channel := "email"; resp_Status := "queued" |}, None) /\
  exists pre cres rest,
    snd (exec (run_op cfg) (Enqueue svc signup) redis_down)
      = pre ++ EvAllow "a@b.com"
                 (false, Some (Errorf_w "checking recipient rate limit: " refused))
        :: EvSlog LevelError "rate limit check failed, proceeding without limit"
             [("recipient", AStr "a@b.com");
              ("error", AErr (Errorf_w "checking recipient rate limit: " refused))]
        :: EvCreate (new_log signup) cres :: rest.
Proof.
  assert (H : In (EvAllow "a@b.com"
                    (false, Some (Errorf_w "checking recipient rate limit: " refused)))
                 (snd (exec (run_op cfg) (Enqueue svc signup) redis_down)))
    by (vm_compute; right; left; reflexivity).
  split; [exact H|]. split; [vm_compute; reflexivity|].
  destruct (Enqueue_limiter_fail_open (run_op cfg) svc signup redis_down _ _ _ H)
    as (pre & cres & rest & Ht & _).
  exists pre, cres, rest. exact Ht.
Defined.

Lemma ProcessTask_missing_record_witness :
  In (EvGetByID "ghost" (None, None)) (snd (exec empty_ports (ProcessTask wk "ghost") tt)) /\
  fst (fst (exec empty_ports (ProcessTask wk "ghost") tt))
    = Some (errorString "notification log not found: ghost").
Proof.
  assert (H : In (EvGetByID "ghost" (None, None))
                 (snd (exec empty_ports (ProcessTask wk "ghost") tt)))
    by (vm_compute; right; left; reflexivity).
  split; [exact H|].
  exact (proj1 (proj2 (ProcessTask_missing_record empty_ports wk "ghost" tt "ghost" H))).
Defined.

(** The error for a missing record is retried, not discarded: with the
    default budget of five retries the server schedules the first retry
    (after [RetryDelayFunc 0], which is no delay at all) instead of
    archiving the task. *)
Lemma ProcessTask_missing_record_is_retried :
  let res := fst (fst (exec empty_ports (ProcessTask sample.wk "ghost") tt)) in
  In (EvGetByID "ghost" (None, None)) (snd (exec empty_ports (ProcessTask sample.wk "ghost") tt)) /\
  res = Some (errorString "notification log not found: ghost") /\
  asynq.non_retryable (errorString "notification log not found: ghost") = false /\
  asynq.handle_result queue.RetryDelayFunc 0 5 res = asynq.Retried 0 /\
  asynq.handle_result queue.RetryDelayFunc 0 5 res <> asynq.Archived.
Proof.
  repeat split; try (vm_compute; reflexivity).
  - vm_compute. right. left. reflexivity.
  - vm_compute. discriminate.
Qed.

Lemma ProcessTask_sent_update_failure_ignored_witness :
  let msg := {| msg_To := "a@b.com"; msg_Subject := "Confirm Your Email Address";
                msg_HTML := "<p>Welcome</p>"; msg_Text := "Welcome" |} in
  In (EvSend "email" msg ("re_123", None))
     (snd (exec (run_op cfg) (ProcessTask wk "id-1") store_blip)) /\
  In (EvUpdateStatus "id-1" StatusSent "re_123" ""
        (Some (Errorf_w "updating notification status: " (errorString "unexpected EOF"))))
     (snd (exec (run_op cfg) (ProcessTask wk "id-1") store_blip)) /\
  fst (fst (exec (run_op cfg) (ProcessTask wk "id-1") store_blip)) = None /\
  map store.row_Status (table (snd (fst (exec (run_op cfg) (ProcessTask wk "id-1") store_blip))))
    = ["processing"].
Proof.
  intros msg.
  assert (H : In (EvSend "email" msg ("re_123", None))
                 (snd (exec (run_op cfg) (ProcessTask wk "id-1") store_blip)))
    by (vm_compute; do 4 right; left; reflexivity).
  split; [exact H|]. split; [vm_compute; do 5 right; left; reflexivity|].
  split; [|vm_compute; reflexivity].
  exact (proj1 (ProcessTask_sent_update_failure_ignored (run_op cfg) wk "id-1" store_blip
                  "email" msg "re_123" H)).
Defined.

End sample_runs.

(** ** The store *)

Section store_props.
Import common notification store.

Lemma lookup_map {A B : Type} (f : A -> B) (l : list A) (i : nat) :
  map f l !! i = option_map f (l !! i).
Proof.
  revert i. induction l as [|a l IH]; intros [|i]; simpl; try reflexivity. apply IH.
Qed.

Lemma status_update_lookups (now : Z) (status : NotificationStatus) (providerID errMsg : string) :
  let update := status_update now status providerID errMsg in
  update !! "status" = Some (VString status) /\
  update !! "updated_at" = Some (VTime now) /\
  update !! "provider_id" = (if String.eqb providerID "" then None else Some (VString providerID)) /\
  update !! "error_message" = (if String.eqb errMsg "" then None else Some (VString errMsg)) /\
  update !! "sent_at" = (if String.eqb status StatusSent then Some (VTime now) else None) /\
  update !! "delivered_at" = None /\ update !! "opened_at" = None /\
  update !! "bounced_at" = None.
Proof.
  unfold status_update.
  destruct (String.eqb providerID ""), (String.eqb errMsg ""), (String.eqb status StatusSent);
    cbn [negb]; repeat split;
    repeat (first [ rewrite lookup_insert_eq
                  | rewrite lookup_insert_ne by discriminate
                  | rewrite lookup_empty ]); reflexivity.
Qed.

(** What an accepted [UpdateStatus] makes of a row it selects. *)
Lemma apply_status_update (now : Z) (status : NotificationStatus) (providerID errMsg : string)
    (row : supabaseRow) :
  apply_update (status_update now status providerID errMsg) row =
  {| row_ID := row_ID row;
     row_IdempotencyKey := row_IdempotencyKey row;
     row_Channel := row_Channel row;
     row_Type := row_Type row;
     row_Recipient := row_Recipient row;
     row_TemplateData := row_TemplateData row;
     row_ProviderID := if String.eqb providerID "" then row_ProviderID row else Some providerID;
     row_Status := status;
     row_ErrorMessage := if String.eqb errMsg "" then row_ErrorMessage row else Some errMsg;
     row_CreatedAt := row_CreatedAt row;
     row_UpdatedAt := Some now;
     row_SentAt := if String.eqb status StatusSent then Some now else row_SentAt row;
     row_DeliveredAt := row_DeliveredAt row;
     row_OpenedAt := row_OpenedAt row;
     row_BouncedAt := row_BouncedAt row |}.
Proof.
  destruct (status_update_lookups now status providerID errMsg)
    as (H1 & H2 & H3 & H4 & H5 & H6 & H7 & H8).
  unfold apply_update. rewrite H1, H2, H3, H4, H5, H6, H7, H8.
  destruct (String.eqb providerID ""), (String.eqb errMsg ""), (String.eqb status StatusSent);
    reflexivity.
Qed.

Local Arguments apply_update : simpl never.
Local Arguments status_update : simpl never.

(** C9. Whether the round trip succeeds or not, an [UpdateStatus] with
    an empty [providerID] sends no [provider_id] and leaves that column
    of every row as it was, and one with an empty [errMsg] does the same
    for [error_message]. In particular the worker's update to [sent]
    (empty [errMsg]) keeps the [error_message] of an earlier failed
    attempt, and the reaper's reset to [queued] (both empty) keeps both
    [error_message] and [provider_id]. *)
Theorem UpdateStatus_keeps_omitted_columns (fault : option error) (now : Z) (id : string)
    (status : NotificationStatus) (providerID errMsg : string) (table : list supabaseRow) :
  (providerID = "" -> status_update now status providerID errMsg !! "provider_id" = None) /\
  (errMsg = "" -> status_update now status providerID errMsg !! "error_message" = None) /\
  (forall i row,
     table !! i = Some row ->
     exists row',
       snd (UpdateStatus fault now id status providerID errMsg table) !! i = Some row' /\
       (providerID = "" -> row_ProviderID row' = row_ProviderID row) /\
       (errMsg = "" -> row_ErrorMessage row' = row_ErrorMessage row)) /\
  (forall i row,
     table !! i = Some row -> row_ID row = id ->
     exists row',
       snd (UpdateStatus None now id StatusSent providerID "" table) !! i = Some row' /\
       row_Status row' = StatusSent /\
       row_ErrorMessage row' = row_ErrorMessage row) /\
  (forall i row,
     table !! i = Some row -> row_ID row = id ->
     exists row',
       snd (UpdateStatus None now id StatusQueued "" "" table) !! i = Some row' /\
       row_Status row' = StatusQueued /\
       row_ErrorMessage row' = row_ErrorMessage row /\
       row_ProviderID row' = row_ProviderID row).
Proof.
  destruct (status_update_lookups now status providerID errMsg) as (_ & _ & H3 & H4 & _).
  split; [intros ->; exact H3|]. split; [intros ->; exact H4|]. split; [|split].
  - intros i row Hi. destruct fault as [err|]; cbn.
    + exists row. auto.
    + unfold update_where. rewrite lookup_map, Hi. cbn.
      destruct (has_id id row).
      * eexists. split; [reflexivity|]. rewrite apply_status_update. cbn.
        split; intros ->; reflexivity.
      * exists row. auto.
  - intros i row Hi Hid. cbn. unfold update_where. rewrite lookup_map, Hi. cbn.
    unfold has_id. rewrite Hid, String.eqb_refl.
    eexists. split; [reflexivity|]. rewrite apply_status_update. cbn. auto.
  - intros i row Hi Hid. cbn. unfold update_where. rewrite lookup_map, Hi. cbn.
    unfold has_id. rewrite Hid, String.eqb_refl.
    eexists. split; [reflexivity|]. rewrite apply_status_update. cbn. auto.
Qed.

(** The stuck sample row, reset by the reaper's update and then marked
    sent by the worker's: the message of the old failure is still there. *)
Example UpdateStatus_keeps_old_error :
  let t1 := snd (UpdateStatus None sample.T0 "id-9" StatusQueued "" "" [sample.stuck_row]) in
  let t2 := snd (UpdateStatus None sample.T0 "id-9" StatusSent "re_456" "" t1) in
  map (fun r => (row_Status r, row_ProviderID r, row_ErrorMessage r)) t1
    = [("queued", Some "re_old", Some "provider error: resend: rate limited")] /\
  map (fun r => (row_Status r, row_ProviderID r, row_ErrorMessage r)) t2
    = [("sent", Some "re_456", Some "provider error: resend: rate limited")].
Proof. split; vm_compute; reflexivity. Qed.

End store_props.

(** ** The reaper *)

Section sweep_props.
Import common notification.

Context {W : Type} (h : handler W).

Local Arguments sweep_loop : simpl never.

Ltac exec_call :=
  match goal with
  | |- context [h ?R ?op ?w] =>
      let r := fresh "r" in let w1 := fresh "w" in let E := fresh "Eh" in
      destruct (h R op w) as [r w1] eqn:E; cbn
  end.

Lemma exec_bind {A B : Type} (p : Prog A) (f : A -> Prog B) (w : W) :
  exec h (bind p f) w =
  let '(a, w1, t1) := exec h p w in
  let '(b, w2, t2) := exec h (f a) w1 in
  (b, w2, t1 ++ t2).
Proof.
  revert w. induction p as [a|R op k IH]; intros w; cbn.
  - destruct (exec h (f a) w) as [[b w2] t2]. reflexivity.
  - destruct (h R op w) as [r w1]. rewrite IH.
    destruct (exec h (k r) w1) as [[a w2] t1].
    destruct (exec h (f a) w2) as [[b w3] t2]. reflexivity.
Qed.

Lemma sweep_shape_cons (l : NotificationLog) (rest : list NotificationLog)
    (head tl : list Event) (ures : option error) :
  (forall ev, In ev head -> reaper_event ev = true /\ is_liststale ev = false) ->
  In (EvUpdateStatus (log_ID l) StatusQueued "" "" ures) head ->
  (ures = None -> exists eres, In (EvEnqueue (log_ID l) eres) head) ->
  (forall id eres, In (EvEnqueue id eres) head ->
     exists pre post,
       head = pre ++ EvUpdateStatus id StatusQueued "" "" None :: EvEnqueue id eres :: post) ->
  sweep_shape rest tl ->
  sweep_shape (l :: rest) (head ++ tl).
Proof.
  intros Hev Hup Henq Hdec (T1 & T2 & T3). split; [|split].
  - intros ev Hin. apply in_app_or in Hin as [Hin|Hin]; [apply Hev|apply T1]; exact Hin.
  - intros id eres Hin. apply in_app_or in Hin as [Hin|Hin].
    + destruct (Hdec id eres Hin) as (pre & post & ->).
      exists pre, (post ++ tl). rewrite <- app_assoc. reflexivity.
    + destruct (T2 id eres Hin) as (pre & post & ->).
      exists (head ++ pre), post. rewrite <- app_assoc. reflexivity.
  - intros l' [<-|Hin].
    + exists ures. split; [apply in_or_app; left; exact Hup|].
      intros Hn. destruct (Henq Hn) as (eres & He). exists eres. apply in_or_app. left. exact He.
    + destruct (T3 l' Hin) as (ures' & Hu & He). exists ures'. split.
      * apply in_or_app. right. exact Hu.
      * intros Hn. destruct (He Hn) as (eres & He'). exists eres. apply in_or_app. right. exact He'.
Qed.

Lemma sweep_loop_shape (staleLogs : list NotificationLog) :
  forall (recovered : Z) (w : W),
    sweep_shape staleLogs (snd (exec h (sweep_loop staleLogs recovered) w)).
Proof.
  induction staleLogs as [|l rest IH]; intros recovered w.
  - cbn. split; [|split]; intros; contradiction.
  - unfold sweep_loop; fold sweep_loop. cbn. exec_call. destruct r as [uerr|]; cbn.
    + exec_call. specialize (IH recovered w1).
      destruct (exec h (sweep_loop rest recovered) w1) as [[a w2] evs]. cbn in *.
      apply (sweep_shape_cons l rest [_; _] evs (Some uerr)).
      * intros ev [<-|[<-|[]]]; split; reflexivity.
      * left. reflexivity.
      * discriminate.
      * intros id eres [Hin|[Hin|[]]]; discriminate Hin.
      * exact IH.
    + exec_call. destruct r as [eerr|]; cbn.
      * exec_call. specialize (IH recovered w2).
        destruct (exec h (sweep_loop rest recovered) w2) as [[a w3] evs]. cbn in *.
        apply (sweep_shape_cons l rest [_; _; _] evs None).
        -- intros ev [<-|[<-|[<-|[]]]]; split; reflexivity.
        -- left. reflexivity.
        -- intros _. eexists. right. left. reflexivity.
        -- intros id eres [Hin|[Hin|[Hin|[]]]]; try discriminate Hin.
           inversion Hin; subst. exists [], [EvSlog LevelError "reaper: failed to re-enqueue task"
             [("log_id", AStr (log_ID l)); ("error", AErr eerr)]]. reflexivity.
        -- exact IH.
      * exec_call. exec_call. specialize (IH (recovered + 1) w3).
        destruct (exec h (sweep_loop rest (recovered + 1)) w3) as [[a w4] evs]. cbn in *.
        apply (sweep_shape_cons l rest [_; _; _; _] evs None).
        -- intros ev [<-|[<-|[<-|[<-|[]]]]]; split; reflexivity.
        -- left. reflexivity.
        -- intros _. eexists. right. left. reflexivity.
        -- intros id eres [Hin|[Hin|[Hin|[Hin|[]]]]]; try discriminate Hin.
           inversion Hin; subst. eexists [], [_; _]. reflexivity.
        -- exact IH.
Qed.

(** The same for a whole sweep, about the logs [ListStale] returned. *)
Lemma sweep_events (r : Reaper) (w : W) :
  let tr := snd (exec h (sweep r) w) in
  (forall ev, In ev tr -> reaper_event ev = true) /\
  (forall id eres, In (EvEnqueue id eres) tr ->
     exists pre post,
       tr = pre ++ EvUpdateStatus id StatusQueued "" "" None :: EvEnqueue id eres :: post) /\
  (forall olderThan limit staleLogs l,
     In (EvListStale olderThan limit (staleLogs, None)) tr -> In l staleLogs ->
     exists ures, In (EvUpdateStatus (log_ID l) StatusQueued "" "" ures) tr /\
                  (ures = None -> exists eres, In (EvEnqueue (log_ID l) eres) tr)).
Proof.
  unfold sweep. cbn. exec_call. exec_call. destruct r1 as [staleLogs [err|]]; cbn.
  - exec_call. split; [|split].
    + intros ev [<-|[<-|[<-|[]]]]; reflexivity.
    + intros id eres [Hin|[Hin|[Hin|[]]]]; discriminate Hin.
    + intros o lim sl l [Hin|[Hin|[Hin|[]]]]; discriminate Hin.
  - destruct staleLogs as [|l0 rest]; cbn.
    + split; [|split].
      * intros ev [<-|[<-|[]]]; reflexivity.
      * intros id eres [Hin|[Hin|[]]]; discriminate Hin.
      * intros o lim sl l [Hin|[Hin|[]]]; try discriminate Hin.
        inversion Hin; subst. intros [].
    + exec_call.
      match goal with
      | |- context [exec h (bind ?p ?f) ?w'] => rewrite (exec_bind p f w')
      end.
      pose proof (sweep_loop_shape (l0 :: rest) 0 w2) as (T1 & T2 & T3).
      destruct (exec h (sweep_loop (l0 :: rest) 0) w2) as [[recovered w3] evs]. cbn in *.
      set (final := if 0 <? recovered
                    then call (slog LevelInfo "reaper: sweep complete"
                                 [("recovered", AInt recovered);
                                  ("total_stale", AInt (Z.of_nat (S (length rest))))])
                    else Ret tt).
      assert (Hfinal : forall ev, In ev (snd (exec h final w3)) -> is_slog ev = true).
      { subst final. destruct (0 <? recovered); cbn.
        - exec_call. intros ev [<-|[]]. reflexivity.
        - intros ev []. }
      destruct (exec h final w3) as [[u w4] evs']. cbn in *.
      split; [|split].
      * intros ev [<-|[<-|[<-|Hin]]]; try reflexivity.
        apply in_app_or in Hin as [Hin|Hin]; [apply T1, Hin|].
        apply Hfinal in Hin. destruct ev; try discriminate Hin. reflexivity.
      * intros id eres [Hin|[Hin|[Hin|Hin]]]; try discriminate Hin.
        apply in_app_or in Hin as [Hin|Hin].
        -- destruct (T2 id eres Hin) as (pre & post & ->).
           eexists (_ :: _ :: _ :: pre), (post ++ evs'). cbn. rewrite <- app_assoc. reflexivity.
        -- apply Hfinal in Hin. discriminate Hin.
      * intros o lim sl l [Hin|[Hin|[Hin|Hin]]]; try discriminate Hin.
        -- inversion Hin; subst. intros Hl. destruct (T3 l Hl) as (ures & Hu & He).
           exists ures. split.
           ++ right. right. right. apply in_or_app. left. exact Hu.
           ++ intros Hn. destruct (He Hn) as (eres & He'). exists eres.
              right. right. right. apply in_or_app. left. exact He'.
        -- apply in_app_or in Hin as [Hin|Hin].
           ++ apply T1 in Hin as [_ Hin]. discriminate Hin.
           ++ apply Hfinal in Hin. discriminate Hin.
Qed.

End sweep_props.

Section system_replay.
Import common notification system.

Variable cfg : Config.

(** What one call does to the clock, the queue and the table. *)
Lemma run_op_effect (R : Type) (op : Op R) (w : World) :
  let '(r, w1) := run_op cfg R op w in
  clock w1 = clock w /\
  tasks w1 = tasks_after cfg (event_of op r) (tasks w) /\
  (is_create (event_of op r) = false ->
   table w1 = table_after (clock w) (event_of op r) (table w)).
Proof.
  destruct op; cbn.
  - destruct (store.Create _ _ _ _ _) as [[log' err] table']. cbn.
    repeat split. discriminate.
  - repeat split.
  - repeat split.
  - unfold store.UpdateStatus. destruct (next_fault (store_faults w)); cbn; repeat split.
  - repeat split.
  - unfold queue.EnqueueSendNotification. destruct (next_fault (queue_faults w)); cbn;
      repeat split.
  - destruct (hd _ (limiter_draws w)) as [[bytes e1] e2].
    destruct (ratelimit.Allow _ _ _ _) as [res buckets']. cbn. repeat split.
  - repeat split.
  - repeat split.
  - repeat split.
  - repeat split.
Qed.

(** An execution that creates nothing leaves the table and the queue as
    the replay of its events does, and the clock where it was. *)
Lemma exec_replay {A : Type} (p : Prog A) :
  forall w : World,
    (forall ev, In ev (snd (exec (run_op cfg) p w)) -> is_create ev = false) ->
    clock (snd (fst (exec (run_op cfg) p w))) = clock w /\
    tasks (snd (fst (exec (run_op cfg) p w)))
      = replay_tasks cfg (snd (exec (run_op cfg) p w)) (tasks w) /\
    table (snd (fst (exec (run_op cfg) p w)))
      = replay_table (clock w) (snd (exec (run_op cfg) p w)) (table w).
Proof.
  induction p as [a|R op k IH]; intros w Hnc.
  - cbn. repeat split.
  - cbn [exec] in *. pose proof (run_op_effect R op w) as He.
    destruct (run_op cfg R op w) as [r w1]. destruct He as (Hc & Ht & Htab).
    specialize (IH r w1).
    destruct (exec (run_op cfg) (k r) w1) as [[a w2] evs]. cbn in *.
    destruct IH as (IH1 & IH2 & IH3); [intros ev Hin; apply Hnc; right; exact Hin|].
    rewrite IH1, IH2, IH3, Hc, Ht, Htab by (apply Hnc; left; reflexivity).
    repeat split.
Qed.

End system_replay.

Section sweep_system.
Import common notification system.

Variable cfg : Config.

Lemma moved_row_fields (now : Z) (st : NotificationStatus) (row : store.supabaseRow) :
  moved_row now st row =
  {| store.row_ID := store.row_ID row;
     store.row_IdempotencyKey := store.row_IdempotencyKey row;
     store.row_Channel := store.row_Channel row;
     store.row_Type := store.row_Type row;
     store.row_Recipient := store.row_Recipient row;
     store.row_TemplateData := store.row_TemplateData row;
     store.row_ProviderID := store.row_ProviderID row;
     store.row_Status := st;
     store.row_ErrorMessage := store.row_ErrorMessage row;
     store.row_CreatedAt := store.row_CreatedAt row;
     store.row_UpdatedAt := Some now;
     store.row_SentAt := if String.eqb st StatusSent then Some now else store.row_SentAt row;
     store.row_DeliveredAt := store.row_DeliveredAt row;
     store.row_OpenedAt := store.row_OpenedAt row;
     store.row_BouncedAt := store.row_BouncedAt row |}.
Proof. unfold moved_row. rewrite apply_status_update. reflexivity. Qed.

Lemma moved_row_idem (now : Z) (st : NotificationStatus) (row : store.supabaseRow) :
  moved_row now st (moved_row now st row) = moved_row now st row.
Proof. rewrite !moved_row_fields. cbn. destruct (String.eqb st StatusSent); reflexivity. Qed.

Lemma moved_row_id (now : Z) (st : NotificationStatus) (row : store.supabaseRow) :
  store.row_ID (moved_row now st row) = store.row_ID row.
Proof. rewrite moved_row_fields. reflexivity. Qed.

(** Replaying events among which only moves to [st] were accepted leaves
    each row as it was or moved, and moved when a move of its id was
    accepted. *)
Lemma replay_moved (now : Z) (st : NotificationStatus) (evs : list Event) :
  forall (table : list store.supabaseRow) (i : nat) (row : store.supabaseRow),
    (forall ev, In ev evs -> accepts_only st ev = true) ->
    table !! i = Some row ->
    exists row',
      replay_table now evs table !! i = Some row' /\
      (row' = row \/ row' = moved_row now st row) /\
      (In (EvUpdateStatus (store.row_ID row) st "" "" None) evs ->
       row' = moved_row now st row).
Proof.
  induction evs as [|ev evs IH]; intros table i row Hev Hi.
  - exists row. cbn. split; [exact Hi|]. split; [left; reflexivity|intros []].
  - assert (Hstep : exists row1,
              table_after now ev table !! i = Some row1 /\
              (row1 = row \/ row1 = moved_row now st row) /\
              (ev = EvUpdateStatus (store.row_ID row) st "" "" None ->
               row1 = moved_row now st row)).
    { pose proof (Hev ev (or_introl eq_refl)) as Hre.
      destruct ev; try (exists row; cbn; split; [exact Hi|];
                        split; [left; reflexivity|discriminate]).
      destruct res as [e|].
      - exists row. cbn. split; [exact Hi|]. split; [left; reflexivity|discriminate].
      - cbn in Hre. apply andb_true_iff in Hre as [Hre Hm].
        apply andb_true_iff in Hre as [Hs Hp].
        apply String.eqb_eq in Hs, Hp, Hm. subst status providerID errMsg.
        cbn. unfold store.update_where. rewrite lookup_map, Hi. cbn.
        fold (moved_row now st row).
        destruct (store.has_id id row) eqn:Hid.
        + eexists. split; [reflexivity|]. split; [right; reflexivity|reflexivity].
        + exists row. split; [reflexivity|]. split; [left; reflexivity|].
          intros Heq. inversion Heq; subst id. unfold store.has_id in Hid.
          rewrite String.eqb_refl in Hid. discriminate Hid. }
    destruct Hstep as (row1 & Hi1 & Hrow1 & Hnow1).
    destruct (IH (table_after now ev table) i row1) as (row' & Hi' & Hrow' & Hin');
      [intros ev' Hin; apply Hev; right; exact Hin|exact Hi1|].
    exists row'. split; [exact Hi'|].
    assert (Hid1 : store.row_ID row1 = store.row_ID row).
    { destruct Hrow1 as [->| ->]; [reflexivity|apply moved_row_id]. }
    split.
    + destruct Hrow1 as [->| ->]; [exact Hrow'|].
      right. destruct Hrow' as [->| ->]; [reflexivity|apply moved_row_idem].
    + intros [Heq|Hin].
      * specialize (Hnow1 Heq). subst row1.
        destruct Hrow' as [->| ->]; [reflexivity|apply moved_row_idem].
      * rewrite Hid1 in Hin'. specialize (Hin' Hin). subst row'.
        destruct Hrow1 as [->| ->]; [reflexivity|apply moved_row_idem].
Qed.

Lemma reaper_event_accepts (ev : Event) :
  reaper_event ev = true -> accepts_only StatusQueued ev = true.
Proof.
  destruct ev; cbn; try reflexivity; try discriminate.
  destruct res; [reflexivity|]. trivial.
Qed.

Lemma replay_tasks_keeps (evs : list Event) :
  forall (tasks : list asynq.Task) (t : asynq.Task),
    In t tasks -> In t (replay_tasks cfg evs tasks).
Proof.
  induction evs as [|ev evs IH]; intros tasks t Hin; [exact Hin|].
  cbn. apply IH. destruct ev; try exact Hin. destruct res; [exact Hin|].
  cbn. apply in_or_app. left. exact Hin.
Qed.

Lemma replay_tasks_enqueued (evs : list Event) :
  forall (tasks : list asynq.Task) (id : string),
    In (EvEnqueue id None) evs -> In (send_task cfg id) (replay_tasks cfg evs tasks).
Proof.
  induction evs as [|ev evs IH]; intros tasks id; [intros []|]. intros [Heq|Hin].
  - subst ev. cbn. apply replay_tasks_keeps. apply in_or_app. right. left. reflexivity.
  - cbn. apply IH. exact Hin.
Qed.

(** C5 as the code has it. For each record a sweep re-enqueues, the
    reaper first has the store accept [UpdateStatus(id, queued, "", "")]
    and directly afterwards enqueues the task of that id; in the system
    the row of that id then has status [queued] and [updated_at] set to
    the time of the sweep, its [error_message] and [provider_id] are what
    they were (the update names neither column, so nothing is cleared),
    and the queue holds the task. *)
Theorem sweep_resets_then_requeues (r : Reaper) (w : World) (id : string) :
  In (EvEnqueue id None) (snd (exec (run_op cfg) (sweep r) w)) ->
  (exists pre post,
     snd (exec (run_op cfg) (sweep r) w)
       = pre ++ EvUpdateStatus id StatusQueued "" "" None :: EvEnqueue id None :: post) /\
  (forall i row,
     table w !! i = Some row -> store.row_ID row = id ->
     exists row',
       table (snd (fst (exec (run_op cfg) (sweep r) w))) !! i = Some row' /\
       store.row_ID row' = id /\
       store.row_Status row' = StatusQueued /\
       store.row_UpdatedAt row' = Some (clock w) /\
       store.row_ErrorMessage row' = store.row_ErrorMessage row /\
       store.row_ProviderID row' = store.row_ProviderID row) /\
  In {| asynq.Typename := "notification:send";
        asynq.Payload := marshal_payload {| LogID := id |};
        asynq.MaxRetry := maxRetry cfg;
        asynq.Queue := "notifications" |}
     (tasks (snd (fst (exec (run_op cfg) (sweep r) w)))).
Proof.
  intros Hin.
  destruct (sweep_events (run_op cfg) r w) as (T1 & T2 & _).
  assert (Hnc : forall ev, In ev (snd (exec (run_op cfg) (sweep r) w)) -> is_create ev = false).
  { intros ev Hev. apply T1 in Hev. destruct ev; try reflexivity. discriminate Hev. }
  destruct (exec_replay cfg (sweep r) w Hnc) as (_ & Htasks & Htable).
  destruct (T2 id None Hin) as (pre & post & Hdec).
  split; [exists pre, post; exact Hdec|]. split.
  - intros i row Hi Hid.
    destruct (replay_moved (clock w) StatusQueued (snd (exec (run_op cfg) (sweep r) w))
                (table w) i row) as (row' & Hi' & _ & Hreset);
      [intros ev Hev; apply reaper_event_accepts, T1, Hev|exact Hi|].
    exists row'. rewrite Htable. split; [exact Hi'|].
    rewrite Hreset.
    + rewrite moved_row_fields. cbn. repeat split; try reflexivity. exact Hid.
    + rewrite Hid, Hdec. apply in_or_app. right. left. reflexivity.
  - rewrite Htasks. apply (replay_tasks_enqueued _ (tasks w) id Hin).
Qed.

End sweep_system.

(** ** The worker in the wired system *)

Section worker_system.
Import common notification system.

Variable cfg : Config.

Lemma before_send_accepts (ev : Event) :
  before_send ev = true -> accepts_only StatusProcessing ev = true.
Proof.
  destruct ev; cbn; try reflexivity; try discriminate.
  destruct res; [reflexivity|]. trivial.
Qed.

(** When the provider took the message and the store then refused the
    update to [sent], every row of the table is as it was before the
    task, or only moved to [processing]: no row was marked sent and no
    provider id was stored. *)
Lemma ProcessTask_failed_sent_update_keeps_rows (wk : Worker) (logID : string) (w : World)
    (channel : Channel) (msg : Message) (providerID : string) (uerr : error) :
  In (EvSend channel msg (providerID, None)) (snd (exec (run_op cfg) (ProcessTask wk logID) w)) ->
  In (EvUpdateStatus logID StatusSent providerID "" (Some uerr))
     (snd (exec (run_op cfg) (ProcessTask wk logID) w)) ->
  forall i row,
    table w !! i = Some row ->
    exists row',
      table (snd (fst (exec (run_op cfg) (ProcessTask wk logID) w))) !! i = Some row' /\
      (row' = row \/ row' = moved_row (clock w) StatusProcessing row).
Proof.
  intros Hsend Hupd i row Hi.
  destruct (ProcessTask_send_ok_shape (run_op cfg) wk logID w channel msg providerID Hsend)
    as (_ & pre & ures & t & args & Htr & Hpre).
  assert (Hures : exists e, ures = Some e).
  { destruct ures as [e|]; [exists e; reflexivity|].
    rewrite Htr in Hupd. apply in_app_or in Hupd as [Hin|Hin].
    - apply Hpre in Hin. discriminate Hin.
    - cbn in Hin. destruct Hin as [Hin|[Hin|[Hin|[Hin|[]]]]]; discriminate Hin. }
  destruct Hures as (e & ->).
  assert (Hacc : forall ev, In ev (snd (exec (run_op cfg) (ProcessTask wk logID) w)) ->
                            accepts_only StatusProcessing ev = true).
  { intros ev Hin. rewrite Htr in Hin. apply in_app_or in Hin as [Hin|Hin].
    - apply before_send_accepts, Hpre, Hin.
    - cbn in Hin. destruct Hin as [<-|[<-|[<-|[<-|[<-|[]]]]]]; reflexivity. }
  assert (Hnc : forall ev, In ev (snd (exec (run_op cfg) (ProcessTask wk logID) w)) ->
                           is_create ev = false).
  { intros ev Hin. apply Hacc in Hin. destruct ev; try reflexivity. discriminate Hin. }
  destruct (exec_replay cfg (ProcessTask wk logID) w Hnc) as (_ & _ & Htable).
  destruct (replay_moved (clock w) StatusProcessing _ (table w) i row Hacc Hi)
    as (row' & Hi' & Hrow' & _).
  exists row'. rewrite Htable. split; [exact Hi'|exact Hrow'].
Qed.

End worker_system.

Section sweep_sample.
Import common notification system sample.

Lemma sweep_resets_then_requeues_witness :
  In (EvEnqueue "id-9" None)
     (snd (exec (run_op cfg) (sweep reaper) (set_clock (T0 + 5 * go.Minute) stuck))) /\
  In (send_task cfg "id-9")
     (tasks (snd (fst (exec (run_op cfg) (sweep reaper) (set_clock (T0 + 5 * go.Minute) stuck))))).
Proof.
  assert (H : In (EvEnqueue "id-9" None)
                 (snd (exec (run_op cfg) (sweep reaper) (set_clock (T0 + 5 * go.Minute) stuck))))
    by (vm_compute; do 4 right; left; reflexivity).
  split; [exact H|].
  exact (proj2 (proj2 (sweep_resets_then_requeues cfg reaper
                         (set_clock (T0 + 5 * go.Minute) stuck) "id-9" H))).
Defined.

(** The stuck record is recovered with the error message of its earlier
    failure (and the provider id of an earlier attempt) still on it: the
    reaper clears neither. *)
Lemma sweep_keeps_error_message :
  let w' := snd (fst (exec (run_op cfg) (sweep reaper) (set_clock (T0 + 5 * go.Minute) stuck))) in
  In (EvEnqueue "id-9" None)
     (snd (exec (run_op cfg) (sweep reaper) (set_clock (T0 + 5 * go.Minute) stuck))) /\
  map (fun row => (store.row_ID row, store.row_Status row, store.row_UpdatedAt row))
      (table w') = [("id-9", "queued", Some (T0 + 5 * go.Minute))] /\
  map store.row_ErrorMessage (table w') = [Some "provider error: resend: rate limited"] /\
  map store.row_ErrorMessage (table w') <> [None] /\
  map store.row_ProviderID (table w') = [Some "re_old"].
Proof.
  repeat split; try (vm_compute; reflexivity).
  - vm_compute. do 4 right. left. reflexivity.
  - vm_compute. discriminate.
Qed.

End sweep_sample.

(** ** Two intakes with one idempotency key *)

Section two_intakes.
Import common notification system.

Variable cfg : Config.
Variable key : string.
Hypothesis key_nonempty : key <> "".

Lemma keeps_rows_refl (t : list store.supabaseRow) : keeps_rows key t t.
Proof. intros id H. exact H. Qed.

Lemma keeps_rows_trans (t1 t2 t3 : list store.supabaseRow) :
  keeps_rows key t1 t2 -> keeps_rows key t2 t3 -> keeps_rows key t1 t3.
Proof. intros H12 H23 id H. apply H23, H12, H. Qed.

(** Safety survives what the other call does. *)
Lemma safe_stable (p : Prog Result) (w w' : World) :
  safe cfg key p w -> keeps_rows key (table w) (table w') -> safe cfg key p w'.
Proof.
  destruct p as [res|R op k]; cbn.
  - intros Hs Hk r Hr. apply Hk, Hs, Hr.
  - intros [Hc Hs] Hk. split; [exact Hc|].
    intros w'' Hk' Hu. apply Hs; [|exact Hu]. eapply keeps_rows_trans; eassumption.
Qed.

Lemma safe_error (e : option error) (w : World) : safe cfg key (Ret (None, e)) w.
Proof. cbn. intros r Hr. discriminate Hr. Qed.

Lemma omap_key_update_where (sel : store.supabaseRow -> bool) (u : gmap string store.value)
    (t : list store.supabaseRow) :
  omap store.row_IdempotencyKey (store.update_where sel u t) = omap store.row_IdempotencyKey t.
Proof.
  unfold store.update_where. induction t as [|row t IH]; [reflexivity|].
  cbn. rewrite IH. destruct (sel row); reflexivity.
Qed.

Lemma has_row_update_where (sel : store.supabaseRow -> bool) (u : gmap string store.value)
    (t : list store.supabaseRow) (id : string) :
  store.has_row id key t -> store.has_row id key (store.update_where sel u t).
Proof.
  intros (row & Hin & Hid & Hk). unfold store.update_where.
  exists (if sel row then store.apply_update u row else row). split.
  - apply in_map_iff. exists row. split; [reflexivity|exact Hin].
  - destruct (sel row); cbn; auto.
Qed.

Lemma existsb_has_key (k : string) (t : list store.supabaseRow) :
  existsb (store.has_key k) t = false -> ~ In k (omap store.row_IdempotencyKey t).
Proof.
  induction t as [|row t IH]; cbn; [tauto|].
  intros H. apply orb_false_iff in H as [Hrow Ht].
  unfold store.has_key in Hrow.
  destruct (store.row_IdempotencyKey row) as [k'|] eqn:Ek; cbn.
  - intros [Heq|Hin]; [|exact (IH Ht Hin)].
    subst k'. rewrite String.eqb_refl in Hrow. discriminate Hrow.
  - exact (IH Ht).
Qed.

Lemma has_row_existsb (id : string) (t : list store.supabaseRow) :
  store.has_row id key t -> existsb (store.has_key key) t = true.
Proof.
  intros (row & Hin & _ & Hk). apply existsb_exists. exists row. split; [exact Hin|].
  unfold store.has_key. rewrite Hk. apply String.eqb_refl.
Qed.

(** What [insert] guarantees about the row it accepts. *)
Lemma insert_accepts (uuid : string) (now : Z) (row created : store.supabaseRow)
    (t : list store.supabaseRow) :
  store.insert uuid now row t = inl created ->
  store.row_IdempotencyKey created = store.row_IdempotencyKey row /\
  match store.row_IdempotencyKey row with
  | Some k => existsb (store.has_key k) t = false
  | None => True
  end.
Proof.
  unfold store.insert.
  destruct (negb _); [discriminate|].
  destruct (existsb (store.has_id _) t); [discriminate|]. cbn.
  destruct (store.row_IdempotencyKey row) as [k|] eqn:Ek.
  - destruct (existsb (store.has_key k) t) eqn:Ex; [discriminate|].
    intros H. inversion H; subst created. cbn. auto.
  - intros H. inversion H; subst created. cbn. auto.
Qed.


(** What any call of either intake guarantees the other. *)
Lemma run_op_guarantee (R : Type) (op : Op R) (w : World) (n0 : nat) :
  store.unique_keys (table w) ->
  creates_only key op ->
  keeps_rows key (table w) (table (snd (run_op cfg R op w))) /\
  store.unique_keys (table (snd (run_op cfg R op w))) /\
  (one_more key n0 (table w) -> one_more key n0 (table (snd (run_op cfg R op w)))).
Proof.
  intros Hu Hc.
  assert (Hsame : forall w1 : World, table w1 = table w ->
            keeps_rows key (table w) (table w1) /\ store.unique_keys (table w1) /\
            (one_more key n0 (table w) -> one_more key n0 (table w1))).
  { intros w1 ->. split; [apply keeps_rows_refl|]. split; [exact Hu|tauto]. }
  destruct op; cbn in *; try (apply Hsame; reflexivity).
  - (* Create *)
    unfold store.Create.
    destruct (next_fault (store_faults w)); cbn; [apply Hsame; reflexivity|].
    destruct (store.insert _ _ _ _) as [created|err] eqn:Ei; cbn; [|apply Hsame; reflexivity].
    apply insert_accepts in Ei as [Hk Hex]. cbn in Hk, Hex. rewrite Hc in Hk, Hex.
    destruct (String.eqb key "") eqn:Ek; [apply String.eqb_eq in Ek; contradiction|].
    cbn in Hk, Hex.
    split; [|split].
    + intros id (row & Hin & Hid & Hrk). exists row. split; [|auto].
      apply in_or_app. left. exact Hin.
    + unfold store.unique_keys. rewrite omap_app. cbn. rewrite Hk. cbn.
      apply NoDup_app. split; [exact Hu|]. split; [|apply NoDup_singleton].
      intros k Hin Hin'. apply list_elem_of_In in Hin. apply list_elem_of_In in Hin'.
      destruct Hin' as [<-|[]]. exact (existsb_has_key key _ Hex Hin).
    + intros [Hlen|[Hlen (id & Hrow)]].
      * right. split; [rewrite length_app; cbn; lia|].
        exists (store.row_ID created), created. split; [|auto].
        apply in_or_app. right. left. reflexivity.
      * apply has_row_existsb in Hrow. congruence.
  - (* UpdateStatus *)
    unfold store.UpdateStatus.
    destruct (next_fault (store_faults w)); cbn; [apply Hsame; reflexivity|].
    split; [|split].
    + intros id' H. apply has_row_update_where, H.
    + unfold store.unique_keys. rewrite omap_key_update_where. exact Hu.
    + intros [Hlen|[Hlen (id' & Hrow)]].
      * left. unfold store.update_where. rewrite length_map. exact Hlen.
      * right. split; [unfold store.update_where; rewrite length_map; exact Hlen|].
        exists id'. apply has_row_update_where, Hrow.
  - (* Enqueue *)
    unfold queue.EnqueueSendNotification.
    destruct (next_fault (queue_faults w)); cbn; apply Hsame; reflexivity.
  - (* Allow *)
    destruct (hd _ (limiter_draws w)) as [[bytes e1] e2].
    destruct (ratelimit.Allow _ _ _ _) as [res buckets']. cbn. apply Hsame. reflexivity.
Qed.


Section one_intake.

Variable s : Service.
Variable req : SendRequest.
Hypothesis req_key : req_IdempotencyKey req = key.

Ltac safe_err := cbn; let r := fresh in let Hr := fresh in intros r Hr; discriminate Hr.

Lemma safe_create (w : World) : safe cfg key (Enqueue_create req) w.
Proof.
  unfold Enqueue_create. cbn. split; [exact req_key|].
  intros w' _ _. unfold store.Create.
  destruct (next_fault (store_faults w')); cbn; [safe_err|].
  destruct (store.insert _ _ _ _) as [created|err] eqn:Ei; cbn; [|safe_err].
  apply insert_accepts in Ei as [Hk _]. cbn in Hk. rewrite req_key in Hk.
  destruct (String.eqb key "") eqn:Ek; [apply String.eqb_eq in Ek; contradiction|].
  cbn in Hk.
  assert (Hrow : store.has_row (store.row_ID created) key (table w' ++ [created])).
  { exists created. split; [apply in_or_app; right; left; reflexivity|auto]. }
  split; [exact I|]. intros w1 Hk1 _.
  unfold queue.EnqueueSendNotification.
  destruct (next_fault (queue_faults w1)); cbn.
  - split; [exact I|]. intros w2 _ _. unfold store.UpdateStatus.
    destruct (next_fault (store_faults w2)); cbn; intros r Hr; discriminate Hr.
  - split; [exact I|]. intros w2 Hk2 _. cbn. intros r Hr. inversion Hr; subst r. cbn.
    apply Hk2. cbn. apply Hk1. cbn. exact Hrow.
Qed.

Lemma safe_ratelimit (w : World) : safe cfg key (Enqueue_ratelimit s req) w.
Proof.
  unfold Enqueue_ratelimit. destruct (rateLimiter s); [|apply safe_create].
  cbn. split; [exact I|]. intros w' _ _.
  destruct (hd _ (limiter_draws w')) as [[bytes e1] e2].
  destruct (ratelimit.Allow _ _ _ _) as [[allowed [err|]] buckets']; cbn.
  - split; [exact I|]. intros w1 _ _. cbn. apply safe_create.
  - destruct allowed; cbn; [apply safe_create|safe_err].
Qed.

Lemma safe_Enqueue (w : World) : safe cfg key (Enqueue s req) w.
Proof.
  unfold Enqueue. destruct (IsValidType (req_Type req)); cbn; [|safe_err].
  unfold Enqueue_idempotency. rewrite req_key.
  destruct (String.eqb key "") eqn:Ek; [apply String.eqb_eq in Ek; contradiction|].
  cbn. split; [exact I|]. intros w' _ _. unfold store.GetByIdempotencyKey.
  destruct (next_fault (store_faults w')); cbn.
  - split; [exact I|]. intros w1 _ _. cbn. apply safe_ratelimit.
  - destruct (List.filter (store.has_key key) (table w')) as [|row rest] eqn:Ef; cbn.
    + apply safe_ratelimit.
    + assert (Hin : In row (List.filter (store.has_key key) (table w')))
        by (rewrite Ef; left; reflexivity).
      apply filter_In in Hin as [Hin Hk]. unfold store.has_key in Hk.
      destruct (store.row_IdempotencyKey row) as [k|] eqn:Erk; [|discriminate Hk].
      apply String.eqb_eq in Hk. subst k.
      split; [exact I|]. intros w1 Hk1 _. cbn. intros r Hr. inversion Hr; subst r. cbn.
      apply Hk1. cbn. exists row. auto.
Qed.

End one_intake.

(** With unique keys, the rows that carry the key are one row. *)
Lemma unique_key_same_id (t : list store.supabaseRow) (id1 id2 : string) :
  store.unique_keys t -> store.has_row id1 key t -> store.has_row id2 key t -> id1 = id2.
Proof.
  intros Hu (r1 & Hin1 & Hid1 & Hk1) (r2 & Hin2 & Hid2 & Hk2).
  assert (Heq : r1 = r2); [|congruence].
  unfold store.unique_keys in Hu.
  induction t as [|row t IH]; [destruct Hin1|].
  assert (Hmem : forall r, In r t -> store.row_IdempotencyKey r = Some key ->
                           In key (omap store.row_IdempotencyKey t)).
  { clear. induction t as [|row t IH]; cbn; [tauto|].
    intros r [<-|Hin] Hk.
    - rewrite Hk. left. reflexivity.
    - destruct (store.row_IdempotencyKey row); [right|]; eapply IH; eassumption. }
  cbn in Hu. destruct Hin1 as [<-|Hin1], Hin2 as [<-|Hin2].
  - reflexivity.
  - rewrite Hk1 in Hu. apply NoDup_cons in Hu as [Hnot _].
    exfalso. apply Hnot. apply list_elem_of_In. eapply Hmem; eassumption.
  - rewrite Hk2 in Hu. apply NoDup_cons in Hu as [Hnot _].
    exfalso. apply Hnot. apply list_elem_of_In. eapply Hmem; eassumption.
  - apply IH; try assumption.
    destruct (store.row_IdempotencyKey row); [apply NoDup_cons in Hu as [_ Hu]|]; exact Hu.
Qed.

Lemma step_in_flight (n0 : nat) (p q : Prog Result) (w : World) :
  store.unique_keys (table w) -> one_more key n0 (table w) ->
  safe cfg key p w -> safe cfg key q w ->
  let '(p', w') := step (run_op cfg) p w in
  store.unique_keys (table w') /\ one_more key n0 (table w') /\
  safe cfg key p' w' /\ safe cfg key q w'.
Proof.
  intros Hu Ho Hp Hq. destruct p as [res|R op k]; cbn.
  - auto.
  - destruct Hp as [Hc Hp].
    destruct (run_op_guarantee R op w n0 Hu Hc) as (Hk & Hu' & Ho').
    specialize (Hp w (keeps_rows_refl _) Hu).
    destruct (run_op cfg R op w) as [r w1]. cbn in *.
    split; [exact Hu'|]. split; [exact (Ho' Ho)|]. split; [exact Hp|].
    eapply safe_stable; eassumption.
Qed.

Lemma move_in_flight (n0 : nat) (st : Prog Result * Prog Result * World) (m : Move) :
  in_flight cfg key n0 st -> in_flight cfg key n0 (move cfg st m).
Proof.
  destruct st as [[p1 p2] w]. intros (Hu & Ho & H1 & H2). destruct m; cbn.
  - pose proof (step_in_flight n0 p1 p2 w Hu Ho H1 H2) as H.
    destruct (step (run_op cfg) p1 w) as [p1' w']. exact H.
  - pose proof (step_in_flight n0 p2 p1 w Hu Ho H2 H1) as H.
    destruct (step (run_op cfg) p2 w) as [p2' w']. cbn. tauto.
  - split; [exact Hu|]. split; [exact Ho|].
    split; eapply safe_stable; try eassumption; apply keeps_rows_refl.
Qed.

Lemma interleave_in_flight (n0 : nat) (sched : list Move) :
  forall st, in_flight cfg key n0 st -> in_flight cfg key n0 (interleave cfg sched st).
Proof.
  induction sched as [|m sched IH]; intros st H; [exact H|].
  cbn. apply IH, move_in_flight, H.
Qed.

(** *** A call that finds the record, and a call whose [Create] is refused *)

Lemma interleave_app {A B : Type} (pre post : list Move) (st : Prog A * Prog B * World) :
  interleave cfg (pre ++ post) st = interleave cfg post (interleave cfg pre st).
Proof. unfold interleave. apply fold_left_app. Qed.

Lemma interleave_cons {A B : Type} (m : Move) (sched : list Move)
    (st : Prog A * Prog B * World) :
  interleave cfg (m :: sched) st = interleave cfg sched (move cfg st m).
Proof. reflexivity. Qed.

Lemma interleave_mirror {A B : Type} (sched : list Move) :
  forall st : Prog A * Prog B * World,
    interleave cfg (map mirror_move sched) (mirror st) = mirror (interleave cfg sched st).
Proof.
  induction sched as [|m sched IH]; intros [[p1 p2] w]; [reflexivity|].
  cbn [map]. rewrite !interleave_cons, <- IH. f_equal.
  destruct m; cbn; [destruct (step _ p1 w)|destruct (step _ p2 w)|]; reflexivity.
Qed.

Lemma in_flight_mirror (n0 : nat) (st : Prog Result * Prog Result * World) :
  in_flight cfg key n0 st -> in_flight cfg key n0 (mirror st).
Proof. destruct st as [[p1 p2] w]. cbn. tauto. Qed.

(** A call that has returned stays as it is. *)
Lemma right_returned_stays {A B : Type} (res : B) (post : list Move) :
  forall (p1 : Prog A) (w : World),
    snd (fst (interleave cfg post (p1, Ret res, w))) = Ret res.
Proof.
  induction post as [|m post IH]; intros p1 w; [reflexivity|].
  rewrite interleave_cons.
  destruct m; cbn [move step]; [destruct (step _ p1 w)| |]; apply IH.
Qed.

(** A call one call away from returning [res] returns it at its next
    move, and nothing else before. *)
Lemma right_last_call {A B R : Type} (op : Op R) (k : R -> Prog B) (res : B)
    (post : list Move) :
  (forall x, k x = Ret res) ->
  forall (p1 : Prog A) (w : World),
    (In Right post ->
     returned (snd (fst (interleave cfg post (p1, Do op k, w)))) = Some res) /\
    (forall res', returned (snd (fst (interleave cfg post (p1, Do op k, w)))) = Some res' ->
                  res' = res).
Proof.
  intros Hk. induction post as [|m post IH]; intros p1 w.
  - split; [intros []|]. cbn. discriminate.
  - rewrite interleave_cons. destruct m; cbn [move].
    + destruct (step _ p1 w) as [p1' w']. destruct (IH p1' w') as [H1 H2].
      split; [|exact H2]. intros [Hm|Hin]; [discriminate Hm|exact (H1 Hin)].
    + cbn [step]. destruct (run_op cfg R op w) as [r w']. rewrite Hk.
      rewrite right_returned_stays. cbn. split; [reflexivity|congruence].
    + destruct (IH p1 (set_clock (clock w + Z.max 0 d) w)) as [H1 H2].
      split; [|exact H2]. intros [Hm|Hin]; [discriminate Hm|exact (H1 Hin)].
Qed.

(** The lookup of a call that finds a row with the key: what is left of
    the call is the log line, then the response naming the row. *)
Lemma lookup_finds (s : Service) (req : SendRequest) (w : World) (id : string) :
  req_IdempotencyKey req = key ->
  IsValidType (req_Type req) = true ->
  store.unique_keys (table w) ->
  next_fault (store_faults w) = None ->
  store.has_row id key (table w) ->
  exists (r : SendResponse) (lvl : Level) (msg : string) (args : list (string * any))
         (k : unit -> Prog Result),
    fst (step (run_op cfg) (Enqueue s req) w) = Do (slog lvl msg args) k /\
    (forall x, k x = Ret (Some r, None)) /\ resp_ID r = id.
Proof.
  intros Hkey Hvalid Hu Hf Hrow.
  unfold Enqueue. rewrite Hvalid. cbn [negb]. unfold Enqueue_idempotency. rewrite Hkey.
  destruct (String.eqb key "") eqn:Ek; [apply String.eqb_eq in Ek; contradiction|].
  cbn. unfold store.GetByIdempotencyKey. rewrite Hf.
  destruct (List.filter (store.has_key key) (table w)) as [|row rest] eqn:Ef.
  - exfalso. apply has_row_existsb in Hrow. apply existsb_exists in Hrow as (x & Hin & Hx).
    assert (Hx' : In x (List.filter (store.has_key key) (table w)))
      by (apply filter_In; split; assumption).
    rewrite Ef in Hx'. destruct Hx'.
  - assert (Hin : In row (List.filter (store.has_key key) (table w)))
      by (rewrite Ef; left; reflexivity).
    apply filter_In in Hin as [Hin Hk]. unfold store.has_key in Hk.
    destruct (store.row_IdempotencyKey row) as [k'|] eqn:Erk; [|discriminate Hk].
    apply String.eqb_eq in Hk. subst k'.
    cbn. eexists _, _, _, _, _. split; [reflexivity|]. split; [reflexivity|].
    cbn. apply (unique_key_same_id (table w)); [exact Hu| |exact Hrow].
    exists row. auto.
Qed.

(** [Create] with the key is refused while a row carries the key. *)
Lemma Create_refused (fault : option error) (uuid : string) (now : Z) (log : NotificationLog)
    (t : list store.supabaseRow) (id : string) :
  log_IdempotencyKey log = key ->
  store.has_row id key t ->
  exists err, store.Create fault uuid now log t = (log, Some err, t).
Proof.
  intros Hkey Hrow. unfold store.Create. destruct fault as [f|]; [eexists; reflexivity|].
  destruct (store.insert _ _ _ _) as [created|err] eqn:Ei; [|eexists; reflexivity].
  exfalso. apply insert_accepts in Ei as [_ Hex]. cbn in Hex. rewrite Hkey in Hex.
  destruct (String.eqb key "") eqn:Ek; [apply String.eqb_eq in Ek; contradiction|].
  cbn in Hex. apply has_row_existsb in Hrow. congruence.
Qed.

Lemma right_replay_served (s : Service) (req : SendRequest) (p1 : Prog Result) (w : World)
    (post : list Move) (id : string) :
  req_IdempotencyKey req = key ->
  IsValidType (req_Type req) = true ->
  store.unique_keys (table w) ->
  next_fault (store_faults w) = None ->
  store.has_row id key (table w) ->
  exists r, resp_ID r = id /\
    (In Right post ->
     returned (snd (fst (interleave cfg (Right :: post) (p1, Enqueue s req, w))))
     = Some (Some r, None)) /\
    (forall res,
       returned (snd (fst (interleave cfg (Right :: post) (p1, Enqueue s req, w)))) = Some res ->
       res = (Some r, None)).
Proof.
  intros Hkey Hvalid Hu Hf Hrow.
  destruct (lookup_finds s req w id Hkey Hvalid Hu Hf Hrow)
    as (r & lvl & msg & args & k & Hstep & Hk & Hid).
  exists r. split; [exact Hid|].
  rewrite interleave_cons. cbn [move].
  destruct (step (run_op cfg) (Enqueue s req) w) as [p2 w'] eqn:Es. cbn in Hstep. subst p2.
  exact (right_last_call (slog lvl msg args) k (Some r, None) post Hk p1 w').
Qed.

Lemma right_create_refused (req : SendRequest) (p1 : Prog Result) (w : World)
    (post : list Move) (id : string) :
  req_IdempotencyKey req = key ->
  store.has_row id key (table w) ->
  exists err,
    returned (snd (fst (interleave cfg (Right :: post) (p1, Enqueue_create req, w))))
    = Some (None, Some (Errorf_w "creating notification log: " err)) /\
    table (snd (move cfg (p1, Enqueue_create req, w) Right)) = table w.
Proof.
  intros Hkey Hrow.
  destruct (Create_refused (next_fault (store_faults w)) (hd "" (uuids w)) (clock w)
              (new_log req) (table w) id Hkey Hrow) as (err & Hc).
  exists err. rewrite interleave_cons.
  unfold Enqueue_create. cbn. rewrite Hc. cbn. rewrite right_returned_stays.
  split; reflexivity.
Qed.

(** C1 as the code has it. Two calls of [Enqueue] whose requests share a
    non-empty idempotency key, run against a table with unique keys
    under any schedule of their calls out (one after the other, or
    interleaved), add at most one row to the table, and when both return
    a response, the two responses carry the same record id. A call of a
    supported type that makes its lookup, without a store error, when a
    row with the key is in the table returns at its next move a response
    with that row's id and no error, and nothing else: a replay after
    the record exists is served the record. A call that comes to its
    [Create] when a row carries the key is refused: it returns the
    wrapped error of the creation and no response, and the table stays
    as it is. *)
Theorem Enqueue_same_key_one_record (s1 s2 : Service) (req1 req2 : SendRequest)
    (w : World) (sched : list Move) :
  req_IdempotencyKey req1 = key ->
  req_IdempotencyKey req2 = key ->
  store.unique_keys (table w) ->
  let st0 := (Enqueue s1 req1, Enqueue s2 req2, w) in
  let st := interleave cfg sched st0 in
  (length (table (snd st)) <= S (length (table w)))%nat /\
  (forall r1 e1 r2 e2,
     returned (fst (fst st)) = Some (Some r1, e1) ->
     returned (snd (fst st)) = Some (Some r2, e2) ->
     resp_ID r1 = resp_ID r2) /\
  (forall pre post id,
     sched = pre ++ Left :: post ->
     fst (fst (interleave cfg pre st0)) = Enqueue s1 req1 ->
     IsValidType (req_Type req1) = true ->
     next_fault (store_faults (snd (interleave cfg pre st0))) = None ->
     store.has_row id key (table (snd (interleave cfg pre st0))) ->
     exists r1, resp_ID r1 = id /\
       (In Left post -> returned (fst (fst st)) = Some (Some r1, None)) /\
       (forall res, returned (fst (fst st)) = Some res -> res = (Some r1, None))) /\
  (forall pre post id,
     sched = pre ++ Right :: post ->
     snd (fst (interleave cfg pre st0)) = Enqueue s2 req2 ->
     IsValidType (req_Type req2) = true ->
     next_fault (store_faults (snd (interleave cfg pre st0))) = None ->
     store.has_row id key (table (snd (interleave cfg pre st0))) ->
     exists r2, resp_ID r2 = id /\
       (In Right post -> returned (snd (fst st)) = Some (Some r2, None)) /\
       (forall res, returned (snd (fst st)) = Some res -> res = (Some r2, None))) /\
  (forall pre post id,
     sched = pre ++ Left :: post ->
     fst (fst (interleave cfg pre st0)) = Enqueue_create req1 ->
     store.has_row id key (table (snd (interleave cfg pre st0))) ->
     exists err,
       returned (fst (fst st)) = Some (None, Some (Errorf_w "creating notification log: " err)) /\
       table (snd (interleave cfg (pre ++ [Left]) st0)) = table (snd (interleave cfg pre st0))) /\
  (forall pre post id,
     sched = pre ++ Right :: post ->
     snd (fst (interleave cfg pre st0)) = Enqueue_create req2 ->
     store.has_row id key (table (snd (interleave cfg pre st0))) ->
     exists err,
       returned (snd (fst st)) = Some (None, Some (Errorf_w "creating notification log: " err)) /\
       table (snd (interleave cfg (pre ++ [Right]) st0)) = table (snd (interleave cfg pre st0))).
Proof.
  intros Hk1 Hk2 Hu st0 st.
  assert (H0 : in_flight cfg key (length (table w)) st0).
  { split; [exact Hu|]. split; [left; reflexivity|].
    split; apply safe_Enqueue; assumption. }
  assert (Huniq : forall pre, store.unique_keys (table (snd (interleave cfg pre st0)))).
  { intros pre. pose proof (interleave_in_flight (length (table w)) pre st0 H0) as H.
    destruct (interleave cfg pre st0) as [[p1 p2] w1]. exact (proj1 H). }
  split; [|split; [|split; [|split; [|split]]]].
  - pose proof (interleave_in_flight (length (table w)) sched st0 H0) as H. fold st in H.
    destruct st as [[p1 p2] w']. destruct H as (_ & Ho & _). cbn.
    destruct Ho as [->|[-> _]]; lia.
  - pose proof (interleave_in_flight (length (table w)) sched st0 H0) as H. fold st in H.
    destruct st as [[p1 p2] w']. destruct H as (Hu' & _ & H1 & H2). cbn.
    intros r1 e1 r2 e2 Hr1 Hr2.
    destruct p1 as [res1|]; [|discriminate Hr1]. destruct p2 as [res2|]; [|discriminate Hr2].
    cbn in *. inversion Hr1; subst res1. inversion Hr2; subst res2.
    apply (unique_key_same_id (table w')); [exact Hu'|apply H1|apply H2]; reflexivity.
  - intros pre post id -> Hat Hvalid Hf Hrow. specialize (Huniq pre).
    subst st. rewrite interleave_app.
    destruct (interleave cfg pre st0) as [[p1 p2] w1]. cbn [fst snd] in Hat, Hf, Hrow, Huniq. subst p1.
    destruct (right_replay_served s1 req1 p2 w1 (map mirror_move post) id Hk1 Hvalid Huniq
                Hf Hrow) as (r & Hid & Hret & Honly).
    change (Right :: map mirror_move post) with (map mirror_move (Left :: post)) in Hret, Honly.
    change (p2, Enqueue s1 req1, w1) with (mirror (Enqueue s1 req1, p2, w1)) in Hret, Honly.
    rewrite interleave_mirror in Hret, Honly.
    destruct (interleave cfg (Left :: post) (Enqueue s1 req1, p2, w1)) as [[q1 q2] w2].
    cbn in Hret, Honly |- *. exists r. split; [exact Hid|]. split; [|exact Honly].
    intros Hin. apply Hret. apply in_map_iff. exists Left. split; [reflexivity|exact Hin].
  - intros pre post id -> Hat Hvalid Hf Hrow. specialize (Huniq pre).
    subst st. rewrite interleave_app.
    destruct (interleave cfg pre st0) as [[p1 p2] w1]. cbn [fst snd] in Hat, Hf, Hrow, Huniq. subst p2.
    exact (right_replay_served s2 req2 p1 w1 post id Hk2 Hvalid Huniq Hf Hrow).
  - intros pre post id -> Hat Hrow. subst st. rewrite !interleave_app.
    destruct (interleave cfg pre st0) as [[p1 p2] w1]. cbn [fst snd] in Hat, Hrow. subst p1.
    destruct (right_create_refused req1 p2 w1 (map mirror_move post) id Hk1 Hrow)
      as (err & Hret & Htab).
    change (Right :: map mirror_move post) with (map mirror_move (Left :: post)) in Hret.
    change (p2, Enqueue_create req1, w1) with (mirror (Enqueue_create req1, p2, w1)) in Hret.
    rewrite interleave_mirror in Hret.
    exists err. split.
    + destruct (interleave cfg (Left :: post) (Enqueue_create req1, p2, w1)) as [[q1 q2] w2].
      exact Hret.
    + change (move cfg (p2, Enqueue_create req1, w1) Right)
        with (interleave cfg (map mirror_move [Left]) (mirror (Enqueue_create req1, p2, w1)))
        in Htab.
      rewrite interleave_mirror in Htab.
      destruct (interleave cfg [Left] (Enqueue_create req1, p2, w1)) as [[q1 q2] w2].
      exact Htab.
  - intros pre post id -> Hat Hrow. subst st. rewrite !interleave_app.
    destruct (interleave cfg pre st0) as [[p1 p2] w1]. cbn [fst snd] in Hat, Hrow. subst p2.
    destruct (right_create_refused req2 p1 w1 post id Hk2 Hrow) as (err & Hret & Htab).
    exists err. split; [exact Hret|exact Htab].
Qed.

End two_intakes.

Section two_intakes_sample.
Import common notification system sample.

(** The replay served, and the race lost: the same request sent again
    after the first call returned gets the id of the record, and a call
    that looked the key up before the other created the record has its
    [Create] refused. *)
Lemma Enqueue_same_key_one_record_witness :
  let replay := [Left; Left; Left; Left; Left; Right; Right] in
  let race := [Left; Right; Left; Left; Left; Left; Right; Right] in
  let st0 := (Enqueue svc signup, Enqueue svc signup, fresh) in
  ("k1" <> "" /\ req_IdempotencyKey signup = "k1" /\ store.unique_keys (table fresh)) /\
  (length (table (snd (interleave cfg replay st0))) <= 1)%nat /\
  (exists r1 r2,
     returned (fst (fst (interleave cfg replay st0))) = Some (Some r1, None) /\
     returned (snd (fst (interleave cfg replay st0))) = Some (Some r2, None) /\
     resp_ID r2 = "id-1" /\ resp_ID r1 = resp_ID r2) /\
  (exists err,
     returned (snd (fst (interleave cfg race st0)))
     = Some (None, Some (Errorf_w "creating notification log: " err))).
Proof.
  intros replay race st0.
  assert (H1 : "k1" <> "") by discriminate.
  assert (H2 : req_IdempotencyKey signup = "k1") by reflexivity.
  assert (H3 : store.unique_keys (table fresh)) by (vm_compute; constructor).
  split; [split; [exact H1|split; [exact H2|exact H3]]|].
  destruct (Enqueue_same_key_one_record cfg "k1" H1 svc svc signup signup fresh replay H2 H2 H3)
    as (Hlen & Hsame & _ & Hright & _ & _).
  destruct (Enqueue_same_key_one_record cfg "k1" H1 svc svc signup signup fresh race H2 H2 H3)
    as (_ & _ & _ & _ & _ & Hrefused).
  split; [exact Hlen|]. split.
  - destruct (Hright [Left; Left; Left; Left; Left] [Right] "id-1") as (r2 & Hid & Hret & _).
    + reflexivity.
    + vm_compute. reflexivity.
    + reflexivity.
    + reflexivity.
    + vm_compute. eexists. split; [left; reflexivity|]. split; reflexivity.
    + assert (Hl : exists r1, returned (fst (fst (interleave cfg replay st0)))
                              = Some (Some r1, None))
        by (vm_compute; eexists; reflexivity).
      destruct Hl as (r1 & Hl). exists r1, r2.
      pose proof (Hret (or_introl eq_refl)) as Hr.
      split; [exact Hl|]. split; [exact Hr|]. split; [exact Hid|].
      exact (Hsame r1 None r2 None Hl Hr).
  - destruct (Hrefused [Left; Right; Left; Left; Left; Left; Right] [] "id-1")
      as (err & Hret & _).
    + reflexivity.
    + vm_compute. reflexivity.
    + vm_compute. eexists. split; [left; reflexivity|]. split; reflexivity.
    + exists err. exact Hret.
Defined.

(** Two intakes of the same request on a healthy system, the second
    looking the key up before the first has created its record: the
    first returns the new record, the second has its [Create] refused by
    the unique key and returns an internal error, not the record's id. *)
Lemma Enqueue_same_key_race :
  let sched := [Left; Right; Left; Left; Left; Left; Right; Right] in
  let st := interleave cfg sched (Enqueue svc signup, Enqueue svc signup, fresh) in
  req_IdempotencyKey signup <> "" /\
  store.unique_keys (table fresh) /\
  returned (fst (fst st))
    = Some (Some {| resp_ID := "id-1"; resp_IdempotencyKey := "k1";
                    resp_Channel := "email"; resp_Status := "queued" |}, None) /\
  (exists err, returned (snd (fst st)) = Some (None, Some err)) /\
  ~ (exists r2 e2, returned (snd (fst st)) = Some (Some r2, e2)) /\
  map store.row_ID (table (snd st)) = ["id-1"].
Proof.
  repeat split.
  - discriminate.
  - vm_compute. constructor.
  - vm_compute. eexists. reflexivity.
  - vm_compute. intros (r2 & e2 & H). discriminate H.
Qed.

End two_intakes_sample.

(** * Further properties of the code *)

(** ** The error handler *)

Section HandleError_more.
Import common.

(** X1. The response of [HandleError] is decided by the innermost error of
    the chain alone: a domain error answers with its own status and, for
    the three client errors, its own message; whatever [fmt.Errorf]
    wrapped around it never reaches the client, and every other error
    answers 500 with a fixed message. *)
Theorem HandleError_innermost {D : Type} (e : error) :
  @HandleError D (Some e) =
  match innermost e with
  | NotFoundError _ _ as l => Error_resp StatusNotFound (Error l)
  | ValidationError _ as l => Error_resp StatusBadRequest (Error l)
  | UnauthorizedError _ as l => Error_resp StatusUnauthorized (Error l)
  | ProviderError _ _ => Error_resp StatusBadGateway "notification delivery failed"
  | _ => Error_resp StatusInternalServerError "internal server error"
  end.
Proof.
  induction e as [r i|m|m|p m|s|n|m e IH]; try reflexivity.
  change (innermost (wrapError m e)) with (innermost e). rewrite <- IH. reflexivity.
Qed.

End HandleError_more.

(** ** More of the store *)

Section store_more.
Import common notification store.

Lemma webhook_update_lookups (now : Z) (status : NotificationStatus) :
  let update := webhook_update now status in
  update !! "status" = Some (VString status) /\
  update !! "updated_at" = Some (VTime now) /\
  update !! "provider_id" = None /\
  update !! "error_message" = None /\
  update !! "sent_at" = None /\
  update !! "delivered_at" =
    (if String.eqb status StatusDelivered then Some (VTime now) else None) /\
  update !! "bounced_at" = (if String.eqb status StatusBounced then Some (VTime now) else None) /\
  update !! "opened_at" = (if String.eqb status StatusOpened then Some (VTime now) else None).
Proof.
  unfold webhook_update.
  destruct (String.eqb status StatusDelivered) eqn:Hd;
    [apply String.eqb_eq in Hd; subst status; cbn
    |destruct (String.eqb status StatusBounced) eqn:Hb;
      [apply String.eqb_eq in Hb; subst status; cbn
      |destruct (String.eqb status StatusOpened) eqn:Ho]];
    repeat split;
    repeat (first [ rewrite lookup_insert_eq
                  | rewrite lookup_insert_ne by discriminate
                  | rewrite lookup_empty ]); reflexivity.
Qed.

(** What an accepted [UpdateWebhookStatus] makes of a row it selects. *)
Lemma apply_webhook_update (now : Z) (status : NotificationStatus) (row : supabaseRow) :
  apply_update (webhook_update now status) row =
  {| row_ID := row_ID row;
     row_IdempotencyKey := row_IdempotencyKey row;
     row_Channel := row_Channel row;
     row_Type := row_Type row;
     row_Recipient := row_Recipient row;
     row_TemplateData := row_TemplateData row;
     row_ProviderID := row_ProviderID row;
     row_Status := status;
     row_ErrorMessage := row_ErrorMessage row;
     row_CreatedAt := row_CreatedAt row;
     row_UpdatedAt := Some now;
     row_SentAt := row_SentAt row;
     row_DeliveredAt := if String.eqb status StatusDelivered then Some now
                        else row_DeliveredAt row;
     row_OpenedAt := if String.eqb status StatusOpened then Some now else row_OpenedAt row;
     row_BouncedAt := if String.eqb status StatusBounced then Some now
                      else row_BouncedAt row |}.
Proof.
  destruct (webhook_update_lookups now status) as (H1 & H2 & H3 & H4 & H5 & H6 & H7 & H8).
  unfold apply_update. rewrite H1, H2, H3, H4, H5, H6, H7, H8.
  destruct (String.eqb status StatusDelivered), (String.eqb status StatusBounced),
    (String.eqb status StatusOpened); reflexivity.
Qed.

Lemma has_provider_id_spec (providerID : string) (row : supabaseRow) :
  has_provider_id providerID row = true <-> row_ProviderID row = Some providerID.
Proof.
  unfold has_provider_id. destruct (row_ProviderID row) as [p|].
  - rewrite String.eqb_eq. split; [intros ->; reflexivity|congruence].
  - split; discriminate.
Qed.

(** X2. An accepted [UpdateWebhookStatus] touches only the rows that
    carry the provider id, and of those only the status, [updated_at]
    and the one timestamp of the status ([delivered_at], [bounced_at] or
    [opened_at]): every other column, and every timestamp already set,
    is kept. *)
Theorem UpdateWebhookStatus_frame (now : Z) (providerID : string)
    (status : NotificationStatus) (table : list supabaseRow) (i : nat) (row : supabaseRow) :
  table !! i = Some row ->
  exists row',
    snd (UpdateWebhookStatus None now providerID status table) !! i = Some row' /\
    (row_ProviderID row <> Some providerID -> row' = row) /\
    (row_ProviderID row = Some providerID ->
       row_Status row' = status /\ row_UpdatedAt row' = Some now /\
       row_DeliveredAt row' =
         (if String.eqb status StatusDelivered then Some now else row_DeliveredAt row) /\
       row_BouncedAt row' =
         (if String.eqb status StatusBounced then Some now else row_BouncedAt row) /\
       row_OpenedAt row' =
         (if String.eqb status StatusOpened then Some now else row_OpenedAt row) /\
       row_ID row' = row_ID row /\ row_IdempotencyKey row' = row_IdempotencyKey row /\
       row_Channel row' = row_Channel row /\ row_Type row' = row_Type row /\
       row_Recipient row' = row_Recipient row /\
       row_TemplateData row' = row_TemplateData row /\
       row_ProviderID row' = row_ProviderID row /\
       row_ErrorMessage row' = row_ErrorMessage row /\
       row_CreatedAt row' = row_CreatedAt row /\ row_SentAt row' = row_SentAt row).
Proof.
  intros Hi. cbn. unfold update_where. rewrite lookup_map, Hi. cbn.
  destruct (has_provider_id providerID row) eqn:Hp.
  - eexists. split; [reflexivity|]. apply has_provider_id_spec in Hp. split.
    + intros Hne. contradiction.
    + intros _. rewrite apply_webhook_update. cbn. repeat split; reflexivity.
  - exists row. split; [reflexivity|]. split; [reflexivity|].
    intros Heq. apply has_provider_id_spec in Heq. congruence.
Qed.

(** A webhook about a message the store has not recorded. *)
Lemma UpdateWebhookStatus_unknown (now : Z) (providerID : string)
    (status : NotificationStatus) (table : list supabaseRow) :
  (forall row, In row table -> row_ProviderID row <> Some providerID) ->
  UpdateWebhookStatus None now providerID status table = (None, table).
Proof.
  intros Hno. cbn. f_equal. unfold update_where.
  induction table as [|row table IH]; [reflexivity|]. cbn.
  rewrite IH by (intros r Hr; apply Hno; right; exact Hr).
  destruct (has_provider_id providerID row) eqn:Hp; [|reflexivity].
  apply has_provider_id_spec in Hp. exfalso. exact (Hno row (or_introl eq_refl) Hp).
Qed.

End store_more.

(** ** The stale listing *)

Section ListStale_props.
Import common notification store.

Lemma StronglySorted_lookup_lt {A : Type} (R : relation A) (l : list A) (i j : nat) (x y : A) :
  StronglySorted R l -> (i < j)%nat -> l !! i = Some x -> l !! j = Some y -> R x y.
Proof.
  intros HS. revert i j. induction HS as [|a l HS IH Hall]; intros i j Hij Hi Hj.
  - discriminate Hi.
  - destruct j as [|j]; [lia|]. cbn in Hj. destruct i as [|i].
    + cbn in Hi. inversion Hi; subst a. rewrite Forall_forall in Hall.
      apply Hall. eapply list_elem_of_lookup_2; exact Hj.
    + cbn in Hi. apply (IH i j); [lia|exact Hi|exact Hj].
Qed.

Lemma updated_before_total (a b : supabaseRow) :
  updated_before a b = true \/ updated_before b a = true.
Proof.
  unfold updated_before. destruct (row_UpdatedAt a), (row_UpdatedAt b); auto.
  destruct (Z.leb_spec z z0); [left; reflexivity|right; apply Z.leb_le; lia].
Qed.

Lemma updated_before_trans (a b c : supabaseRow) :
  updated_before a b = true -> updated_before b c = true -> updated_before a c = true.
Proof.
  unfold updated_before.
  destruct (row_UpdatedAt a), (row_UpdatedAt b), (row_UpdatedAt c); try discriminate; auto.
  rewrite !Z.leb_le. lia.
Qed.

Lemma insert_sorted_perm (row : supabaseRow) (rows : list supabaseRow) :
  Permutation (insert_sorted row rows) (row :: rows).
Proof.
  induction rows as [|r rows IH]; cbn; [reflexivity|].
  destruct (updated_before row r); [reflexivity|].
  rewrite IH. apply perm_swap.
Qed.

Lemma order_by_updated_at_perm (rows : list supabaseRow) :
  Permutation (order_by_updated_at rows) rows.
Proof.
  induction rows as [|r rows IH]; cbn; [reflexivity|].
  fold (order_by_updated_at rows). rewrite insert_sorted_perm, IH. reflexivity.
Qed.

Lemma insert_sorted_sorted (row : supabaseRow) (rows : list supabaseRow) :
  StronglySorted (fun a b => updated_before a b = true) rows ->
  StronglySorted (fun a b => updated_before a b = true) (insert_sorted row rows).
Proof.
  induction 1 as [|r rows Hs IH Hall]; cbn.
  - constructor; [constructor|constructor].
  - destruct (updated_before row r) eqn:Hb.
    + constructor; [constructor; assumption|].
      constructor; [exact Hb|].
      eapply Forall_impl; [exact Hall|]. intros x Hx. cbn in Hx.
      eapply updated_before_trans; eassumption.
    + constructor; [exact IH|].
      rewrite insert_sorted_perm. constructor; [|exact Hall].
      destruct (updated_before_total row r) as [H|H]; congruence.
Qed.

Lemma order_by_updated_at_sorted (rows : list supabaseRow) :
  StronglySorted (fun a b => updated_before a b = true) (order_by_updated_at rows).
Proof.
  induction rows as [|r rows IH]; cbn; [constructor|].
  apply insert_sorted_sorted. exact IH.
Qed.

Lemma is_stale_spec (olderThan : Z) (row : supabaseRow) :
  is_stale olderThan row = true <->
  (row_Status row = StatusQueued \/ row_Status row = StatusProcessing) /\
  exists u, row_UpdatedAt row = Some u /\ u < olderThan.
Proof.
  unfold is_stale. rewrite andb_true_iff, orb_true_iff, !String.eqb_eq.
  destruct (row_UpdatedAt row) as [u|].
  - rewrite Z.ltb_lt. split.
    + intros [Hs Hu]. split; [exact Hs|]. exists u. split; [reflexivity|exact Hu].
    + intros [Hs (u' & Heq & Hu)]. inversion Heq; subst. split; assumption.
  - split; [intros [_ H]; discriminate H|intros [_ (u & H & _)]; discriminate H].
Qed.

(** The rows [ListStale] reads, before they become logs. *)
Lemma ListStale_rows (olderThan limit : Z) (table : list supabaseRow) :
  fst (ListStale None olderThan limit table) =
  map rowToLog
    (take (Z.to_nat (if limit <=? 0 then 50 else limit))
       (order_by_updated_at (List.filter (is_stale olderThan) table))).
Proof. reflexivity. Qed.

Lemma stale_rows_in (olderThan : Z) (n : nat) (table : list supabaseRow) (row : supabaseRow) :
  In row (take n (order_by_updated_at (List.filter (is_stale olderThan) table))) ->
  In row table /\ is_stale olderThan row = true.
Proof.
  intros Hin. apply list_elem_of_In in Hin. apply elem_of_take in Hin as (i & Hi & _).
  apply list_elem_of_lookup_2 in Hi. apply list_elem_of_In in Hi.
  eapply Permutation_in in Hi; [|apply order_by_updated_at_perm].
  apply filter_In in Hi. exact Hi.
Qed.

(** X3. What [ListStale] returns when the round trip succeeds: at most
    [limit] logs (at most 50 when [limit] is not positive), each of a
    row that is [queued] or [processing] and was last updated before
    [olderThan], the least recently updated first. *)
Theorem ListStale_listing (olderThan limit : Z) (table : list supabaseRow) :
  let logs := fst (ListStale None olderThan limit table) in
  Z.of_nat (length logs) <= (if limit <=? 0 then 50 else limit) /\
  (forall l, In l logs ->
     exists row u, In row table /\ l = rowToLog row /\
       (row_Status row = StatusQueued \/ row_Status row = StatusProcessing) /\
       row_UpdatedAt row = Some u /\ u < olderThan) /\
  (forall i j l1 l2, (i <= j)%nat -> logs !! i = Some l1 -> logs !! j = Some l2 ->
     exists u1 u2, log_UpdatedAt l1 = Some u1 /\ log_UpdatedAt l2 = Some u2 /\ u1 <= u2).
Proof.
  cbv zeta. rewrite ListStale_rows.
  set (n := Z.to_nat (if limit <=? 0 then 50 else limit)).
  set (L := order_by_updated_at (List.filter (is_stale olderThan) table)).
  split; [|split].
  - rewrite length_map, length_take.
    assert (Z.of_nat n = if limit <=? 0 then 50 else limit) as <-.
    { subst n. destruct (Z.leb_spec limit 0); lia. }
    lia.
  - intros l Hl. apply in_map_iff in Hl as (row & <- & Hrow).
    apply stale_rows_in in Hrow as [Hin Hst]. apply is_stale_spec in Hst as [Hs (u & Hu & Hlt)].
    exists row, u. repeat split; assumption.
  - intros i j l1 l2 Hij H1 H2.
    rewrite lookup_map in H1, H2.
    destruct (take n L !! i) as [r1|] eqn:E1; [|discriminate].
    destruct (take n L !! j) as [r2|] eqn:E2; [|discriminate].
    cbn in H1, H2. inversion H1; inversion H2; subst l1 l2. cbn.
    assert (Hs1 : is_stale olderThan r1 = true).
    { apply (stale_rows_in olderThan n table). apply list_elem_of_In.
      eapply list_elem_of_lookup_2; exact E1. }
    assert (Hs2 : is_stale olderThan r2 = true).
    { apply (stale_rows_in olderThan n table). apply list_elem_of_In.
      eapply list_elem_of_lookup_2; exact E2. }
    apply is_stale_spec in Hs1 as [_ (u1 & Hu1 & _)].
    apply is_stale_spec in Hs2 as [_ (u2 & Hu2 & _)].
    exists u1, u2. split; [exact Hu1|]. split; [exact Hu2|].
    destruct (decide (i = j)) as [->|Hne].
    + rewrite E1 in E2. inversion E2; subst. rewrite Hu1 in Hu2. inversion Hu2. lia.
    + assert (Hsorted : StronglySorted (fun a b => updated_before a b = true) (take n L)).
      { pose proof (order_by_updated_at_sorted (List.filter (is_stale olderThan) table)) as HS.
        fold L in HS. rewrite <- (take_drop n L) in HS.
        destruct (proj1 (StronglySorted_app _ _ _) HS) as (_ & HS1 & _). exact HS1. }
      assert (Hb : updated_before r1 r2 = true).
      { eapply (StronglySorted_lookup_lt (fun a b => updated_before a b = true));
          [exact Hsorted| |exact E1|exact E2]. lia. }
      unfold updated_before in Hb. rewrite Hu1, Hu2 in Hb. apply Z.leb_le in Hb. exact Hb.
Qed.

(** X4. No stale row is passed over in favour of a fresher one: a stale
    row of the table is in the listing, or the listing is full and
    holds only rows updated no later than it. *)
Theorem ListStale_oldest_first (olderThan limit : Z) (table : list supabaseRow)
    (row : supabaseRow) :
  In row table -> is_stale olderThan row = true ->
  In (rowToLog row) (fst (ListStale None olderThan limit table)) \/
  (Z.of_nat (length (fst (ListStale None olderThan limit table)))
     = (if limit <=? 0 then 50 else limit) /\
   forall l, In l (fst (ListStale None olderThan limit table)) ->
     exists u1 u2, log_UpdatedAt l = Some u1 /\ row_UpdatedAt row = Some u2 /\ u1 <= u2).
Proof.
  intros Hin Hst. rewrite ListStale_rows.
  set (n := Z.to_nat (if limit <=? 0 then 50 else limit)).
  set (L := order_by_updated_at (List.filter (is_stale olderThan) table)).
  assert (HL : In row L).
  { eapply Permutation_in; [symmetry; apply order_by_updated_at_perm|].
    apply filter_In. split; assumption. }
  rewrite <- (take_drop n L) in HL. apply in_app_or in HL as [Ht|Hd].
  - left. apply in_map. exact Ht.
  - right.
    assert (Hlen : (n < length L)%nat).
    { destruct (Nat.lt_ge_cases n (length L)) as [H|H]; [exact H|].
      rewrite drop_ge in Hd by exact H. destruct Hd. }
    split.
    + rewrite length_map, length_take.
      assert (Z.of_nat n = if limit <=? 0 then 50 else limit) as <-.
      { subst n. destruct (Z.leb_spec limit 0); lia. }
      lia.
    + intros l Hl. apply in_map_iff in Hl as (r & <- & Hr).
      pose proof (order_by_updated_at_sorted (List.filter (is_stale olderThan) table)) as HS.
      fold L in HS. rewrite <- (take_drop n L) in HS.
      destruct (proj1 (StronglySorted_app _ _ _) HS) as (Hcross & _ & _).
      assert (Hb : updated_before r row = true).
      { apply Hcross; apply list_elem_of_In; assumption. }
      apply stale_rows_in in Hr as [_ Hrs].
      apply is_stale_spec in Hrs as [_ (u1 & Hu1 & _)].
      apply is_stale_spec in Hst as [_ (u2 & Hu2 & _)].
      exists u1, u2. cbn. split; [exact Hu1|]. split; [exact Hu2|].
      unfold updated_before in Hb. rewrite Hu1, Hu2 in Hb. apply Z.leb_le in Hb. exact Hb.
Qed.

End ListStale_props.

(** ** The paginated listing *)

Section List_props.
Import common notification store.

Lemma int64_add_l (a b : Z) : go.int64 (go.int64 a + b) = go.int64 (a + b).
Proof.
  unfold go.int64. f_equal.
  replace ((a + 2 ^ 63) mod 2 ^ 64 - 2 ^ 63 + b + 2 ^ 63)
    with ((a + 2 ^ 63) mod 2 ^ 64 + b) by lia.
  rewrite Zplus_mod_idemp_l. f_equal. lia.
Qed.

(** The limit of the request is the page size, whatever the offset. *)
Lemma List_limit (offset pageSize : Z) :
  1 <= pageSize <= 100 ->
  go.int64 (go.sub_int64 (go.sub_int64 (go.int64 (offset + pageSize)) 1) offset + 1) = pageSize.
Proof.
  intros Hps. unfold go.sub_int64.
  rewrite int64_add_l.
  replace (go.int64 (go.int64 (offset + pageSize) - 1) - offset + 1)
    with (go.int64 (go.int64 (offset + pageSize) - 1) + (1 - offset)) by lia.
  rewrite int64_add_l.
  replace (go.int64 (offset + pageSize) - 1 + (1 - offset))
    with (go.int64 (offset + pageSize) + (- offset)) by lia.
  rewrite int64_add_l.
  replace (offset + pageSize + - offset) with pageSize by lia.
  apply int64_small. lia.
Qed.

Lemma List_pageSize (filter : ListFilter) :
  1 <= (if (flt_PageSize filter <? 1) || (100 <? flt_PageSize filter)
        then 20 else flt_PageSize filter) <= 100.
Proof.
  destruct (Z.ltb_spec (flt_PageSize filter) 1); cbn; [lia|].
  destruct (Z.ltb_spec 100 (flt_PageSize filter)); lia.
Qed.

Lemma created_after_not_older (tie : supabaseRow -> supabaseRow -> bool) (a b : supabaseRow) :
  created_after tie a b = true -> not_older a b = true.
Proof.
  unfold not_older, created_after.
  destruct (row_CreatedAt a), (row_CreatedAt b); try discriminate; auto.
  rewrite !orb_true_iff, !andb_true_iff. tauto.
Qed.

Lemma created_after_refused (tie : supabaseRow -> supabaseRow -> bool) (a b : supabaseRow) :
  created_after tie a b = false -> not_older b a = true.
Proof.
  unfold not_older, created_after.
  destruct (row_CreatedAt a), (row_CreatedAt b); try discriminate; auto.
  rewrite orb_false_iff, orb_true_iff, andb_true_iff, Z.ltb_ge, Z.ltb_lt, Z.eqb_eq.
  intros [H _]. destruct (Z.eq_dec z z0); [right; split; auto|left; lia].
Qed.

Lemma not_older_trans (a b c : supabaseRow) :
  not_older a b = true -> not_older b c = true -> not_older a c = true.
Proof.
  unfold not_older, created_after.
  destruct (row_CreatedAt a), (row_CreatedAt b), (row_CreatedAt c); try discriminate; auto.
  rewrite !orb_true_iff, !andb_true_iff, !Z.ltb_lt, !Z.eqb_eq.
  intros [H1|[H1 _]] [H2|[H2 _]]; [left|left|left|right; split; [|reflexivity]]; lia.
Qed.

Lemma not_older_times (a b : supabaseRow) (x y : Z) :
  row_CreatedAt a = Some x -> row_CreatedAt b = Some y -> not_older a b = true -> y <= x.
Proof.
  unfold not_older, created_after. intros -> ->.
  rewrite orb_true_iff, andb_true_iff, Z.ltb_lt, Z.eqb_eq. intros [H|[H _]]; lia.
Qed.

Lemma insert_desc_perm (tie : supabaseRow -> supabaseRow -> bool) (row : supabaseRow)
    (rows : list supabaseRow) :
  Permutation (insert_desc tie row rows) (row :: rows).
Proof.
  induction rows as [|r rows IH]; cbn; [reflexivity|].
  destruct (created_after tie row r); [reflexivity|].
  rewrite IH. apply perm_swap.
Qed.

Lemma order_by_created_at_desc_perm (tie : supabaseRow -> supabaseRow -> bool)
    (rows : list supabaseRow) :
  Permutation (order_by_created_at_desc tie rows) rows.
Proof.
  induction rows as [|r rows IH]; cbn; [reflexivity|].
  fold (order_by_created_at_desc tie rows). rewrite insert_desc_perm, IH. reflexivity.
Qed.

Lemma insert_desc_sorted (tie : supabaseRow -> supabaseRow -> bool) (row : supabaseRow)
    (rows : list supabaseRow) :
  StronglySorted (fun a b => not_older a b = true) rows ->
  StronglySorted (fun a b => not_older a b = true) (insert_desc tie row rows).
Proof.
  induction 1 as [|r rows Hs IH Hall]; cbn.
  - constructor; [constructor|constructor].
  - destruct (created_after tie row r) eqn:Hb.
    + apply created_after_not_older in Hb.
      constructor; [constructor; assumption|].
      constructor; [exact Hb|].
      eapply Forall_impl; [exact Hall|]. intros x Hx. cbn in Hx.
      eapply not_older_trans; eassumption.
    + constructor; [exact IH|].
      rewrite insert_desc_perm. constructor; [|exact Hall].
      eapply created_after_refused, Hb.
Qed.

(** Whatever the order among ties, the listing is newest first. *)
Lemma order_by_created_at_desc_sorted (tie : supabaseRow -> supabaseRow -> bool)
    (rows : list supabaseRow) :
  StronglySorted (fun a b => not_older a b = true) (order_by_created_at_desc tie rows).
Proof.
  induction rows as [|r rows IH]; cbn; [constructor|].
  apply insert_desc_sorted. exact IH.
Qed.

(** Rows created at different instants are ordered the same way by every
    query. *)
Lemma created_after_distinct (tie tie' : supabaseRow -> supabaseRow -> bool)
    (a b : supabaseRow) :
  row_CreatedAt a <> row_CreatedAt b -> created_after tie a b = created_after tie' a b.
Proof.
  unfold created_after. destruct (row_CreatedAt a) as [x|], (row_CreatedAt b) as [y|];
    try reflexivity; [|congruence].
  intros Hne. destruct (Z.eqb_spec y x) as [->|_]; [congruence|].
  rewrite !andb_false_l. reflexivity.
Qed.

Lemma insert_desc_distinct (tie tie' : supabaseRow -> supabaseRow -> bool)
    (row : supabaseRow) (rows : list supabaseRow) :
  ~ In (row_CreatedAt row) (map row_CreatedAt rows) ->
  insert_desc tie row rows = insert_desc tie' row rows.
Proof.
  induction rows as [|r rows IH]; cbn; [reflexivity|].
  intros Hn. rewrite (created_after_distinct tie tie' row r) by (intros E; apply Hn; auto).
  rewrite IH by (intros H; apply Hn; auto). reflexivity.
Qed.

(** Without two rows created at the same instant the listing is one,
    whatever each query does with ties. *)
Lemma order_by_created_at_desc_distinct (tie tie' : supabaseRow -> supabaseRow -> bool)
    (rows : list supabaseRow) :
  NoDup (map row_CreatedAt rows) ->
  order_by_created_at_desc tie rows = order_by_created_at_desc tie' rows.
Proof.
  induction rows as [|r rows IH]; cbn; [reflexivity|].
  intros Hnd. apply NoDup_cons in Hnd as [Hnotin Hnd].
  fold (order_by_created_at_desc tie rows). fold (order_by_created_at_desc tie' rows).
  rewrite (IH Hnd). apply insert_desc_distinct.
  intros Hin. apply Hnotin. apply list_elem_of_In.
  apply in_map_iff in Hin as (x & Hx & Hin). apply in_map_iff. exists x. split; [exact Hx|].
  eapply Permutation_in; [apply order_by_created_at_desc_perm|exact Hin].
Qed.

Lemma selects_spec (filter : ListFilter) (row : supabaseRow) :
  selects filter row = true <->
  (flt_Status filter = "" \/ row_Status row = flt_Status filter) /\
  (flt_Recipient filter = "" \/ row_Recipient row = flt_Recipient filter) /\
  (flt_Channel filter = "" \/ row_Channel row = flt_Channel filter).
Proof.
  unfold selects. rewrite !andb_true_iff, !orb_true_iff, !String.eqb_eq. tauto.
Qed.

(** What a successful [List] computed. *)
Lemma List_ok (tie : supabaseRow -> supabaseRow -> bool) (filter : ListFilter)
    (table : list supabaseRow) (logs : list NotificationLog) (total : Z) :
  List None tie filter table = (logs, total, None) ->
  let page := if flt_Page filter <? 1 then 1 else flt_Page filter in
  let pageSize := if (flt_PageSize filter <? 1) || (100 <? flt_PageSize filter)
                  then 20 else flt_PageSize filter in
  let offset := go.mul_int64 (go.sub_int64 page 1) pageSize in
  let rows := List.filter (selects filter) table in
  0 <= offset <= Z.of_nat (length rows) /\
  total = Z.of_nat (length rows) /\
  logs = map rowToLog
           (take (Z.to_nat pageSize)
              (drop (Z.to_nat offset) (order_by_created_at_desc tie rows))).
Proof.
  unfold List. cbv zeta. rewrite List_limit by apply List_pageSize.
  set (pageSize := if (flt_PageSize filter <? 1) || (100 <? flt_PageSize filter)
                   then 20 else flt_PageSize filter).
  set (offset := go.mul_int64 _ pageSize).
  destruct (Z.ltb_spec offset 0) as [Hneg|Hpos]; cbn [orb]; [discriminate|].
  destruct (Z.ltb_spec (Z.of_nat (length (List.filter (selects filter) table))) offset)
    as [Hbig|Hin]; [discriminate|].
  intros Heq. inversion Heq; subst. repeat split; lia.
Qed.

(** X5. A page [List] returns holds at most [PageSize] logs (20 when the
    requested size is outside 1..100), each of a row the filters select,
    the most recently created first, whatever order the database gives to
    rows created at the same instant; the total is the number of rows the
    filters select in the whole table, not the length of the page. *)
Theorem List_page (tie : supabaseRow -> supabaseRow -> bool) (filter : ListFilter)
    (table : list supabaseRow) (logs : list NotificationLog) (total : Z) :
  List None tie filter table = (logs, total, None) ->
  Z.of_nat (length logs)
    <= (if (flt_PageSize filter <? 1) || (100 <? flt_PageSize filter)
        then 20 else flt_PageSize filter) <= 100 /\
  total = Z.of_nat (length (List.filter (selects filter) table)) /\
  (forall l, In l logs ->
     exists row, In row table /\ l = rowToLog row /\
       (flt_Status filter = "" \/ row_Status row = flt_Status filter) /\
       (flt_Recipient filter = "" \/ row_Recipient row = flt_Recipient filter) /\
       (flt_Channel filter = "" \/ row_Channel row = flt_Channel filter)) /\
  (forall i j l1 l2 t1 t2, (i <= j)%nat -> logs !! i = Some l1 -> logs !! j = Some l2 ->
     log_CreatedAt l1 = Some t1 -> log_CreatedAt l2 = Some t2 -> t2 <= t1).
Proof.
  intros Hok. apply List_ok in Hok. cbv zeta in Hok. destruct Hok as (Hoff & Htotal & Hlogs).
  pose proof (List_pageSize filter) as Hps.
  set (pageSize := if (flt_PageSize filter <? 1) || (100 <? flt_PageSize filter)
                   then 20 else flt_PageSize filter) in *.
  set (offset := go.mul_int64 _ pageSize) in *.
  set (L := order_by_created_at_desc tie (List.filter (selects filter) table)) in *.
  split; [|split; [exact Htotal|split]].
  - split; [|lia]. rewrite Hlogs, length_map, length_take. lia.
  - intros l Hl. rewrite Hlogs in Hl. apply in_map_iff in Hl as (row & <- & Hrow).
    apply list_elem_of_In in Hrow. apply elem_of_take in Hrow as (i & Hi & _).
    rewrite lookup_drop in Hi. apply list_elem_of_lookup_2 in Hi. apply list_elem_of_In in Hi.
    eapply Permutation_in in Hi; [|apply order_by_created_at_desc_perm].
    apply filter_In in Hi as [Hin Hsel]. apply selects_spec in Hsel.
    exists row. split; [exact Hin|]. split; [reflexivity|exact Hsel].
  - intros i j l1 l2 t1 t2 Hij H1 H2 Ht1 Ht2. rewrite Hlogs in H1, H2.
    rewrite lookup_map in H1, H2.
    destruct (take (Z.to_nat pageSize) (drop (Z.to_nat offset) L) !! i) as [r1|] eqn:E1;
      [|discriminate].
    destruct (take (Z.to_nat pageSize) (drop (Z.to_nat offset) L) !! j) as [r2|] eqn:E2;
      [|discriminate].
    cbn in H1, H2. inversion H1; inversion H2; subst l1 l2. cbn in Ht1, Ht2.
    destruct (decide (i = j)) as [->|Hne].
    + rewrite E1 in E2. inversion E2; subst. rewrite Ht1 in Ht2. inversion Ht2. lia.
    + assert (Hsorted : StronglySorted (fun a b => not_older a b = true)
                          (take (Z.to_nat pageSize) (drop (Z.to_nat offset) L))).
      { pose proof (order_by_created_at_desc_sorted tie (List.filter (selects filter) table))
          as HS.
        fold L in HS. rewrite <- (take_drop (Z.to_nat offset) L) in HS.
        destruct (proj1 (StronglySorted_app _ _ _) HS) as (_ & _ & HS2).
        rewrite <- (take_drop (Z.to_nat pageSize) (drop (Z.to_nat offset) L)) in HS2.
        destruct (proj1 (StronglySorted_app _ _ _) HS2) as (_ & HS3 & _). exact HS3. }
      assert (Hb : not_older r1 r2 = true).
      { eapply (StronglySorted_lookup_lt (fun a b => not_older a b = true));
          [exact Hsorted| |exact E1|exact E2]. lia. }
      exact (not_older_times r1 r2 t1 t2 Ht1 Ht2 Hb).
Qed.

(** X6. Walking the pages of one size over a table that does not change,
    in which no two selected rows were created at the same instant, meets
    every selected row once: the row of rank [r] in the order of creation,
    newest first, is entry [r mod size] of page [r / size + 1], whatever
    each query would do with ties. *)
Theorem List_pages_cover (tie tie' : supabaseRow -> supabaseRow -> bool)
    (filter : ListFilter) (table : list supabaseRow) (r : nat) (row : supabaseRow) :
  1 <= flt_PageSize filter <= 100 ->
  Z.of_nat (length table) < 2 ^ 63 ->
  NoDup (map row_CreatedAt (List.filter (selects filter) table)) ->
  order_by_created_at_desc tie (List.filter (selects filter) table) !! r = Some row ->
  fst (fst (List None tie'
              {| flt_Page := Z.of_nat r / flt_PageSize filter + 1;
                 flt_PageSize := flt_PageSize filter;
                 flt_Status := flt_Status filter;
                 flt_Recipient := flt_Recipient filter;
                 flt_Channel := flt_Channel filter |} table))
    !! Z.to_nat (Z.of_nat r mod flt_PageSize filter) = Some (rowToLog row).
Proof.
  intros Hps Hlen Hnd Hr.
  rewrite (order_by_created_at_desc_distinct tie tie' _ Hnd) in Hr.
  set (ps := flt_PageSize filter) in *.
  set (f' := {| flt_Page := Z.of_nat r / ps + 1; flt_PageSize := ps;
                flt_Status := flt_Status filter; flt_Recipient := flt_Recipient filter;
                flt_Channel := flt_Channel filter |}).
  assert (Hsel : List.filter (selects f') table = List.filter (selects filter) table)
    by reflexivity.
  assert (Hrlt : (r < length (List.filter (selects filter) table))%nat).
  { apply lookup_lt_Some in Hr.
    rewrite (Permutation_length (order_by_created_at_desc_perm _ _)) in Hr. exact Hr. }
  assert (Hfl : (length (List.filter (selects filter) table) <= length table)%nat)
    by apply filter_length_le.
  assert (Hq : 0 <= Z.of_nat r / ps) by (apply Z.div_pos; lia).
  assert (Hqr : Z.of_nat r = ps * (Z.of_nat r / ps) + Z.of_nat r mod ps)
    by (apply Z.div_mod; lia).
  assert (Hm : 0 <= Z.of_nat r mod ps < ps) by (apply Z.mod_pos_bound; lia).
  unfold List. cbv zeta. rewrite List_limit by (apply (List_pageSize f')).
  cbn [flt_Page flt_PageSize f'].
  assert (Hpage : (if Z.of_nat r / ps + 1 <? 1 then 1 else Z.of_nat r / ps + 1)
                  = Z.of_nat r / ps + 1).
  { destruct (Z.ltb_spec (Z.of_nat r / ps + 1) 1); lia. }
  assert (Hsize : (if (ps <? 1) || (100 <? ps) then 20 else ps) = ps).
  { destruct (Z.ltb_spec ps 1); [lia|]. destruct (Z.ltb_spec 100 ps); [lia|reflexivity]. }
  rewrite Hpage, Hsize.
  assert (Hoff : go.mul_int64 (go.sub_int64 (Z.of_nat r / ps + 1) 1) ps
                 = Z.of_nat r / ps * ps).
  { unfold go.sub_int64, go.mul_int64.
    replace (Z.of_nat r / ps + 1 - 1) with (Z.of_nat r / ps) by lia.
    rewrite (int64_small (Z.of_nat r / ps)) by nia.
    apply int64_small. nia. }
  rewrite Hoff, Hsel.
  destruct (Z.ltb_spec (Z.of_nat r / ps * ps) 0) as [Hneg|_]; [nia|]. cbn [orb].
  destruct (Z.ltb_spec (Z.of_nat (length (List.filter (selects filter) table)))
              (Z.of_nat r / ps * ps)) as [Hbig|_]; [nia|].
  cbn [fst]. rewrite lookup_map, lookup_take_lt by lia. rewrite lookup_drop.
  replace (Z.to_nat (Z.of_nat r / ps * ps) + Z.to_nat (Z.of_nat r mod ps))%nat with r by lia.
  rewrite Hr. reflexivity.
Qed.

End List_props.

(** ** Creating and reading back *)

Section Create_props.
Import common notification store.

Lemma filter_none {A : Type} (f : A -> bool) (l : list A) :
  existsb f l = false -> List.filter f l = [].
Proof.
  induction l as [|a l IH]; cbn; [reflexivity|].
  intros H. apply orb_false_iff in H as [Ha Hl]. rewrite Ha. exact (IH Hl).
Qed.

(** What an accepted [Create] did. *)
Lemma Create_ok (uuid : string) (now : Z) (log log' : NotificationLog)
    (table table' : list supabaseRow) :
  Create None uuid now log table = (log', None, table') ->
  exists created,
    table' = table ++ [created] /\
    existsb (has_id (row_ID created)) table = false /\
    match row_IdempotencyKey created with
    | Some k => existsb (has_key k) table = false
    | None => True
    end /\
    row_IdempotencyKey created
      = (if String.eqb (log_IdempotencyKey log) "" then None
         else Some (log_IdempotencyKey log)) /\
    rowToLog created =
      {| log_ID := log_ID log'; log_IdempotencyKey := log_IdempotencyKey log;
         log_Channel := log_Channel log; log_Type := log_Type log;
         log_Recipient := log_Recipient log;
         log_TemplateData := omitempty_map (log_TemplateData log);
         log_ProviderID := ""; log_Status := log_Status log; log_ErrorMessage := "";
         log_CreatedAt := log_CreatedAt log'; log_UpdatedAt := log_UpdatedAt log';
         log_SentAt := None; log_DeliveredAt := None; log_OpenedAt := None;
         log_BouncedAt := None |}.
Proof.
  unfold Create. cbv zeta.
  destruct (insert uuid now _ table) as [created|err] eqn:Ei; [|discriminate].
  intros Heq. inversion Heq; subst log' table'. clear Heq.
  exists created. split; [reflexivity|].
  unfold insert in Ei. cbv zeta in Ei. cbn [row_ID row_IdempotencyKey row_Channel row_Type
    row_Recipient row_ProviderID row_Status row_CreatedAt row_UpdatedAt] in Ei.
  destruct (negb _); [discriminate|].
  destruct (existsb (has_id _) table) eqn:Eid; [discriminate|].
  destruct (String.eqb (log_IdempotencyKey log) "") eqn:Ek; cbn [negb] in Ei.
  - inversion Ei; subst created. cbn. apply String.eqb_eq in Ek. rewrite Ek.
    repeat split; try reflexivity. exact Eid.
  - destruct (existsb (has_key (log_IdempotencyKey log)) table) eqn:Ekey; [discriminate|].
    inversion Ei; subst created. cbn. repeat split; try reflexivity; assumption.
Qed.

Lemma Create_keeps_key (fault : option error) (uuid : string) (now : Z)
    (log : NotificationLog) (table : list supabaseRow) :
  log_IdempotencyKey (fst (fst (Create fault uuid now log table))) = log_IdempotencyKey log.
Proof.
  unfold Create. cbv zeta. destruct fault; [reflexivity|].
  destruct (insert uuid now _ table); reflexivity.
Qed.

(** X7. A record the store accepted can be read back at once: [GetByID]
    on the id [Create] wrote into the log, and [GetByIdempotencyKey] on
    its key when it has one, return the record as stored: the request's
    fields, the id and the two timestamps [Create] reported, and nothing
    else set. The template data come back as they were sent: a map
    without entries was left out of the insert, so it comes back as no
    map at all. *)
Theorem Create_then_get (uuid : string) (now : Z) (log log' : NotificationLog)
    (table table' : list supabaseRow) :
  Create None uuid now log table = (log', None, table') ->
  let stored :=
    {| log_ID := log_ID log'; log_IdempotencyKey := log_IdempotencyKey log;
       log_Channel := log_Channel log; log_Type := log_Type log;
       log_Recipient := log_Recipient log;
       log_TemplateData := match log_TemplateData log with
                           | Some m => if decide (m = ∅) then None else Some m
                           | None => None
                           end;
       log_ProviderID := ""; log_Status := log_Status log; log_ErrorMessage := "";
       log_CreatedAt := log_CreatedAt log'; log_UpdatedAt := log_UpdatedAt log';
       log_SentAt := None; log_DeliveredAt := None; log_OpenedAt := None;
       log_BouncedAt := None |} in
  GetByID None (log_ID log') table' = (Some stored, None) /\
  (log_IdempotencyKey log <> "" ->
   GetByIdempotencyKey None (log_IdempotencyKey log) table' = (Some stored, None)).
Proof.
  intros Hc. cbv zeta.

  destruct (Create_ok _ _ _ _ _ _ Hc) as (created & -> & Hnoid & Hnokey & Hkey & Hlog).
  assert (Hcid : row_ID created = log_ID log').
  { change (row_ID created) with (log_ID (rowToLog created)). rewrite Hlog. reflexivity. }
  split.
  - unfold GetByID. rewrite List.filter_app. rewrite <- Hcid.
    rewrite (filter_none _ _ Hnoid). cbn. unfold has_id at 1. rewrite String.eqb_refl.
    rewrite Hlog. rewrite Hcid. reflexivity.
  - intros Hne. unfold GetByIdempotencyKey. rewrite List.filter_app.
    apply String.eqb_neq in Hne. rewrite Hne in Hkey. rewrite Hkey in Hnokey.
    rewrite (filter_none _ _ Hnokey). cbn. unfold has_key at 1. rewrite Hkey.
    rewrite String.eqb_refl. rewrite Hlog. reflexivity.
Qed.

Lemma map_id_update_where (sel : supabaseRow -> bool) (u : gmap string value)
    (t : list supabaseRow) :
  map row_ID (update_where sel u t) = map row_ID t.
Proof.
  unfold update_where. induction t as [|row t IH]; [reflexivity|].
  cbn. rewrite IH. destruct (sel row); reflexivity.
Qed.

Lemma existsb_has_id (id : string) (t : list supabaseRow) :
  existsb (has_id id) t = false -> ~ In id (map row_ID t).
Proof.
  induction t as [|row t IH]; cbn; [tauto|].
  intros H. apply orb_false_iff in H as [Hrow Ht].
  intros [Heq|Hin]; [|exact (IH Ht Hin)].
  unfold has_id in Hrow. rewrite Heq, String.eqb_refl in Hrow. discriminate Hrow.
Qed.

(** X8. The writes of the store keep the constraints of the schema: after
    [Create], [UpdateStatus] or [UpdateWebhookStatus], accepted or not,
    no two rows share an id and no two rows share an idempotency key. *)
Theorem store_writes_keep_constraints (fault : option error) (now : Z)
    (table : list supabaseRow) :
  unique_ids table -> unique_keys table ->
  (forall uuid log,
     unique_ids (snd (Create fault uuid now log table)) /\
     unique_keys (snd (Create fault uuid now log table))) /\
  (forall id status providerID errMsg,
     unique_ids (snd (UpdateStatus fault now id status providerID errMsg table)) /\
     unique_keys (snd (UpdateStatus fault now id status providerID errMsg table))) /\
  (forall providerID status,
     unique_ids (snd (UpdateWebhookStatus fault now providerID status table)) /\
     unique_keys (snd (UpdateWebhookStatus fault now providerID status table))).
Proof.
  intros Hids Hkeys. split; [|split].
  - intros uuid log. destruct fault as [err|]; [split; assumption|].
    destruct (Create None uuid now log table) as [[log' [cerr|]] table'] eqn:Ec.
    + assert (table' = table) as ->; [|split; assumption].
      unfold Create in Ec. cbv zeta in Ec.
      destruct (insert _ _ _ _); inversion Ec; reflexivity.
    + destruct (Create_ok _ _ _ _ _ _ Ec) as (created & -> & Hnoid & Hnokey & _ & _).
      cbn. split.
      * unfold unique_ids. rewrite map_app. apply NoDup_app. split; [exact Hids|].
        split; [|apply NoDup_singleton].
        intros x Hx Hin. cbn in Hin. apply list_elem_of_In in Hin. destruct Hin as [<-|[]].
        apply list_elem_of_In in Hx. exact (existsb_has_id _ _ Hnoid Hx).
      * unfold unique_keys. rewrite omap_app. apply NoDup_app. split; [exact Hkeys|].
        cbn. destruct (row_IdempotencyKey created) as [k|]; cbn.
        -- split; [|apply NoDup_singleton].
           intros x Hx Hin. apply list_elem_of_In in Hin. destruct Hin as [<-|[]].
           apply list_elem_of_In in Hx. exact (existsb_has_key _ _ Hnokey Hx).
        -- split; [|apply NoDup_nil_2]. intros x _ Hin. apply list_elem_of_In in Hin.
           destruct Hin.
  - intros id status providerID errMsg. destruct fault as [err|]; [split; assumption|].
    cbn. unfold unique_ids, unique_keys.
    rewrite map_id_update_where, omap_key_update_where. split; assumption.
  - intros providerID status. destruct fault as [err|]; [split; assumption|].
    cbn. unfold unique_ids, unique_keys.
    rewrite map_id_update_where, omap_key_update_where. split; assumption.
Qed.

End Create_props.

(** ** More of the intake *)

Section Enqueue_more.
Import common notification.

Context {W : Type} (h : handler W).

(** Following an execution through every answer of the collaborators. *)
Ltac explore :=
  repeat match goal with
         | |- context [h ?R ?op ?w] =>
             let r := fresh "r" in let w1 := fresh "w" in
             destruct (h R op w) as [r w1]; cbn
         | |- context [match ?x with _ => _ end] =>
             is_var x; destruct x; cbn
         | |- context [negb ?x] => is_var x; destruct x; cbn
         end.

(** Taking a membership in a listed trace apart. *)
Ltac in_trace H :=
  repeat (destruct H as [H|H]; [try discriminate H|]); try (exfalso; exact H).


(** X9. [Enqueue] returns a response or an error, never both and never
    neither, whatever its collaborators answer. *)
Theorem Enqueue_response_xor_error (s : Service) (req : SendRequest) (w : W) :
  fst (fst (fst (exec h (Enqueue s req) w))) = None <->
  snd (fst (fst (exec h (Enqueue s req) w))) <> None.
Proof.
  unfold Enqueue, Enqueue_idempotency, Enqueue_ratelimit, Enqueue_create.
  destruct (IsValidType (req_Type req)), (String.eqb (req_IdempotencyKey req) ""),
    (rateLimiter s); cbn; explore; split; congruence.
Qed.

(** X10. A task is only ever enqueued for a record the store has just
    accepted: in every execution of [Enqueue], an enqueue comes directly
    after the [Create] that succeeded and carries the id that [Create]
    returned, and there is no other [Create] and no other enqueue. *)
Theorem Enqueue_enqueues_what_it_created (s : Service) (req : SendRequest) (w : W)
    (id : string) (res : option error) :
  In (EvEnqueue id res) (snd (exec h (Enqueue s req) w)) ->
  exists pre post created,
    snd (exec h (Enqueue s req) w)
      = pre ++ EvCreate (new_log req) (created, None) :: EvEnqueue id res :: post /\
    log_ID created = id /\
    forall ev, In ev (pre ++ post) ->
      match ev with EvCreate _ _ | EvEnqueue _ _ => False | _ => True end.
Proof.
  unfold Enqueue, Enqueue_idempotency, Enqueue_ratelimit, Enqueue_create.
  destruct (IsValidType (req_Type req)), (String.eqb (req_IdempotencyKey req) ""),
    (rateLimiter s); cbn; explore; intros Hin; in_trace Hin;
    inversion Hin; subst;
    (first [ eexists [], _, _; split; [reflexivity|]
           | eexists [_], _, _; split; [reflexivity|]
           | eexists [_; _], _, _; split; [reflexivity|]
           | eexists [_; _; _], _, _; split; [reflexivity|]
           | eexists [_; _; _; _], _, _; split; [reflexivity|] ]);
    (split; [reflexivity|]);
    intros ev Hev; cbn in Hev; in_trace Hev; subst ev; exact I.
Qed.

(** X11. The two refusals of [Enqueue] reach the client as 400 with the
    reason, and leave nothing behind: when [Enqueue] returns a
    [ValidationError], [Handler.Send] answers 400 with its message, and
    the request created no record, enqueued no task and updated no
    status. The type was unsupported, and then no collaborator was
    called at all, or the limiter denied the recipient. *)
Theorem Handler_Send_refused (s : Service) (req : SendRequest) (w : W) (m : string) :
  snd (fst (fst (exec h (Enqueue s req) w))) = Some (ValidationError m) ->
  fst (fst (exec h (Handler_Send s (inl req)) w)) = Error_resp StatusBadRequest m /\
  (forall ev, In ev (snd (exec h (Enqueue s req) w)) ->
     match ev with
     | EvCreate _ _ | EvEnqueue _ _ | EvUpdateStatus _ _ _ _ _ => False
     | _ => True
     end) /\
  ((IsValidType (req_Type req) = false /\ snd (exec h (Enqueue s req) w) = [] /\
    m = "unsupported notification type: " +:+ req_Type req) \/
   (In (EvAllow (req_To req) (false, None)) (snd (exec h (Enqueue s req) w)) /\
    m = "rate limit exceeded for recipient: " +:+ req_To req)).
Proof.
  unfold Handler_Send, Enqueue, Enqueue_idempotency, Enqueue_ratelimit, Enqueue_create.
  destruct (IsValidType (req_Type req)), (String.eqb (req_IdempotencyKey req) ""),
    (rateLimiter s); cbn; explore; intros Hm; try discriminate Hm;
    inversion Hm; subst m;
    (split; [reflexivity|]);
    (split; [intros ev Hev; in_trace Hev; subst ev; exact I|]);
    first [ left; repeat split; reflexivity
          | right; split; [cbn; tauto|reflexivity] ].
Qed.

End Enqueue_more.

(** ** More of the worker *)

Section ProcessTask_more.
Import common notification.

Context {W : Type} (h : handler W).

Ltac explore :=
  repeat match goal with
         | |- context [h ?R ?op ?w] =>
             let r := fresh "r" in let w1 := fresh "w" in
             destruct (h R op w) as [r w1]; cbn
         | |- context [match ?x with _ => _ end] =>
             is_var x; destruct x; cbn
         | |- context [IsValidType ?t] =>
             let E := fresh "Etype" in destruct (IsValidType t) eqn:E; cbn
         | |- context [has_provider ?k ?c] =>
             let E := fresh "Echan" in destruct (has_provider k c) eqn:E; cbn
         end.

Ltac in_trace H :=
  repeat (destruct H as [H|H]; [try discriminate H|]); try (exfalso; exact H).

Ltac unfold_ProcessTask :=
  unfold ProcessTask, ProcessTask_found, ProcessTask_deliver, ProcessTask_send; cbn.

(** X12. A task succeeds exactly when the provider accepted the message:
    [ProcessTask] returns nil if and only if a [Send] of the execution
    returned no error. *)
Theorem ProcessTask_nil_iff_sent (wk : Worker) (logID : string) (w : W) :
  fst (fst (exec h (ProcessTask wk logID) w)) = None <->
  exists channel msg providerID,
    In (EvSend channel msg (providerID, None)) (snd (exec h (ProcessTask wk logID) w)).
Proof.
  unfold_ProcessTask. explore; split;
    try discriminate;
    try (intros (channel & msg & providerID & Hin); in_trace Hin; fail);
    try reflexivity;
    intros _; eexists _, _, _; cbn; tauto.
Qed.

(** X13. The worker sends at most once per task, and what it sends is
    the record it loaded, rendered: a [Send] of the execution is its only
    one; it goes to the provider of the record's channel, the type
    is a supported one, and the message carries the record's recipient
    and the subject, HTML and text that [Render] returned without error
    for the record's type and data. *)
Theorem ProcessTask_sends_rendered_record (wk : Worker) (logID : string) (w : W)
    (channel : Channel) (msg : Message) (res : string * option error) :
  In (EvSend channel msg res) (snd (exec h (ProcessTask wk logID) w)) ->
  exists notifLog subject html text pre post,
    snd (exec h (ProcessTask wk logID) w) = pre ++ EvSend channel msg res :: post /\
    (forall ev, In ev (pre ++ post) -> match ev with EvSend _ _ _ => False | _ => True end) /\
    In (EvGetByID logID (Some notifLog, None)) pre /\
    In (EvRender (log_Type notifLog) (log_TemplateData notifLog) (subject, html, text, None))
       pre /\
    IsValidType (log_Type notifLog) = true /\
    has_provider wk (log_Channel notifLog) = true /\
    channel = log_Channel notifLog /\
    msg = {| msg_To := log_Recipient notifLog; msg_Subject := subject;
             msg_HTML := html; msg_Text := text |}.
Proof.
  unfold_ProcessTask. explore; intros Hin; in_trace Hin; inversion Hin; subst;
    eexists _, _, _, _;
    (first [ eexists [_; _; _; _], _; split; [reflexivity|]
           | eexists [_; _; _; _; _], _; split; [reflexivity|] ]);
    (split; [intros ev Hev; cbn in Hev; in_trace Hev; subst ev; exact I|]);
    cbn; repeat split; auto 8.
Qed.

(** X14. A failure after the record was loaded is written to the record
    with its reason: when [ProcessTask] returns an error for a record
    [GetByID] returned, it has asked the store once to mark the record
    [failed] with a non-empty error message, and has not asked to mark
    it [sent]. The message names the unsupported type or channel, the
    rendering error or the provider's error, and the error returned is
    the matching one. *)
Theorem ProcessTask_failure_recorded (wk : Worker) (logID : string) (w : W)
    (notifLog : NotificationLog) (err : error) :
  In (EvGetByID logID (Some notifLog, None)) (snd (exec h (ProcessTask wk logID) w)) ->
  fst (fst (exec h (ProcessTask wk logID) w)) = Some err ->
  exists errMsg ures pre post,
    snd (exec h (ProcessTask wk logID) w)
      = pre ++ EvUpdateStatus logID StatusFailed "" errMsg ures :: post /\
    errMsg <> "" /\
    (forall ev, In ev (pre ++ post) ->
       match ev with
       | EvUpdateStatus _ status _ _ _ => status = StatusProcessing
       | _ => True
       end) /\
    ((errMsg = "unsupported notification type: " +:+ log_Type notifLog /\
      err = ValidationError errMsg) \/
     (errMsg = "unsupported channel: " +:+ log_Channel notifLog /\
      err = ValidationError errMsg) \/
     (exists e, errMsg = "rendering template: " +:+ Error e /\
                err = Errorf_w ("rendering template " +:+ log_Type notifLog +:+ ": ") e) \/
     (exists e, errMsg = "provider error: " +:+ Error e /\
                err = ProviderError (log_Channel notifLog) (Error e))).
Proof.
  unfold_ProcessTask. explore; intros Hin; in_trace Hin; inversion Hin; subst;
    intros Herr; try discriminate Herr; inversion Herr; subst err;
    eexists _, _;
    (first [ eexists [_; _; _], _; split; [reflexivity|]
           | eexists [_; _; _; _], _; split; [reflexivity|]
           | eexists [_; _; _; _; _], _; split; [reflexivity|]
           | eexists [_; _; _; _; _; _], _; split; [reflexivity|] ]);
    (split; [discriminate|]);
    (split; [intros ev Hev; cbn in Hev; in_trace Hev; subst ev; first [exact I|reflexivity]|]);
    first [ left; split; reflexivity
          | right; left; split; reflexivity
          | right; right; left; eexists; split; reflexivity
          | right; right; right; eexists; split; reflexivity ].
Qed.

(** X15. The worker never marks an error as non-retryable by itself: an
    error of [ProcessTask] that the queue server would archive without
    retrying (one wrapping [asynq.SkipRetry]) wraps an error that
    [GetByID] or [Render] returned and that was already non-retryable.
    The errors for a missing record, an unsupported type, an unsupported
    channel and a provider failure are all retried. *)
Theorem ProcessTask_never_skips_retry (wk : Worker) (logID : string) (w : W) (err : error) :
  fst (fst (exec h (ProcessTask wk logID) w)) = Some err ->
  asynq.non_retryable err = true ->
  exists e,
    asynq.non_retryable e = true /\
    ((exists r, In (EvGetByID logID (r, Some e)) (snd (exec h (ProcessTask wk logID) w))) \/
     (exists t d s1 s2 s3,
        In (EvRender t d (s1, s2, s3, Some e)) (snd (exec h (ProcessTask wk logID) w)))).
Proof.
  unfold_ProcessTask. explore; intros Herr; try discriminate Herr;
    inversion Herr; subst err; cbn; intros Hskip; try discriminate Hskip;
    eexists; (split; [exact Hskip|]);
    first [ left; eexists; cbn; tauto
          | right; eexists _, _, _, _, _; cbn; tauto ].
Qed.

End ProcessTask_more.

(** ** Reading through the HTTP handlers, on the wired system *)

Section handlers_wired.
Import common notification system.

Variable cfg : Config.

Lemma filter_has_id_unique (id : string) (t : list store.supabaseRow) :
  store.unique_ids t ->
  List.filter (store.has_id id) t
  = match List.find (store.has_id id) t with Some row => [row] | None => [] end.
Proof.
  unfold store.unique_ids. induction t as [|row t IH]; cbn; [reflexivity|].
  intros Hnd. apply NoDup_cons in Hnd as [Hnotin Hnd].
  destruct (store.has_id id row) eqn:Hid.
  - f_equal. unfold store.has_id in Hid. apply String.eqb_eq in Hid.
    assert (Hnone : forall r, In r t -> store.has_id id r = false).
    { intros r Hr. unfold store.has_id. apply String.eqb_neq. intros Heq.
      apply Hnotin. apply list_elem_of_In. apply in_map_iff. exists r.
      split; [congruence|exact Hr]. }
    clear -Hnone. induction t as [|r t IH]; cbn; [reflexivity|].
    rewrite (Hnone r (or_introl eq_refl)). apply IH.
    intros r' Hr'. apply Hnone. right. exact Hr'.
  - apply IH. exact Hnd.
Qed.

(** X16. With the [SupabaseStore], reading a notification by id answers
    200 with the record when the table holds the id, and 500 with the
    fixed message when it does not: [GetByID] asks PostgREST for a
    single object, the missing row comes back as an error, and so the
    service never gets to return its [NotFoundError] (the 404). *)
Theorem Handler_GetNotification_wired (id : string) (w : World) :
  snd (fst (fst (exec (run_op cfg) (GetNotification id) w)))
    <> Some (NotFoundError "notification" id) /\
  (next_fault (store_faults w) = None -> store.unique_ids (table w) ->
   fst (fst (exec (run_op cfg) (Handler_GetNotification id) w))
   = match List.find (store.has_id id) (table w) with
     | Some row => Success_ StatusOK (Some (store.rowToLog row))
     | None => Error_resp StatusInternalServerError "internal server error"
     end /\
   table (snd (fst (exec (run_op cfg) (Handler_GetNotification id) w))) = table w).
Proof.
  split.
  - unfold GetNotification. cbn. unfold store.GetByID.
    destruct (next_fault (store_faults w)); cbn; [discriminate|].
    destruct (List.filter (store.has_id id) (table w)) as [|row [|row' rest]]; cbn;
      discriminate.
  - intros Hf Hu. unfold Handler_GetNotification, GetNotification. cbn.
    unfold store.GetByID. rewrite Hf, (filter_has_id_unique id _ Hu).
    destruct (List.find (store.has_id id) (table w)); cbn; split; reflexivity.
Qed.

Lemma List_normal (tie : store.supabaseRow -> store.supabaseRow -> bool)
    (filter : ListFilter) (table : list store.supabaseRow) :
  store.List None tie
    {| flt_Page := if flt_Page filter <? 1 then 1 else flt_Page filter;
       flt_PageSize := if (flt_PageSize filter <? 1) || (100 <? flt_PageSize filter)
                       then 20 else flt_PageSize filter;
       flt_Status := flt_Status filter; flt_Recipient := flt_Recipient filter;
       flt_Channel := flt_Channel filter |} table
  = store.List None tie filter table.
Proof.
  unfold store.List. cbn [flt_Page flt_PageSize flt_Status flt_Recipient flt_Channel].
  assert (Hp : (if (if flt_Page filter <? 1 then 1 else flt_Page filter) <? 1 then 1
                else (if flt_Page filter <? 1 then 1 else flt_Page filter))
               = (if flt_Page filter <? 1 then 1 else flt_Page filter)).
  { destruct (Z.ltb_spec (flt_Page filter) 1) as [H|H]; [reflexivity|].
    destruct (Z.ltb_spec (flt_Page filter) 1); [lia|reflexivity]. }
  set (ps := if (flt_PageSize filter <? 1) || (100 <? flt_PageSize filter)
             then 20 else flt_PageSize filter).
  assert (Hs : (if (ps <? 1) || (100 <? ps) then 20 else ps) = ps).
  { pose proof (List_pageSize filter) as H. fold ps in H.
    destruct (Z.ltb_spec ps 1); [lia|]. destruct (Z.ltb_spec 100 ps); [lia|reflexivity]. }
  rewrite Hp, Hs. reflexivity.
Qed.

(** X17. The page and page size in a list response are the ones the
    store served: when [ListNotifications] returns a response, its page
    is at least 1, its page size is between 1 and 100, it holds at most
    that many notifications, and asking again in the same state for the
    reported page and size, the database ordering the rows alike, gives
    the same response. *)
Theorem ListNotifications_reports_what_it_served
    (tie : store.supabaseRow -> store.supabaseRow -> bool) (filter : ListFilter)
    (w w' : World) (resp : ListResponse) :
  ListNotifications (store_List tie) filter w = ((Some resp, None), w') ->
  1 <= lr_Page resp /\ 1 <= lr_PageSize resp <= 100 /\
  Z.of_nat (length (lr_Notifications resp)) <= lr_PageSize resp /\
  ListNotifications (store_List tie)
    {| flt_Page := lr_Page resp; flt_PageSize := lr_PageSize resp;
       flt_Status := flt_Status filter; flt_Recipient := flt_Recipient filter;
       flt_Channel := flt_Channel filter |} w
  = ((Some resp, None), w').
Proof.
  unfold ListNotifications, store_List.
  destruct (next_fault (store_faults w)) as [fault|] eqn:Hf; [discriminate|].
  destruct (store.List None tie filter (table w)) as [[logs total] [err|]] eqn:HL;
    [discriminate|].
  intros Heq. inversion Heq; subst resp w'. clear Heq.
  cbn [lr_Page lr_PageSize lr_Notifications flt_Page flt_PageSize flt_Status flt_Recipient
         flt_Channel].
  pose proof (List_pageSize filter) as Hps.
  assert (Hlen : Z.of_nat (length logs)
                 <= (if (flt_PageSize filter <? 1) || (100 <? flt_PageSize filter)
                     then 20 else flt_PageSize filter)).
  { pose proof (List_ok _ _ _ _ _ HL) as Hok. cbv zeta in Hok. destruct Hok as (_ & _ & ->).
    rewrite length_map, length_take. lia. }
  split; [destruct (Z.ltb_spec (flt_Page filter) 1); lia|].
  split; [exact Hps|]. split; [exact Hlen|].
  rewrite List_normal, HL.
  set (ps := if (flt_PageSize filter <? 1) || (100 <? flt_PageSize filter)
             then 20 else flt_PageSize filter) in *.
  assert (Hs : (if (ps <? 1) || (100 <? ps) then 20 else ps) = ps).
  { destruct (Z.ltb_spec ps 1); [lia|]. destruct (Z.ltb_spec 100 ps); [lia|reflexivity]. }
  assert (Hp : (if (if flt_Page filter <? 1 then 1 else flt_Page filter) <? 1 then 1
                else (if flt_Page filter <? 1 then 1 else flt_Page filter))
               = (if flt_Page filter <? 1 then 1 else flt_Page filter)).
  { destruct (Z.ltb_spec (flt_Page filter) 1) as [H|H]; [reflexivity|].
    destruct (Z.ltb_spec (flt_Page filter) 1); [lia|reflexivity]. }
  rewrite Hs, Hp. reflexivity.
Qed.

End handlers_wired.

(** ** The webhook, on the wired system *)

Section webhook_wired.
Import common notification system.

(** X18. Events that change nothing. A webhook of a type other than
    delivered, bounced and opened is acknowledged with 200 "ignored"; one
    without an email id is refused with 400; one about a provider id no
    row carries is acknowledged with 200 "processed", not with a 404.
    In all three cases the table is left as it was. *)
Theorem ResendWebhook_without_effect (event : ResendEvent) (w : World) :
  webhook_status (ev_Type event) = None \/ ev_EmailID event = "" \/
  (next_fault (store_faults w) = None /\
   forall row, In row (table w) -> store.row_ProviderID row <> Some (ev_EmailID event)) ->
  table (snd (Handler_ResendWebhook store_UpdateWebhookStatus slog_ (inl event) w)) = table w /\
  fst (Handler_ResendWebhook store_UpdateWebhookStatus slog_ (inl event) w)
  = match webhook_status (ev_Type event) with
    | None => Success_ StatusOK (H_status "ignored")
    | Some _ =>
        if String.eqb (ev_EmailID event) ""
        then Error_resp StatusBadRequest "provider_id is required"
        else Success_ StatusOK (H_status "processed")
    end.
Proof.
  intros Hcase. unfold Handler_ResendWebhook, HandleWebhookEvent.
  destruct (webhook_status (ev_Type event)) as [status|] eqn:Hs; [|split; reflexivity].
  destruct (String.eqb (ev_EmailID event) "") eqn:He; [split; reflexivity|].
  destruct Hcase as [Hc|[Hc|[Hf Hno]]];
    [discriminate Hc|rewrite Hc in He; discriminate He|].
  unfold store_UpdateWebhookStatus. rewrite Hf.
  rewrite (UpdateWebhookStatus_unknown _ _ _ _ Hno). split; reflexivity.
Qed.

(** X19. A delivery event about a recorded message reaches the record:
    for an event of type [email.delivered], [email.bounced] or
    [email.opened] with a non-empty email id and a store that answers,
    the handler answers 200 "processed", and a row that carries the id
    as its provider id gets the status of the event, the time of the
    call as [updated_at] and as the timestamp of that status, and keeps
    its id, recipient, provider id, error message and [sent_at]. *)
Theorem ResendWebhook_marks_record (event : ResendEvent) (w : World)
    (status : NotificationStatus) (i : nat) (row : store.supabaseRow) :
  webhook_status (ev_Type event) = Some status ->
  ev_EmailID event <> "" ->
  next_fault (store_faults w) = None ->
  table w !! i = Some row ->
  store.row_ProviderID row = Some (ev_EmailID event) ->
  fst (Handler_ResendWebhook store_UpdateWebhookStatus slog_ (inl event) w)
    = Success_ StatusOK (H_status "processed") /\
  exists row',
    table (snd (Handler_ResendWebhook store_UpdateWebhookStatus slog_ (inl event) w)) !! i
      = Some row' /\
    store.row_Status row' = status /\
    store.row_UpdatedAt row' = Some (clock w) /\
    (ev_Type event = "email.delivered" ->
     status = StatusDelivered /\ store.row_DeliveredAt row' = Some (clock w)) /\
    (ev_Type event = "email.bounced" ->
     status = StatusBounced /\ store.row_BouncedAt row' = Some (clock w)) /\
    (ev_Type event = "email.opened" ->
     status = StatusOpened /\ store.row_OpenedAt row' = Some (clock w)) /\
    store.row_ID row' = store.row_ID row /\
    store.row_Recipient row' = store.row_Recipient row /\
    store.row_ProviderID row' = store.row_ProviderID row /\
    store.row_ErrorMessage row' = store.row_ErrorMessage row /\
    store.row_SentAt row' = store.row_SentAt row.
Proof.
  intros Hs He Hf Hi Hp. unfold Handler_ResendWebhook, HandleWebhookEvent. rewrite Hs.
  apply String.eqb_neq in He. rewrite He.
  unfold store_UpdateWebhookStatus. rewrite Hf. cbn. split; [reflexivity|].
  unfold store.update_where. rewrite lookup_map, Hi. cbn.
  apply has_provider_id_spec in Hp. rewrite Hp.
  eexists. split; [reflexivity|]. rewrite apply_webhook_update. cbn.
  unfold webhook_status in Hs.
  destruct (String.eqb (ev_Type event) "email.delivered") eqn:E1.
  { inversion Hs; subst status. apply String.eqb_eq in E1. rewrite E1. cbn.
    repeat split; try reflexivity; congruence. }
  destruct (String.eqb (ev_Type event) "email.bounced") eqn:E2.
  { inversion Hs; subst status. apply String.eqb_eq in E2. rewrite E2. cbn.
    repeat split; try reflexivity; congruence. }
  destruct (String.eqb (ev_Type event) "email.opened") eqn:E3; [|discriminate Hs].
  inversion Hs; subst status. apply String.eqb_eq in E3. rewrite E3. cbn.
  repeat split; try reflexivity; congruence.
Qed.

End webhook_wired.

(** ** More of the reaper *)

Section reaper_more.
Import common notification system.

(** X20. Whatever configuration it is given, [NewReaper] yields an
    interval, a stale threshold and a batch size that are positive (so
    the ticker of [Run] can be built), and it keeps a configuration
    whose three values are positive as it is. *)
Theorem NewReaper_positive (c : ReaperConfig) :
  0 < Interval (config (NewReaper c)) /\
  0 < StaleThreshold (config (NewReaper c)) /\
  0 < BatchSize (config (NewReaper c)) /\
  (0 < Interval c -> 0 < StaleThreshold c -> 0 < BatchSize c -> config (NewReaper c) = c).
Proof.
  unfold NewReaper. destruct c as [i s b]. cbn [Interval StaleThreshold BatchSize].
  destruct (i <=? 0) eqn:Ei; cbn [Interval StaleThreshold BatchSize];
    destruct (s <=? 0) eqn:Es; cbn [Interval StaleThreshold BatchSize];
    destruct (b <=? 0) eqn:Eb; cbn [Interval StaleThreshold BatchSize config];
    rewrite ?Z.leb_le, ?Z.leb_gt in *; unfold go.Minute, go.Second;
    repeat split; try lia; try (intros; lia); reflexivity.
Qed.

Variable cfg : Config.

Local Arguments sweep_loop : simpl never.

(** The tasks the loop of a sweep adds to the queue. *)
Lemma sweep_loop_tasks (staleLogs : list NotificationLog) :
  forall (recovered : Z) (w : World),
  exists added,
    tasks (snd (fst (exec (run_op cfg) (sweep_loop staleLogs recovered) w)))
      = tasks w ++ added /\
    (length added <= length staleLogs)%nat /\
    forall t, In t added -> exists l, In l staleLogs /\ t = send_task cfg (log_ID l).
Proof.
  induction staleLogs as [|l rest IH]; intros recovered w.
  - exists []. cbn. rewrite app_nil_r. split; [reflexivity|]. split; [cbn; lia|intros t []].
  - unfold sweep_loop; fold sweep_loop. cbn.
    unfold store.UpdateStatus. destruct (next_fault (store_faults w)) as [fault|]; cbn.
    + match goal with
      | |- context [exec (run_op cfg) (sweep_loop rest recovered) ?w1] =>
          destruct (IH recovered w1) as (added & Ht & Hlen & Hall);
          destruct (exec (run_op cfg) (sweep_loop rest recovered) w1) as [[a w2] evs]
      end.
      cbn in *. exists added. split; [exact Ht|]. split; [lia|].
      intros t Hin. destruct (Hall t Hin) as (l' & Hl' & ->). exists l'. split; [right|]; auto.
    + unfold queue.EnqueueSendNotification.
      destruct (next_fault (queue_faults w)) as [qfault|]; cbn.
      * match goal with
        | |- context [exec (run_op cfg) (sweep_loop rest recovered) ?w1] =>
            destruct (IH recovered w1) as (added & Ht & Hlen & Hall);
            destruct (exec (run_op cfg) (sweep_loop rest recovered) w1) as [[a w2] evs]
        end.
        cbn in *. exists added. split; [exact Ht|]. split; [lia|].
        intros t Hin. destruct (Hall t Hin) as (l' & Hl' & ->). exists l'.
        split; [right|]; auto.
      * match goal with
        | |- context [exec (run_op cfg) (sweep_loop rest (recovered + 1)) ?w1] =>
            destruct (IH (recovered + 1) w1) as (added & Ht & Hlen & Hall);
            destruct (exec (run_op cfg) (sweep_loop rest (recovered + 1)) w1) as [[a w2] evs]
        end.
        cbn in *. exists (send_task cfg (log_ID l) :: added). split.
        -- rewrite Ht. rewrite <- app_assoc. reflexivity.
        -- split; [cbn; lia|].
           intros t [<-|Hin]; [exists l; split; [left|]; reflexivity|].
           destruct (Hall t Hin) as (l' & Hl' & ->). exists l'. split; [right|]; auto.
Qed.

(** X21. One sweep adds at most [BatchSize] tasks to the queue and takes
    none away, and each task it adds is the send task of a row that was
    [queued] or [processing] and last updated more than the stale
    threshold before the sweep began. *)
Theorem sweep_adds_bounded (r : Reaper) (w : World) :
  0 < BatchSize (config r) ->
  exists added,
    tasks (snd (fst (exec (run_op cfg) (sweep r) w))) = tasks w ++ added /\
    Z.of_nat (length added) <= BatchSize (config r) /\
    forall t, In t added ->
      exists row u,
        In row (table w) /\ t = send_task cfg (store.row_ID row) /\
        (store.row_Status row = StatusQueued \/ store.row_Status row = StatusProcessing) /\
        store.row_UpdatedAt row = Some u /\ u < clock w - StaleThreshold (config r).
Proof.
  intros Hb. unfold sweep. cbn. unfold store.ListStale.
  destruct (next_fault (store_faults w)) as [fault|]; cbn.
  { exists []. rewrite app_nil_r. split; [reflexivity|]. split; [cbn; lia|intros t []]. }
  assert (Hlim : (if BatchSize (config r) <=? 0 then 50 else BatchSize (config r))
                 = BatchSize (config r)).
  { destruct (Z.leb_spec (BatchSize (config r)) 0); [lia|reflexivity]. }
  rewrite Hlim.
  set (rows := take (Z.to_nat (BatchSize (config r)))
                 (store.order_by_updated_at
                    (List.filter (store.is_stale (clock w - StaleThreshold (config r)))
                       (table w)))).
  assert (Hrows : forall row, In row rows ->
            In row (table w) /\
            store.is_stale (clock w - StaleThreshold (config r)) row = true).
  { intros row Hin. exact (stale_rows_in _ _ _ _ Hin). }
  assert (Hlen : Z.of_nat (length rows) <= BatchSize (config r)).
  { subst rows. rewrite length_take. lia. }
  destruct (map store.rowToLog rows) as [|l0 rest] eqn:Hlogs; cbn.
  { exists []. rewrite app_nil_r. split; [reflexivity|]. split; [cbn; lia|intros t []]. }
  assert (Hll : length (l0 :: rest) = length rows)
    by (rewrite <- Hlogs; apply length_map).
  rewrite exec_bind.
  match goal with
  | |- context [exec (run_op cfg) (sweep_loop (l0 :: rest) 0) ?w1] =>
      destruct (sweep_loop_tasks (l0 :: rest) 0 w1) as (added & Ht & Hadd & Hall);
      destruct (exec (run_op cfg) (sweep_loop (l0 :: rest) 0) w1) as [[recovered w2] evs]
  end.
  cbn in Ht. cbn [fst snd].
  assert (Hfinal : tasks (snd (fst (exec (run_op cfg)
                     (if 0 <? recovered
                      then call (slog LevelInfo "reaper: sweep complete"
                                   [("recovered", AInt recovered);
                                    ("total_stale", AInt (Z.of_nat (length (l0 :: rest))))])
                      else Ret tt) w2))) = tasks w2).
  { destruct (0 <? recovered); reflexivity. }
  destruct (exec (run_op cfg) _ w2) as [[u w3] evs'] eqn:Ef. cbn [fst snd] in *.
  exists added. split; [rewrite Hfinal; exact Ht|]. split.
  - lia.
  - intros t Hin. destruct (Hall t Hin) as (l & Hl & ->).
    rewrite <- Hlogs in Hl. apply in_map_iff in Hl as (row & <- & Hrow).
    destruct (Hrows row Hrow) as [Hin' Hst].
    apply is_stale_spec in Hst as [Hs (u0 & Hu & Hlt)].
    exists row, u0. repeat split; assumption.
Qed.

End reaper_more.

(** ** From the intake to the read, on the wired system *)

Section intake_then_read.
Import common notification system.

Variable cfg : Config.

Local Arguments Enqueue_create : simpl never.
Local Arguments Enqueue_ratelimit : simpl never.
Local Arguments store.apply_update : simpl never.
Local Arguments store.status_update : simpl never.

Lemma Enqueue_create_names_row (req : SendRequest) (w : World) (r : SendResponse) :
  store.unique_ids (table w) ->
  fst (fst (exec (run_op cfg) (Enqueue_create req) w)) = (Some r, None) ->
  names_row r (table (snd (fst (exec (run_op cfg) (Enqueue_create req) w)))).
Proof.
  intros Hu. unfold Enqueue_create. cbn.
  destruct (store.Create (next_fault (store_faults w)) (hd "" (uuids w)) (clock w)
              (new_log req) (table w)) as [[log' cerr] table'] eqn:Hc.
  cbn. destruct cerr as [cerr|]; cbn; [discriminate|].
  destruct (next_fault (store_faults w)) as [fault|] eqn:Hf;
    [unfold store.Create in Hc; discriminate Hc|].
  destruct (Create_ok _ _ _ _ _ _ Hc) as (created & -> & Hnoid & _ & Hkey & Hlog).
  unfold queue.EnqueueSendNotification.
  destruct (next_fault (queue_faults w)) as [qfault|]; cbn.
  - unfold store.UpdateStatus. destruct (next_fault (tl (store_faults w))); cbn; discriminate.
  - intros Hr. inversion Hr; subst r. clear Hr. split.
    + unfold store.unique_ids. rewrite map_app. apply NoDup_app. split; [exact Hu|].
      split; [|apply NoDup_singleton].
      intros x Hx Hin. cbn in Hin. apply list_elem_of_In in Hin. destruct Hin as [<-|[]].
      apply list_elem_of_In in Hx. exact (existsb_has_id _ _ Hnoid Hx).
    + exists created. split; [apply in_or_app; right; left; reflexivity|].
      unfold queued_response. cbn [resp_ID resp_IdempotencyKey resp_Channel resp_Status].
      assert (Hid : store.row_ID created = log_ID log').
      { change (store.row_ID created) with (log_ID (store.rowToLog created)).
        rewrite Hlog. reflexivity. }
      rewrite Hlog. cbn. repeat split; [exact Hid|].
      pose proof (Create_keeps_key None (hd "" (uuids w)) (clock w) (new_log req) (table w))
        as Hk.
      rewrite Hc in Hk. cbn in Hk. symmetry. exact Hk.
Qed.

Lemma Enqueue_ratelimit_names_row (s : Service) (req : SendRequest) (w : World)
    (r : SendResponse) :
  store.unique_ids (table w) ->
  fst (fst (exec (run_op cfg) (Enqueue_ratelimit s req) w)) = (Some r, None) ->
  names_row r (table (snd (fst (exec (run_op cfg) (Enqueue_ratelimit s req) w)))).
Proof.
  intros Hu. unfold Enqueue_ratelimit.
  destruct (rateLimiter s); [|apply Enqueue_create_names_row; exact Hu].
  cbn. destruct (hd _ (limiter_draws w)) as [[bytes e1] e2].
  destruct (ratelimit.Allow _ _ _ _) as [[allowed lerr] buckets']. cbn.
  destruct lerr as [lerr|]; cbn.
  - match goal with
    | |- context [exec (run_op cfg) (Enqueue_create req) ?w1] =>
        pose proof (Enqueue_create_names_row req w1 r Hu) as Hc;
        destruct (exec (run_op cfg) (Enqueue_create req) w1) as [[a w2] evs]
    end.
    cbn in *. exact Hc.
  - destruct allowed; cbn; [|discriminate].
    match goal with
    | |- context [exec (run_op cfg) (Enqueue_create req) ?w1] =>
        pose proof (Enqueue_create_names_row req w1 r Hu) as Hc;
        destruct (exec (run_op cfg) (Enqueue_create req) w1) as [[a w2] evs]
    end.
    cbn in *. exact Hc.
Qed.

Lemma Enqueue_names_row (s : Service) (req : SendRequest) (w : World) (r : SendResponse) :
  store.unique_ids (table w) ->
  fst (fst (exec (run_op cfg) (Enqueue s req) w)) = (Some r, None) ->
  names_row r (table (snd (fst (exec (run_op cfg) (Enqueue s req) w)))).
Proof.
  intros Hu. unfold Enqueue.
  destruct (IsValidType (req_Type req)); cbn; [|discriminate].
  unfold Enqueue_idempotency.
  destruct (String.eqb (req_IdempotencyKey req) ""); cbn;
    [apply Enqueue_ratelimit_names_row; exact Hu|].
  unfold store.GetByIdempotencyKey.
  destruct (next_fault (store_faults w)) as [fault|]; cbn.
  - match goal with
    | |- context [exec (run_op cfg) (Enqueue_ratelimit s req) ?w1] =>
        pose proof (Enqueue_ratelimit_names_row s req w1 r Hu) as Hc;
        destruct (exec (run_op cfg) (Enqueue_ratelimit s req) w1) as [[a w2] evs]
    end.
    cbn in *. exact Hc.
  - destruct (List.filter (store.has_key (req_IdempotencyKey req)) (table w))
      as [|row rest] eqn:Hfl; cbn.
    + match goal with
      | |- context [exec (run_op cfg) (Enqueue_ratelimit s req) ?w1] =>
          pose proof (Enqueue_ratelimit_names_row s req w1 r Hu) as Hc;
          destruct (exec (run_op cfg) (Enqueue_ratelimit s req) w1) as [[a w2] evs]
      end.
      cbn in *. exact Hc.
    + intros Hr. inversion Hr; subst r. clear Hr. split; [exact Hu|].
      exists row. split.
      * assert (Hin : In row (List.filter (store.has_key (req_IdempotencyKey req)) (table w)))
          by (rewrite Hfl; left; reflexivity).
        apply filter_In in Hin. exact (proj1 Hin).
      * cbn. repeat split.
Qed.

Lemma find_has_id_unique (t : list store.supabaseRow) (row : store.supabaseRow) :
  store.unique_ids t -> In row t -> List.find (store.has_id (store.row_ID row)) t = Some row.
Proof.
  intros Hu Hin.
  destruct (List.find (store.has_id (store.row_ID row)) t) as [row'|] eqn:Ef.
  - apply find_some in Ef as [Hin' Hid']. unfold store.has_id in Hid'.
    apply String.eqb_eq in Hid'. f_equal. unfold store.unique_ids in Hu.
    apply list_elem_of_In in Hin, Hin'.
    apply list_elem_of_lookup in Hin as (i & Hi). apply list_elem_of_lookup in Hin' as (j & Hj).
    assert (i = j).
    { eapply NoDup_lookup; [exact Hu| |].
      - rewrite list_lookup_fmap, Hi. reflexivity.
      - rewrite list_lookup_fmap, Hj. cbn. congruence. }
    subst j. congruence.
  - exfalso. eapply find_none in Ef; [|exact Hin]. unfold store.has_id in Ef.
    rewrite String.eqb_refl in Ef. discriminate Ef.
Qed.

(** X22. What the intake answers is what the read shows: when [Enqueue]
    returns a response, a [GetNotification] for the response's id that
    follows it (with a store that answers) returns a record with that id
    and with the idempotency key, channel and status of the response,
    whether the record was just created or found by its key. *)
Theorem Enqueue_then_GetNotification (s : Service) (req : SendRequest) (w : World)
    (r : SendResponse) :
  store.unique_ids (table w) ->
  fst (fst (exec (run_op cfg) (Enqueue s req) w)) = (Some r, None) ->
  next_fault (store_faults (snd (fst (exec (run_op cfg) (Enqueue s req) w)))) = None ->
  exists l,
    fst (fst (exec (run_op cfg) (GetNotification (resp_ID r))
                (snd (fst (exec (run_op cfg) (Enqueue s req) w)))))
      = (Some l, None) /\
    log_ID l = resp_ID r /\ log_IdempotencyKey l = resp_IdempotencyKey r /\
    log_Channel l = resp_Channel r /\ log_Status l = resp_Status r.
Proof.
  intros Hu Hr Hf.
  destruct (Enqueue_names_row s req w r Hu Hr) as (Hu' & row & Hin & Hid & Hk & Hc & Hs).
  set (w' := snd (fst (exec (run_op cfg) (Enqueue s req) w))) in *.
  unfold GetNotification. cbn. unfold store.GetByID. rewrite Hf.
  rewrite (filter_has_id_unique _ _ Hu').
  assert (Hfind : List.find (store.has_id (resp_ID r)) (table w') = Some row)
    by (rewrite <- Hid; apply find_has_id_unique; assumption).
  rewrite Hfind. cbn. exists (store.rowToLog row). split; [reflexivity|].
  repeat split; assumption.
Qed.

(** X23. With a store that answers, the row of a task shows how the
    task ended. After [ProcessTask] returned nil the row is [sent], with
    [sent_at] set to the time of the call and the provider's id stored
    (when the provider gave one); after it returned an error the row is
    [failed] with a non-empty error message. In both cases [updated_at]
    is the time of the call, and the column the last update did not
    name is as before: the error message of an earlier attempt after a
    success, the provider id after a failure. *)
Theorem ProcessTask_records_outcome (wk : Worker) (w : World) (i : nat)
    (row : store.supabaseRow) :
  store_faults w = [] ->
  store.unique_ids (table w) ->
  table w !! i = Some row ->
  exists row',
    table (snd (fst (exec (run_op cfg) (ProcessTask wk (store.row_ID row)) w))) !! i
      = Some row' /\
    store.row_UpdatedAt row' = Some (clock w) /\
    match fst (fst (exec (run_op cfg) (ProcessTask wk (store.row_ID row)) w)) with
    | None =>
        store.row_Status row' = StatusSent /\ store.row_SentAt row' = Some (clock w) /\
        store.row_ProviderID row'
          = (if String.eqb (fst (hd ("", None) (sends w))) "" then store.row_ProviderID row
             else Some (fst (hd ("", None) (sends w)))) /\
        store.row_ErrorMessage row' = store.row_ErrorMessage row
    | Some _ =>
        store.row_Status row' = StatusFailed /\
        (exists m, m <> "" /\ store.row_ErrorMessage row' = Some m) /\
        store.row_ProviderID row' = store.row_ProviderID row
    end.
Proof.
  intros Hf Hu Hi.
  assert (Hin : In row (table w)).
  { apply list_elem_of_In. eapply list_elem_of_lookup_2. exact Hi. }
  assert (Hself : store.has_id (store.row_ID row) row = true)
    by (unfold store.has_id; apply String.eqb_refl).
  assert (Hup : forall u t, t !! i = Some row ->
            store.update_where (store.has_id (store.row_ID row)) u t !! i
            = Some (store.apply_update u row)).
  { intros u t Ht. unfold store.update_where. rewrite lookup_map, Ht. cbn.
    rewrite Hself. reflexivity. }
  assert (Hup2 : forall u u' t, t !! i = Some row ->
            store.update_where (store.has_id (store.row_ID row)) u'
              (store.update_where (store.has_id (store.row_ID row)) u t) !! i
            = Some (store.apply_update u' (store.apply_update u row))).
  { intros u u' t Ht. unfold store.update_where at 1. rewrite lookup_map, (Hup u t Ht). cbn.
    unfold store.has_id. cbn. rewrite String.eqb_refl. reflexivity. }
  unfold ProcessTask, ProcessTask_found, ProcessTask_deliver, ProcessTask_send. cbn.
  rewrite Hf. cbn. unfold store.GetByID.
  rewrite (filter_has_id_unique _ _ Hu), (find_has_id_unique _ _ Hu Hin). cbn.
  destruct (IsValidType (store.row_Type row)); cbn.
  2:{ eexists. split; [apply Hup2; exact Hi|]. rewrite !apply_status_update. cbn.
      split; [reflexivity|]. split; [reflexivity|]. split; [|reflexivity].
      eexists. split; [|reflexivity]. discriminate. }
  destruct (has_provider wk (store.row_Channel row)); cbn.
  2:{ eexists. split; [apply Hup2; exact Hi|]. rewrite !apply_status_update. cbn.
      split; [reflexivity|]. split; [reflexivity|]. split; [|reflexivity].
      eexists. split; [|reflexivity]. discriminate. }
  destruct (render cfg (store.row_Type row) (store.row_TemplateData row))
    as [[[subject html] text] [rerr|]]; cbn.
  { eexists. split; [apply Hup2; exact Hi|]. rewrite !apply_status_update. cbn.
    split; [reflexivity|]. split; [reflexivity|]. split; [|reflexivity].
    eexists. split; [|reflexivity]. discriminate. }
  destruct (hd ("", None) (sends w)) as [pid [serr|]]; cbn.
  { eexists. split; [apply Hup2; exact Hi|]. rewrite !apply_status_update. cbn.
    split; [reflexivity|]. split; [reflexivity|]. split; [|reflexivity].
    eexists. split; [|reflexivity]. discriminate. }
  eexists. split; [apply Hup2; exact Hi|]. rewrite !apply_status_update. cbn.
  repeat split; reflexivity.
Qed.

End intake_then_read.

(** ** More of the recipient limiter *)

Section limiter_more.
Import common redis ratelimit.

(** X24. Recipients are limited apart: a call of [Allow] for one
    recipient, whatever its outcome and whichever pipeline fails, leaves
    the bucket of every other recipient as it was. *)
Theorem Allow_other_recipients (r : RedisRecipientLimiter) (env : AllowEnv)
    (recipient other : string) (db : gmap string entry) :
  recipient <> other ->
  snd (Allow r env recipient db) !! bucket_key other = db !! bucket_key other.
Proof.
  intros Hne.
  assert (Hk : bucket_key recipient <> bucket_key other).
  { intros H. apply Hne. apply bucket_key_inj. exact H. }
  unfold Allow. destruct (exec1_err env); [reflexivity|].
  assert (H1 : ZRemRangeByScore_upto (now env) (bucket_key recipient) (now env - window r) db
               !! bucket_key other = db !! bucket_key other).
  { unfold ZRemRangeByScore_upto. apply put_lookup_ne. exact Hk. }
  destruct (maxPerHour r <=? _); [exact H1|].
  destruct (exec2_err env); [exact H1|]. cbn [snd].
  unfold Expire.
  match goal with
  | |- context [ZAdd ?n ?k ?s ?m ?d] =>
      assert (H2 : ZAdd n k s m d !! bucket_key other = db !! bucket_key other)
        by (unfold ZAdd; rewrite put_lookup_ne by exact Hk; exact H1);
      set (db2 := ZAdd n k s m d) in *
  end.
  destruct (decide _); [rewrite lookup_delete_ne by exact Hk; exact H2|].
  destruct (_ <=? 0); [rewrite lookup_delete_ne by exact Hk; exact H2|].
  rewrite lookup_insert_ne by exact Hk. exact H2.
Qed.

(** X25. With a healthy store the decision of [Allow] is exactly the
    count: it admits when fewer than [maxPerHour] entries of the
    recipient are unexpired, and denies without error otherwise. A limit
    of zero or less admits nobody. *)
Theorem Allow_decision (r : RedisRecipientLimiter) (env : AllowEnv) (recipient : string)
    (db : gmap string entry) :
  healthy env = true ->
  0 <= window r ->
  fst (Allow r env recipient db)
  = (Z.of_nat (size (unexpired r (now env) recipient db)) <? maxPerHour r, None) /\
  (maxPerHour r <= 0 -> fst (Allow r env recipient db) = (false, None)).
Proof.
  intros Hh HW.
  destruct (Allow r env recipient db) as [res db'] eqn:HA.
  destruct (Allow_healthy r env recipient db db' res Hh HW HA) as [_ Hcases].
  cbv zeta in Hcases. cbn [fst].
  assert (Hres : res = (Z.of_nat (size (unexpired r (now env) recipient db)) <? maxPerHour r,
                        None)).
  { destruct Hcases as [(Hle & -> & _)|(Hlt & -> & _)].
    - destruct (Z.ltb_spec (Z.of_nat (size (unexpired r (now env) recipient db)))
                  (maxPerHour r)); [lia|reflexivity].
    - destruct (Z.ltb_spec (Z.of_nat (size (unexpired r (now env) recipient db)))
                  (maxPerHour r)); [reflexivity|lia]. }
  split; [exact Hres|]. intros Hmax. rewrite Hres.
  destruct (Z.ltb_spec (Z.of_nat (size (unexpired r (now env) recipient db))) (maxPerHour r));
    [lia|reflexivity].
Qed.

(** X26. The bucket of a recipient goes away by itself: after an
    admission at time [now], a Redis that is read at or after
    [now + window + 1 minute] without another admission in between no
    longer holds the recipient's key. *)
Theorem Allow_bucket_expires (r : RedisRecipientLimiter) (env : AllowEnv) (recipient : string)
    (db : gmap string entry) (T : Z) :
  healthy env = true ->
  0 <= window r ->
  fst (Allow r env recipient db) = (true, None) ->
  now env + window r + go.Minute <= T ->
  get T (snd (Allow r env recipient db)) (bucket_key recipient) = no_entry /\
  ZCard T (bucket_key recipient) (snd (Allow r env recipient db)) = 0.
Proof.
  intros Hh HW Hres HT.
  destruct (Allow r env recipient db) as [res db'] eqn:HA. cbn [fst snd] in *.
  destruct (Allow_healthy r env recipient db db' res Hh HW HA) as [_ Hcases].
  cbv zeta in Hcases.
  destruct Hcases as [(_ & Hr & _)|(_ & _ & Hdb')]; [congruence|].
  assert (Hg : get T db' (bucket_key recipient) = no_entry).
  { unfold get. rewrite Hdb'. cbn.
    destruct (Z.leb_spec (now env + (window r + go.Minute)) T); [reflexivity|lia]. }
  split; [exact Hg|]. unfold ZCard. rewrite Hg. reflexivity.
Qed.

End limiter_more.

(** ** The API key check *)

Section Auth_props.
Import common middleware.

Lemma byte_range (c : ascii) : 0 <= Z.of_N (N_of_ascii c) < 256.
Proof.
  pose proof (N_ascii_bounded c) as H. lia.
Qed.

Lemma bytes_range (s : string) : Forall (fun b => 0 <= b < 256) (bytes s).
Proof.
  unfold bytes. apply Forall_forall. intros b Hb. apply list_elem_of_In in Hb.
  apply in_map_iff in Hb as (c & <- & _). apply byte_range.
Qed.

Lemma bytes_inj (s1 s2 : string) : bytes s1 = bytes s2 -> s1 = s2.
Proof.
  revert s2. induction s1 as [|c1 s1 IH]; intros [|c2 s2] H; try discriminate H.
  - reflexivity.
  - unfold bytes in H. cbn in H. inversion H as [[Hc Hs]].
    apply N2Z.inj in Hc. f_equal.
    + rewrite <- (ascii_N_embedding c1), <- (ascii_N_embedding c2), Hc. reflexivity.
    + apply IH. exact Hs.
Qed.

Lemma log2_byte (a : Z) : 0 <= a < 256 -> Z.log2 a < 8.
Proof.
  intros Ha. destruct (Z.eq_dec a 0) as [->|Hne]; [cbn; lia|].
  apply Z.log2_lt_pow2; [lia|]. change (2 ^ 8) with 256. lia.
Qed.

Lemma lor_byte (a b : Z) : 0 <= a < 256 -> 0 <= b < 256 -> 0 <= Z.lor a b < 256.
Proof.
  intros Ha Hb. split; [apply Z.lor_nonneg; lia|].
  destruct (Z.eq_dec (Z.lor a b) 0) as [->|Hne]; [lia|].
  assert (Hpos : 0 < Z.lor a b) by (pose proof (proj2 (Z.lor_nonneg a b)); lia).
  change 256 with (2 ^ 8). apply Z.log2_lt_pow2; [exact Hpos|].
  rewrite Z.log2_lor by lia.
  apply Z.max_lub_lt; apply log2_byte; assumption.
Qed.

Lemma lxor_byte (a b : Z) : 0 <= a < 256 -> 0 <= b < 256 -> 0 <= Z.lxor a b < 256.
Proof.
  intros Ha Hb. split; [apply Z.lxor_nonneg; lia|].
  destruct (Z.eq_dec (Z.lxor a b) 0) as [->|Hne]; [lia|].
  assert (Hpos : 0 < Z.lxor a b) by (pose proof (proj2 (Z.lxor_nonneg a b)); lia).
  change 256 with (2 ^ 8). apply Z.log2_lt_pow2; [exact Hpos|].
  eapply Z.le_lt_trans; [apply Z.log2_lxor; lia|].
  apply Z.max_lub_lt; apply log2_byte; assumption.
Qed.

(** The accumulator of the loop stays a byte, and is zero at the end
    exactly when it was zero and the two slices agree. *)
Lemma or_xor_spec (x : list Z) :
  forall (y : list Z) (v : Z),
    length x = length y ->
    Forall (fun b => 0 <= b < 256) x -> Forall (fun b => 0 <= b < 256) y -> 0 <= v < 256 ->
    0 <= or_xor v x y < 256 /\ (or_xor v x y = 0 <-> v = 0 /\ x = y).
Proof.
  induction x as [|a x IH]; intros [|b y] v Hlen Hx Hy Hv; try discriminate Hlen.
  - cbn. split; [exact Hv|]. tauto.
  - cbn. apply Forall_cons in Hx as [Ha Hx]. apply Forall_cons in Hy as [Hb Hy].
    assert (Hv' : 0 <= Z.lor v (Z.lxor a b) < 256)
      by (apply lor_byte; [exact Hv|apply lxor_byte; assumption]).
    destruct (IH y (Z.lor v (Z.lxor a b))) as [Hr Hz]; auto.
    split; [exact Hr|]. rewrite Hz, Z.lor_eq_0_iff, Z.lxor_eq_0_iff. split.
    + intros [[Hv0 Hab] Hxy]. subst. auto.
    + intros [Hv0 Heq]. inversion Heq; subst. auto.
Qed.

Lemma ConstantTimeByteEq_zero (v : Z) :
  0 <= v < 256 -> (ConstantTimeByteEq v 0 = 1 <-> v = 0).
Proof.
  intros Hv. unfold ConstantTimeByteEq. rewrite Z.lxor_0_r.
  destruct (Z.eq_dec v 0) as [->|Hne].
  - split; [reflexivity|]. intros _. reflexivity.
  - split; [|contradiction]. intros H. exfalso.
    rewrite Z.mod_small in H by lia. rewrite Z.shiftr_div_pow2 in H by lia.
    rewrite Z.div_small in H by lia. discriminate H.
Qed.

Lemma ConstantTimeCompare_eq (s1 s2 : string) :
  ConstantTimeCompare (bytes s1) (bytes s2) = 1 <-> s1 = s2.
Proof.
  unfold ConstantTimeCompare.
  destruct (Nat.eqb (length (bytes s1)) (length (bytes s2))) eqn:Hlen; cbn [negb].
  - apply Nat.eqb_eq in Hlen.
    destruct (or_xor_spec (bytes s1) (bytes s2) 0 Hlen (bytes_range s1) (bytes_range s2))
      as [Hr Hz]; [lia|].
    rewrite (ConstantTimeByteEq_zero _ Hr), Hz. split.
    + intros [_ H]. apply bytes_inj. exact H.
    + intros ->. split; reflexivity.
  - split; [discriminate|]. intros ->. rewrite Nat.eqb_refl in Hlen. discriminate Hlen.
Qed.

(** The constant-time comparison decides plain equality: a key is valid
    exactly when it is, byte for byte, one of the configured keys. *)
Lemma isValidKey_iff (key : string) (validKeys : list string) :
  isValidKey key validKeys = true <-> In key validKeys.
Proof.
  induction validKeys as [|valid rest IH]; cbn.
  - split; [discriminate|tauto].
  - destruct (Z.eqb_spec (ConstantTimeCompare (bytes key) (bytes valid)) 1) as [H1|H1].
    + apply ConstantTimeCompare_eq in H1. subst valid. split; auto.
    + rewrite IH. split; [auto|]. intros [Heq|Hin]; [|exact Hin].
      exfalso. apply H1. apply ConstantTimeCompare_eq. congruence.
Qed.

(** X27. [Auth] lets a request through exactly when its key is not empty
    and is, byte for byte, one of the configured keys (the constant-time
    comparison of [isValidKey] decides plain equality); every other
    request is aborted with 401. A request without a key is refused even
    when the empty string is among the configured keys. *)
Theorem Auth_passes_iff {D : Type} (validKeys : list string) (apiKey : string) :
  (@Auth D validKeys apiKey = Next <-> apiKey <> "" /\ In apiKey validKeys) /\
  (forall written, @Auth D validKeys apiKey = Abort written ->
     fst written = StatusUnauthorized /\ Success (snd written) = false).
Proof.
  unfold Auth. destruct (String.eqb_spec apiKey "") as [->|Hne].
  - split.
    + split; [discriminate|]. intros [H _]. contradiction.
    + intros written H. inversion H; subst. split; reflexivity.
  - destruct (isValidKey apiKey validKeys) eqn:Hv; cbn [negb].
    + apply isValidKey_iff in Hv. split; [tauto|]. intros written H. discriminate H.
    + split.
      * split; [discriminate|]. intros [_ Hin]. apply isValidKey_iff in Hin. congruence.
      * intros written H. inversion H; subst. split; reflexivity.
Qed.

End Auth_props.

(** ** The template engine *)

Section text_props.
Import text.

Lemma single_spaced_tail (c : ascii) (l : list ascii) :
  single_spaced (c :: l) = true -> single_spaced l = true.
Proof. cbn. intros H. apply andb_true_iff in H as [_ H]. exact H. Qed.

Lemma single_spaced_suffix (p l : list ascii) :
  single_spaced (p ++ l) = true -> single_spaced l = true.
Proof.
  induction p as [|c p IH]; [auto|]. intros H. apply IH. exact (single_spaced_tail _ _ H).
Qed.

Lemma single_spaced_prefix (l q : list ascii) :
  single_spaced (l ++ q) = true -> single_spaced l = true.
Proof.
  induction l as [|c l IH]; [reflexivity|]. cbn. intros H.
  apply andb_true_iff in H as [Hc Hl]. rewrite (IH Hl), andb_true_r.
  destruct (re_space c); [|reflexivity]. cbn in *.
  apply andb_true_iff in Hc as [Hsp Hnext]. rewrite Hsp. cbn.
  destruct l as [|c2 l]; [reflexivity|exact Hnext].
Qed.

(** What the collapsing of white space leaves. *)
Lemma collapse_spaces_single (s : string) :
  forall in_run : bool,
    single_spaced (list_ascii_of_string (collapse_spaces in_run s)) = true /\
    (in_run = true ->
     match list_ascii_of_string (collapse_spaces in_run s) with
     | c :: _ => re_space c = false
     | [] => True
     end).
Proof.
  induction s as [|c s IH]; intros in_run; [split; [reflexivity|intros _; exact I]|].
  cbn [collapse_spaces]. destruct (re_space c) eqn:Hc.
  - destruct in_run.
    + exact (IH true).
    + destruct (IH true) as [Hs Hh]. split; [|discriminate].
      cbn [list_ascii_of_string single_spaced]. rewrite Hs, andb_true_r. cbn.
      specialize (Hh eq_refl).
      destruct (list_ascii_of_string (collapse_spaces true s)) as [|c2 l]; [reflexivity|].
      rewrite Hh. reflexivity.
  - destruct (IH false) as [Hs _]. split.
    + cbn [list_ascii_of_string single_spaced]. rewrite Hc, Hs. reflexivity.
    + intros _. cbn [list_ascii_of_string]. exact Hc.
Qed.

(** Trimming on the left drops a prefix and stops at a byte that is not
    ASCII white space. *)
Lemma TrimLeft_space_suffix (s : string) :
  (exists p, list_ascii_of_string s = p ++ list_ascii_of_string (TrimLeft_space s)) /\
  match list_ascii_of_string (TrimLeft_space s) with
  | c :: _ => asciiSpace c = false
  | [] => True
  end.
Proof.
  assert (H : forall n s, (String.length s <= n)%nat ->
            (exists p, list_ascii_of_string s = p ++ list_ascii_of_string (TrimLeft_space s)) /\
            match list_ascii_of_string (TrimLeft_space s) with
            | c :: _ => asciiSpace c = false
            | [] => True
            end).
  { clear s. induction n as [|n IH]; intros s Hn.
    - destruct s; [|cbn in Hn; lia]. split; [exists []; reflexivity|exact I].
    - destruct s as [|c1 r1]; [split; [exists []; reflexivity|exact I]|].
      cbn [TrimLeft_space]. cbn in Hn.
      destruct (asciiSpace c1) eqn:H1.
      { destruct (IH r1) as [(p & Hp) Hh]; [lia|]. split; [|exact Hh].
        exists (c1 :: p). cbn. rewrite Hp at 1. reflexivity. }
      destruct r1 as [|c2 r2]; [split; [exists []; reflexivity|exact H1]|].
      cbn in Hn. destruct (space2 c1 c2) eqn:H2.
      { destruct (IH r2) as [(p & Hp) Hh]; [lia|]. split; [|exact Hh].
        exists (c1 :: c2 :: p). cbn. rewrite Hp at 1. reflexivity. }
      destruct r2 as [|c3 r3]; [split; [exists []; reflexivity|exact H1]|].
      cbn in Hn. destruct (space3 c1 c2 c3) eqn:H3.
      { destruct (IH r3) as [(p & Hp) Hh]; [lia|]. split; [|exact Hh].
        exists (c1 :: c2 :: c3 :: p). cbn. rewrite Hp at 1. reflexivity. }
      split; [exists []; reflexivity|exact H1]. }
  exact (H (String.length s) s (le_n _)).
Qed.

Lemma trim_reversed_suffix (l : list ascii) :
  (exists p, l = p ++ trim_reversed l) /\
  match trim_reversed l with c :: _ => asciiSpace c = false | [] => True end.
Proof.
  assert (H : forall n l, (length l <= n)%nat ->
            (exists p, l = p ++ trim_reversed l) /\
            match trim_reversed l with c :: _ => asciiSpace c = false | [] => True end).
  { clear l. induction n as [|n IH]; intros l Hn.
    - destruct l; [|cbn in Hn; lia]. split; [exists []; reflexivity|exact I].
    - destruct l as [|c1 r1]; [split; [exists []; reflexivity|exact I]|].
      cbn [trim_reversed]. cbn in Hn.
      destruct (asciiSpace c1) eqn:H1.
      { destruct (IH r1) as [(p & Hp) Hh]; [lia|]. split; [|exact Hh].
        exists (c1 :: p). cbn. rewrite Hp at 1. reflexivity. }
      destruct r1 as [|c2 r2]; [split; [exists []; reflexivity|exact H1]|].
      cbn in Hn. destruct (space2 c2 c1) eqn:H2.
      { destruct (IH r2) as [(p & Hp) Hh]; [lia|]. split; [|exact Hh].
        exists (c1 :: c2 :: p). cbn. rewrite Hp at 1. reflexivity. }
      destruct r2 as [|c3 r3]; [split; [exists []; reflexivity|exact H1]|].
      cbn in Hn. destruct (space3 c3 c2 c1) eqn:H3.
      { destruct (IH r3) as [(p & Hp) Hh]; [lia|]. split; [|exact Hh].
        exists (c1 :: c2 :: c3 :: p). cbn. rewrite Hp at 1. reflexivity. }
      split; [exists []; reflexivity|exact H1]. }
  exact (H (length l) l (le_n _)).
Qed.

(** Trimming on the right keeps a prefix that does not end in ASCII
    white space. *)
Lemma TrimRight_space_prefix (s : string) :
  (exists q, list_ascii_of_string s = list_ascii_of_string (TrimRight_space s) ++ q) /\
  match rev (list_ascii_of_string (TrimRight_space s)) with
  | c :: _ => asciiSpace c = false
  | [] => True
  end.
Proof.
  unfold TrimRight_space. rewrite list_ascii_of_string_of_list_ascii, rev_involutive.
  destruct (trim_reversed_suffix (rev (list_ascii_of_string s))) as [(p & Hp) Hh].
  split; [|exact Hh].
  exists (rev p). rewrite <- rev_app_distr, <- Hp, rev_involutive. reflexivity.
Qed.

Lemma re_space_ascii (c : ascii) : re_space c = true -> asciiSpace c = true.
Proof.
  unfold re_space, asciiSpace. intros H.
  repeat (apply orb_true_iff in H as [H|H]); apply N.eqb_eq in H; rewrite H; reflexivity.
Qed.

(** The shape of a text that is single-spaced and trimmed. *)
Lemma trimmed_single_spaced (t : list ascii) :
  single_spaced t = true ->
  match t with c :: _ => asciiSpace c = false | [] => True end ->
  match rev t with c :: _ => asciiSpace c = false | [] => True end ->
  forall (i : nat) (c : ascii),
    t !! i = Some c -> re_space c = true ->
    c = " "%char /\ (0 < i)%nat /\ exists c', t !! S i = Some c' /\ re_space c' = false.
Proof.
  intros Hs Hfirst Hlast i c Hi Hc.
  assert (Hi0 : (0 < i)%nat).
  { destruct i; [|lia]. destruct t as [|c0 t]; [discriminate Hi|].
    cbn in Hi. inversion Hi; subst c0. apply re_space_ascii in Hc. congruence. }
  assert (Hsplit : t = take i t ++ c :: drop (S i) t).
  { rewrite <- (take_drop i t) at 1. f_equal. apply drop_S. exact Hi. }
  assert (Hs' : single_spaced (c :: drop (S i) t) = true).
  { rewrite Hsplit in Hs. exact (single_spaced_suffix _ _ Hs). }
  cbn in Hs'. rewrite Hc in Hs'. cbn in Hs'.
  apply andb_true_iff in Hs' as [Hs' _]. apply andb_true_iff in Hs' as [Hsp Hnext].
  apply Ascii.eqb_eq in Hsp. split; [exact Hsp|]. split; [exact Hi0|].
  destruct (drop (S i) t) as [|c' rest] eqn:Hd.
  - exfalso. rewrite Hsplit, rev_app_distr in Hlast. cbn in Hlast.
    apply re_space_ascii in Hc. congruence.
  - exists c'. split; [|apply negb_true_iff; exact Hnext].
    rewrite <- (Nat.add_0_r (S i)), <- lookup_drop, Hd. reflexivity.
Qed.

End text_props.

Section template_props.
Import common notification text template.

(** X28. The plain text of a message is tidy: whatever the HTML, each
    byte of [stripHTML]'s result that is a tab, newline, form feed,
    carriage return or space is a space, stands neither first nor last,
    and is followed by a byte that is none of these. *)
Theorem stripHTML_tidy (html : string) (i : nat) (c : ascii) :
  list_ascii_of_string (stripHTML html) !! i = Some c -> re_space c = true ->
  c = " "%char /\ (0 < i)%nat /\
  exists c', list_ascii_of_string (stripHTML html) !! S i = Some c' /\ re_space c' = false.
Proof.
  unfold stripHTML. cbv zeta.
  set (t := collapse_spaces false _).
  destruct (collapse_spaces_single
              (ReplaceAll
                 (ReplaceAll
                    (ReplaceAll
                       (ReplaceAll
                          (ReplaceAll (ReplaceAll (strip_tags false html) "&amp;" "&")
                             "&lt;" "<") "&gt;" ">") "&quot;" dquote) "&#39;" "'")
                 "&nbsp;" " ") false) as [Hs _].
  fold t in Hs. unfold TrimSpace.
  destruct (TrimLeft_space_suffix t) as [(p & Hp) Hfirst].
  destruct (TrimRight_space_prefix (TrimLeft_space t)) as [(q & Hq) Hlast].
  assert (Hs1 : single_spaced (list_ascii_of_string (TrimLeft_space t)) = true).
  { rewrite Hp in Hs. exact (single_spaced_suffix _ _ Hs). }
  assert (Hs2 : single_spaced (list_ascii_of_string (TrimRight_space (TrimLeft_space t))) = true).
  { rewrite Hq in Hs1. exact (single_spaced_prefix _ _ Hs1). }
  apply trimmed_single_spaced; [exact Hs2| |exact Hlast].
  destruct (list_ascii_of_string (TrimRight_space (TrimLeft_space t))) as [|c0 l] eqn:E; [exact I|].
  rewrite Hq in Hfirst. exact Hfirst.
Qed.

End template_props.

Section plain_text.
Import common notification text template.

(** A printable ASCII byte. *)
Lemma printable_not_space (c : ascii) :
  (33 <= byte c < 127)%N ->
  asciiSpace c = false /\ re_space c = false /\
  (forall c2, space2 c c2 = false /\ space2 c2 c = false) /\
  (forall c2 c3, space3 c c2 c3 = false /\ space3 c3 c2 c = false).
Proof.
  intros H. unfold asciiSpace, re_space, space2, space3.
  repeat split;
    repeat match goal with
           | |- context [(?a =? ?b)%N] => destruct (N.eqb_spec a b); try lia
           | |- context [(?a <=? ?b)%N] => destruct (N.leb_spec a b); try lia
           end; cbn; rewrite ?andb_false_r; reflexivity.
Qed.

Lemma strip_tags_plain (s : string) :
  Forall (fun c => c <> "<"%char) (list_ascii_of_string s) -> strip_tags false s = s.
Proof.
  induction s as [|c s IH]; [reflexivity|]. cbn. intros H.
  apply Forall_cons in H as [Hc Hs]. apply Ascii.eqb_neq in Hc. rewrite Hc. cbn.
  rewrite (IH Hs). reflexivity.
Qed.

Lemma ReplaceAll_plain (s old' new : string) :
  Forall (fun c => c <> "&"%char) (list_ascii_of_string s) ->
  ReplaceAll s (String "&" old') new = s.
Proof.
  unfold ReplaceAll. induction s as [|c s IH]; [reflexivity|]. intros H.
  cbn [list_ascii_of_string] in H. apply Forall_cons in H as [Hc Hs].
  cbn [replace_from String.prefix].
  destruct (ascii_dec "&" c) as [Heq|Hne]; [congruence|].
  rewrite (IH Hs). reflexivity.
Qed.

Lemma collapse_spaces_plain (s : string) :
  single_spaced (list_ascii_of_string s) = true ->
  (forall c, In c (list_ascii_of_string s) -> re_space c = true -> c = " "%char) ->
  forall in_run,
    (in_run = true ->
     match s with String c _ => re_space c = false | EmptyString => True end) ->
    collapse_spaces in_run s = s.
Proof.
  induction s as [|c s IH]; [reflexivity|]. intros Hs Hsp in_run Hrun.
  cbn [list_ascii_of_string single_spaced] in Hs. apply andb_true_iff in Hs as [Hc Hs].
  cbn [collapse_spaces]. destruct (re_space c) eqn:Ec.
  - cbn in Hc. apply andb_true_iff in Hc as [Hc Hnext]. apply Ascii.eqb_eq in Hc. subst c.
    destruct in_run; [specialize (Hrun eq_refl); cbn in Hrun; congruence|].
    f_equal. apply IH; [exact Hs|intros c Hin; apply Hsp; right; exact Hin|].
    intros _. destruct s as [|c2 s]; [exact I|]. cbn in Hnext.
    apply negb_true_iff in Hnext. exact Hnext.
  - f_equal. apply IH; [exact Hs|intros c' Hin; apply Hsp; right; exact Hin|discriminate].
Qed.

Lemma TrimLeft_space_plain (s : string) :
  match s with String c _ => (33 <= byte c < 127)%N | EmptyString => True end ->
  TrimLeft_space s = s.
Proof.
  destruct s as [|c1 r1]; [reflexivity|]. intros H.
  destruct (printable_not_space c1 H) as (H1 & _ & H2 & H3).
  cbn [TrimLeft_space]. rewrite H1.
  destruct r1 as [|c2 r2]; [reflexivity|]. rewrite (proj1 (H2 c2)).
  destruct r2 as [|c3 r3]; [reflexivity|]. rewrite (proj1 (H3 c2 c3)). reflexivity.
Qed.

Lemma trim_reversed_plain (l : list ascii) :
  match l with c :: _ => (33 <= byte c < 127)%N | [] => True end ->
  trim_reversed l = l.
Proof.
  destruct l as [|c1 r1]; [reflexivity|]. intros H.
  destruct (printable_not_space c1 H) as (H1 & _ & H2 & H3).
  cbn [trim_reversed]. rewrite H1.
  destruct r1 as [|c2 r2]; [reflexivity|]. rewrite (proj2 (H2 c2)).
  destruct r2 as [|c3 r3]; [reflexivity|]. rewrite (proj2 (H3 c2 c3)). reflexivity.
Qed.

(** X29. Text that is already plain passes through [stripHTML]
    unchanged: printable ASCII without [<] and [&], in which every
    space stands alone between two other characters. *)
Theorem stripHTML_plain (s : string) :
  Forall (fun c => (32 <= byte c < 127)%N /\ c <> "<"%char /\ c <> "&"%char)
    (list_ascii_of_string s) ->
  single_spaced (list_ascii_of_string s) = true ->
  head (list_ascii_of_string s) <> Some " "%char ->
  last (list_ascii_of_string s) <> Some " "%char ->
  stripHTML s = s.
Proof.
  intros Hall Hs Hfirst Hlast. unfold stripHTML. cbv zeta.
  assert (Hlt : Forall (fun c => c <> "<"%char) (list_ascii_of_string s))
    by (eapply Forall_impl; [exact Hall|]; cbn; tauto).
  assert (Hamp : Forall (fun c => c <> "&"%char) (list_ascii_of_string s))
    by (eapply Forall_impl; [exact Hall|]; cbn; tauto).
  rewrite (strip_tags_plain s Hlt). rewrite !(ReplaceAll_plain s _ _ Hamp).
  assert (Hbyte : forall c, In c (list_ascii_of_string s) ->
                            c = " "%char \/ (33 <= byte c < 127)%N).
  { intros c Hin. rewrite Forall_forall in Hall. apply list_elem_of_In in Hin.
    destruct (Hall c Hin) as (Hr & _ & _).
    destruct (N.eq_dec (byte c) 32%N) as [H32|H32]; [|right; lia].
    left. unfold byte in H32. rewrite <- (ascii_N_embedding c), H32. reflexivity. }
  rewrite collapse_spaces_plain; [|exact Hs| |discriminate].
  2:{ intros c Hin Hc. destruct (Hbyte c Hin) as [->|Hp]; [reflexivity|].
      destruct (printable_not_space c Hp) as (_ & H & _). congruence. }
  unfold TrimSpace. rewrite TrimLeft_space_plain.
  2:{ destruct s as [|c r]; [exact I|]. cbn in Hfirst.
      destruct (Hbyte c (or_introl eq_refl)) as [->|Hp]; [congruence|exact Hp]. }
  unfold TrimRight_space. rewrite trim_reversed_plain.
  - rewrite rev_involutive. apply string_of_list_ascii_of_string.
  - destruct (rev (list_ascii_of_string s)) as [|c r] eqn:Er; [exact I|].
    assert (Hl : last (list_ascii_of_string s) = Some c).
    { rewrite <- (rev_involutive (list_ascii_of_string s)), Er. cbn.
      apply last_snoc. }
    assert (Hin : In c (list_ascii_of_string s)).
    { apply in_rev. rewrite Er. left. reflexivity. }
    destruct (Hbyte c Hin) as [->|Hp]; [congruence|exact Hp].
Qed.

End plain_text.

Section Render_props.
Import common notification text template.

Variable ExecuteTemplate : string -> Data -> string + error.

Lemma registry_lookup (t : NotificationType) :
  match registry !! t with
  | Some meta => IsValidType t = true /\ TemplateName meta = t /\ Subject meta <> ""
  | None => IsValidType t = false
  end.
Proof.
  set (keys := [TypeConfirmSignup; TypeInviteUser; TypeMagicLink; TypeChangeEmail;
                TypeResetPassword; TypeReauthentication; TypePasswordChanged;
                TypeEmailChanged; TypePhoneChanged; TypeIdentityLinked;
                TypeIdentityUnlinked]).
  destruct (decide (t ∈ keys)) as [Hin|Hnot].
  - subst keys. repeat (apply elem_of_cons in Hin as [->|Hin]);
      [repeat split; vm_compute; (reflexivity || discriminate) ..|].
    apply elem_of_nil in Hin. destruct Hin.
  - assert (Hr : registry !! t = None).
    { apply not_elem_of_list_to_map_1. exact Hnot. }
    assert (Hv : validTypes !! t = None).
    { apply not_elem_of_list_to_map_1. exact Hnot. }
    rewrite Hr. unfold IsValidType. rewrite Hv. reflexivity.
Qed.

(** X30. The renderer knows exactly the types the intake accepts. For a
    type [IsValidType] rejects, [Render] fails with "no template
    registered" without running a template. For a type it accepts,
    [Render] runs the template named after the type, and fails only when
    that fails; when it succeeds the subject is not empty (the
    [Subject] of the data when that is a non-empty string, else the
    registered one), and the text is [stripHTML] of the HTML. *)
Theorem Render_registry (notifType : NotificationType) (data : Data) :
  (IsValidType notifType = false ->
   Render ExecuteTemplate notifType data
   = ("", "", "", Some (errorString ("no template registered for type: " +:+ notifType)))) /\
  (IsValidType notifType = true ->
   match ExecuteTemplate (notifType +:+ ".html") data with
   | inr err =>
       Render ExecuteTemplate notifType data
       = ("", "", "", Some (Errorf_w ("executing template " +:+ notifType +:+ ": ") err))
   | inl html =>
       exists subject,
         Render ExecuteTemplate notifType data = (subject, html, stripHTML html, None) /\
         subject <> "" /\
         (forall m s, data = Some m -> m !! "Subject" = Some (VStr s) -> s <> "" ->
                      subject = s)
   end).
Proof.
  pose proof (registry_lookup notifType) as Hreg. unfold Render.
  destruct (registry !! notifType) as [meta|]; split; intros Hv.
  - destruct Hreg as [Hv' _]. congruence.
  - destruct Hreg as (_ & Hname & Hsubj). rewrite Hname.
    destruct (ExecuteTemplate (notifType +:+ ".html") data) as [html|err]; [|reflexivity].
    eexists. split; [reflexivity|]. split.
    + destruct (subject_of data) as [custom ok]. destruct ok; cbn; [|exact Hsubj].
      destruct (String.eqb_spec custom ""); cbn; [exact Hsubj|assumption].
    + intros m s -> Hm Hs. unfold subject_of. rewrite Hm. cbn.
      apply String.eqb_neq in Hs. rewrite Hs. reflexivity.
  - reflexivity.
  - congruence.
Qed.

End Render_props.

(** ** The further properties on sample data *)

Section more_sample_runs.
Import common notification system sample.

Lemma UpdateWebhookStatus_frame_witness :
  inbox !! 1%nat = Some (listed 1 "id-2" "a@b.com" "sent" (Some "re_123")) /\
  exists row',
    snd (store.UpdateWebhookStatus None (T0 + go.Hour) "re_123" StatusDelivered inbox) !! 1%nat
      = Some row' /\
    store.row_Status row' = "delivered" /\
    store.row_DeliveredAt row' = Some (T0 + go.Hour) /\
    store.row_ProviderID row' = Some "re_123".
Proof.
  assert (H : inbox !! 1%nat = Some (listed 1 "id-2" "a@b.com" "sent" (Some "re_123")))
    by reflexivity.
  split; [exact H|].
  destruct (UpdateWebhookStatus_frame (T0 + go.Hour) "re_123" StatusDelivered inbox 1 _ H)
    as (row' & Hi & _ & Hrow).
  exists row'. split; [exact Hi|].
  destruct (Hrow eq_refl) as (Hs & _ & Hd & _ & _ & _ & _ & _ & _ & _ & _ & Hp & _).
  split; [exact Hs|]. split; [exact Hd|exact Hp].
Defined.

Lemma ListStale_oldest_first_witness :
  let row := listed 2 "id-3" "c@d.com" "processing" None in
  In row inbox /\ store.is_stale (T0 + go.Hour) row = true /\
  (In (store.rowToLog row) (fst (store.ListStale None (T0 + go.Hour) 1 inbox)) \/
   Z.of_nat (length (fst (store.ListStale None (T0 + go.Hour) 1 inbox))) = 1).
Proof.
  intros row.
  assert (H1 : In row inbox) by (right; right; left; reflexivity).
  assert (H2 : store.is_stale (T0 + go.Hour) row = true) by (vm_compute; reflexivity).
  split; [exact H1|]. split; [exact H2|].
  destruct (ListStale_oldest_first (T0 + go.Hour) 1 inbox row H1 H2) as [Hin|[Hlen _]].
  - left. exact Hin.
  - right. exact Hlen.
Defined.

Lemma List_page_witness :
  store.List None as_stored (page 2) inbox
    = ([store.rowToLog (listed 0 "id-1" "a@b.com" "queued" None)], 3, None) /\
  (3 = Z.of_nat (length (List.filter (store.selects (page 2)) inbox))).
Proof.
  assert (H : store.List None as_stored (page 2) inbox
              = ([store.rowToLog (listed 0 "id-1" "a@b.com" "queued" None)], 3, None))
    by (vm_compute; reflexivity).
  split; [exact H|].
  exact (proj1 (proj2 (List_page as_stored (page 2) inbox _ 3 H))).
Defined.

Lemma List_pages_cover_witness :
  let row := listed 0 "id-1" "a@b.com" "queued" None in
  (1 <= flt_PageSize (page 1) <= 100 /\ Z.of_nat (length inbox) < 2 ^ 63 /\
   NoDup (map store.row_CreatedAt (List.filter (store.selects (page 1)) inbox)) /\
   store.order_by_created_at_desc as_stored (List.filter (store.selects (page 1)) inbox)
     !! 2%nat = Some row) /\
  fst (fst (store.List None latest_write_first (page 2) inbox)) !! 0%nat
    = Some (store.rowToLog row).
Proof.
  intros row.
  assert (H1 : 1 <= flt_PageSize (page 1) <= 100) by (cbn; lia).
  assert (H2 : Z.of_nat (length inbox) < 2 ^ 63) by (cbn; lia).
  assert (H3 : NoDup (map store.row_CreatedAt (List.filter (store.selects (page 1)) inbox))).
  { apply (bool_decide_unpack _). vm_compute. exact I. }
  assert (H4 : store.order_by_created_at_desc as_stored
                 (List.filter (store.selects (page 1)) inbox) !! 2%nat = Some row)
    by (vm_compute; reflexivity).
  split; [split; [exact H1|]; split; [exact H2|]; split; [exact H3|exact H4]|].
  exact (List_pages_cover as_stored latest_write_first (page 1) inbox 2 row H1 H2 H3 H4).
Defined.

Lemma Create_then_get_witness :
  let sent :=
    {| log_ID := "id-4"; log_IdempotencyKey := "k2"; log_Channel := "email";
       log_Type := "confirm_signup"; log_Recipient := "a@b.com"; log_TemplateData := Some ∅;
       log_ProviderID := ""; log_Status := "queued"; log_ErrorMessage := "";
       log_CreatedAt := Some T0; log_UpdatedAt := Some T0; log_SentAt := None;
       log_DeliveredAt := None; log_OpenedAt := None; log_BouncedAt := None |} in
  let stored :=
    {| log_ID := "id-4"; log_IdempotencyKey := "k2"; log_Channel := "email";
       log_Type := "confirm_signup"; log_Recipient := "a@b.com"; log_TemplateData := None;
       log_ProviderID := ""; log_Status := "queued"; log_ErrorMessage := "";
       log_CreatedAt := Some T0; log_UpdatedAt := Some T0; log_SentAt := None;
       log_DeliveredAt := None; log_OpenedAt := None; log_BouncedAt := None |} in
  let res := store.Create None "id-4" T0 (new_log no_data) inbox in
  fst res = (sent, None) /\
  store.GetByID None "id-4" (snd res) = (Some stored, None) /\
  store.GetByIdempotencyKey None "k2" (snd res) = (Some stored, None).
Proof.
  intros sent stored res.
  assert (Hc : store.Create None "id-4" T0 (new_log no_data) inbox = (sent, None, snd res))
    by (vm_compute; reflexivity).
  split; [vm_compute; reflexivity|].
  destruct (Create_then_get "id-4" T0 (new_log no_data) sent inbox (snd res) Hc)
    as [Hid Hkey].
  split; [exact Hid|]. apply Hkey. discriminate.
Defined.

Lemma store_writes_keep_constraints_witness :
  store.unique_ids inbox /\ store.unique_keys inbox /\
  store.unique_ids (snd (store.Create None "id-4" T0 (new_log signup) inbox)) /\
  store.unique_keys (snd (store.UpdateStatus None T0 "id-1" StatusFailed "" "x" inbox)).
Proof.
  assert (H1 : store.unique_ids inbox).
  { unfold store.unique_ids. apply (bool_decide_unpack _). vm_compute. exact I. }
  assert (H2 : store.unique_keys inbox).
  { unfold store.unique_keys. apply (bool_decide_unpack _). vm_compute. exact I. }
  split; [exact H1|]. split; [exact H2|].
  destruct (store_writes_keep_constraints None T0 inbox H1 H2) as (Hc & Hu & _).
  split; [exact (proj1 (Hc "id-4" (new_log signup)))|].
  exact (proj2 (Hu "id-1" StatusFailed "" "x")).
Defined.

Lemma Enqueue_enqueues_what_it_created_witness :
  In (EvEnqueue "id-1" None) (snd (exec (run_op cfg) (Enqueue svc signup) fresh)) /\
  exists pre post created,
    snd (exec (run_op cfg) (Enqueue svc signup) fresh)
      = pre ++ EvCreate (new_log signup) (created, None) :: EvEnqueue "id-1" None :: post /\
    log_ID created = "id-1".
Proof.
  assert (H : In (EvEnqueue "id-1" None) (snd (exec (run_op cfg) (Enqueue svc signup) fresh)))
    by (vm_compute; do 3 right; left; reflexivity).
  split; [exact H|].
  destruct (Enqueue_enqueues_what_it_created (run_op cfg) svc signup fresh "id-1" None H)
    as (pre & post & created & Ht & Hid & _).
  exists pre, post, created. split; [exact Ht|exact Hid].
Defined.

Lemma Handler_Send_refused_witness :
  snd (fst (fst (exec (run_op cfg) (Enqueue svc newsletter) fresh)))
    = Some (ValidationError "unsupported notification type: newsletter") /\
  fst (fst (exec (run_op cfg) (Handler_Send svc (inl newsletter)) fresh))
    = Error_resp StatusBadRequest "unsupported notification type: newsletter".
Proof.
  assert (H : snd (fst (fst (exec (run_op cfg) (Enqueue svc newsletter) fresh)))
              = Some (ValidationError "unsupported notification type: newsletter"))
    by reflexivity.
  split; [exact H|].
  exact (proj1 (Handler_Send_refused (run_op cfg) svc newsletter fresh _ H)).
Defined.

Lemma ProcessTask_sends_rendered_record_witness :
  let msg := {| msg_To := "a@b.com"; msg_Subject := "Confirm Your Email Address";
                msg_HTML := "<p>Welcome</p>"; msg_Text := "Welcome" |} in
  In (EvSend "email" msg ("re_123", None))
     (snd (exec (run_op cfg) (ProcessTask wk "id-1") provider_up)) /\
  exists notifLog subject html text,
    IsValidType (log_Type notifLog) = true /\
    msg = {| msg_To := log_Recipient notifLog; msg_Subject := subject;
             msg_HTML := html; msg_Text := text |}.
Proof.
  intros msg.
  assert (H : In (EvSend "email" msg ("re_123", None))
                 (snd (exec (run_op cfg) (ProcessTask wk "id-1") provider_up)))
    by (vm_compute; do 4 right; left; reflexivity).
  split; [exact H|].
  destruct (ProcessTask_sends_rendered_record (run_op cfg) wk "id-1" provider_up _ _ _ H)
    as (notifLog & subject & html & text & pre & post & _ & _ & _ & _ & Hty & _ & _ & Hmsg).
  exists notifLog, subject, html, text. split; [exact Hty|exact Hmsg].
Defined.

Lemma ProcessTask_failure_recorded_witness :
  In (EvGetByID "id-1" (Some record1, None))
     (snd (exec (run_op cfg) (ProcessTask wk "id-1") provider_down)) /\
  fst (fst (exec (run_op cfg) (ProcessTask wk "id-1") provider_down))
    = Some (ProviderError "email" "resend: rate limited") /\
  exists errMsg ures pre post,
    snd (exec (run_op cfg) (ProcessTask wk "id-1") provider_down)
      = pre ++ EvUpdateStatus "id-1" StatusFailed "" errMsg ures :: post /\
    errMsg <> "".
Proof.
  assert (H1 : In (EvGetByID "id-1" (Some record1, None))
                  (snd (exec (run_op cfg) (ProcessTask wk "id-1") provider_down)))
    by (vm_compute; right; left; reflexivity).
  assert (H2 : fst (fst (exec (run_op cfg) (ProcessTask wk "id-1") provider_down))
               = Some (ProviderError "email" "resend: rate limited"))
    by (vm_compute; reflexivity).
  split; [exact H1|]. split; [exact H2|].
  destruct (ProcessTask_failure_recorded (run_op cfg) wk "id-1" provider_down _ _ H1 H2)
    as (errMsg & ures & pre & post & Ht & Hne & _).
  exists errMsg, ures, pre, post. split; [exact Ht|exact Hne].
Defined.

Lemma ProcessTask_never_skips_retry_witness :
  let err := Errorf_w "fetching notification log id-1: "
               (Errorf_w "fetching notification log: " asynq.SkipRetry) in
  fst (fst (exec (run_op cfg) (ProcessTask wk "id-1") store_says_skip)) = Some err /\
  asynq.non_retryable err = true /\
  exists e, asynq.non_retryable e = true.
Proof.
  intros err.
  assert (H1 : fst (fst (exec (run_op cfg) (ProcessTask wk "id-1") store_says_skip)) = Some err)
    by (vm_compute; reflexivity).
  assert (H2 : asynq.non_retryable err = true) by (vm_compute; reflexivity).
  split; [exact H1|]. split; [exact H2|].
  destruct (ProcessTask_never_skips_retry (run_op cfg) wk "id-1" store_says_skip err H1 H2)
    as (e & He & _).
  exists e. exact He.
Defined.

Lemma ListNotifications_reports_what_it_served_witness :
  exists resp w',
    ListNotifications (store_List as_stored) (page 0) with_inbox = ((Some resp, None), w') /\
    1 <= lr_Page resp /\ Z.of_nat (length (lr_Notifications resp)) <= lr_PageSize resp.
Proof.
  destruct (ListNotifications (store_List as_stored) (page 0) with_inbox)
    as [[resp err] w'] eqn:HL.
  assert (Hr : exists r, resp = Some r /\ err = None).
  { vm_compute in HL. inversion HL. eexists. split; reflexivity. }
  destruct Hr as (r & -> & ->). exists r, w'. split; [reflexivity|].
  destruct (ListNotifications_reports_what_it_served as_stored (page 0) with_inbox w' r HL)
    as (Hp & _ & Hn & _).
  split; [exact Hp|exact Hn].
Defined.

Lemma ResendWebhook_without_effect_witness :
  let bounce := {| ev_Type := "email.bounced"; ev_EmailID := "re_999" |} in
  (next_fault (store_faults with_inbox) = None /\
   forall row, In row (table with_inbox) -> store.row_ProviderID row <> Some "re_999") /\
  table (snd (Handler_ResendWebhook store_UpdateWebhookStatus slog_ (inl bounce) with_inbox))
    = inbox /\
  fst (Handler_ResendWebhook store_UpdateWebhookStatus slog_ (inl bounce) with_inbox)
    = Success_ StatusOK (H_status "processed").
Proof.
  intros bounce.
  assert (H : next_fault (store_faults with_inbox) = None /\
              forall row, In row (table with_inbox) ->
                          store.row_ProviderID row <> Some (ev_EmailID bounce)).
  { split; [reflexivity|]. intros row [<-|[<-|[<-|[]]]]; discriminate. }
  split; [exact H|].
  exact (ResendWebhook_without_effect bounce with_inbox (or_intror (or_intror H))).
Defined.

Lemma ResendWebhook_marks_record_witness :
  table with_inbox !! 1%nat = Some (listed 1 "id-2" "a@b.com" "sent" (Some "re_123")) /\
  fst (Handler_ResendWebhook store_UpdateWebhookStatus slog_ (inl delivered) with_inbox)
    = Success_ StatusOK (H_status "processed") /\
  exists row',
    table (snd (Handler_ResendWebhook store_UpdateWebhookStatus slog_ (inl delivered)
                  with_inbox)) !! 1%nat = Some row' /\
    store.row_Status row' = StatusDelivered.
Proof.
  assert (H : table with_inbox !! 1%nat
              = Some (listed 1 "id-2" "a@b.com" "sent" (Some "re_123"))) by reflexivity.
  split; [exact H|].
  destruct (ResendWebhook_marks_record delivered with_inbox StatusDelivered 1 _
              eq_refl ltac:(discriminate) eq_refl H eq_refl) as (Hresp & row' & Hi & Hs & _).
  split; [exact Hresp|]. exists row'. split; [exact Hi|exact Hs].
Defined.

Lemma sweep_adds_bounded_witness :
  0 < BatchSize (config reaper) /\
  exists added,
    tasks (snd (fst (exec (run_op cfg) (sweep reaper) with_inbox))) = added /\
    Z.of_nat (length added) <= 50.
Proof.
  assert (H : 0 < BatchSize (config reaper)) by (vm_compute; reflexivity).
  split; [exact H|].
  destruct (sweep_adds_bounded cfg reaper with_inbox H) as (added & Ht & Hlen & _).
  exists added. split; [exact Ht|exact Hlen].
Defined.

Lemma Allow_other_recipients_witness :
  "a@b.com" <> "c@d.com" /\
  snd (ratelimit.Allow (limiter cfg) (call_at T0) "a@b.com" ∅)
    !! ratelimit.bucket_key "c@d.com" = None.
Proof.
  assert (H : "a@b.com" <> "c@d.com") by discriminate.
  split; [exact H|].
  exact (Allow_other_recipients (limiter cfg) (call_at T0) "a@b.com" "c@d.com" ∅ H).
Defined.

Lemma Allow_decision_witness :
  ratelimit.healthy (call_at T0) = true /\ 0 <= ratelimit.window (limiter cfg) /\
  fst (ratelimit.Allow (limiter cfg) (call_at T0) "a@b.com" ∅) = (true, None).
Proof.
  assert (H1 : ratelimit.healthy (call_at T0) = true) by reflexivity.
  assert (H2 : 0 <= ratelimit.window (limiter cfg)) by (vm_compute; discriminate).
  split; [exact H1|]. split; [exact H2|].
  exact (proj1 (Allow_decision (limiter cfg) (call_at T0) "a@b.com" ∅ H1 H2)).
Defined.

Lemma Allow_bucket_expires_witness :
  let T := T0 + go.Hour + go.Minute in
  (ratelimit.healthy (call_at T0) = true /\ 0 <= ratelimit.window (limiter cfg) /\
   fst (ratelimit.Allow (limiter cfg) (call_at T0) "a@b.com" ∅) = (true, None) /\
   ratelimit.now (call_at T0) + ratelimit.window (limiter cfg) + go.Minute <= T) /\
  redis.ZCard T (ratelimit.bucket_key "a@b.com")
    (snd (ratelimit.Allow (limiter cfg) (call_at T0) "a@b.com" ∅)) = 0.
Proof.
  intros T.
  assert (H1 : ratelimit.healthy (call_at T0) = true) by reflexivity.
  assert (H2 : 0 <= ratelimit.window (limiter cfg)) by (vm_compute; discriminate).
  assert (H3 : fst (ratelimit.Allow (limiter cfg) (call_at T0) "a@b.com" ∅) = (true, None))
    by (vm_compute; reflexivity).
  assert (H4 : ratelimit.now (call_at T0) + ratelimit.window (limiter cfg) + go.Minute <= T)
    by (vm_compute; discriminate).
  split; [repeat split; assumption|].
  exact (proj2 (Allow_bucket_expires (limiter cfg) (call_at T0) "a@b.com" ∅ T H1 H2 H3 H4)).
Defined.

Lemma stripHTML_tidy_witness :
  let html := "<p>Hello,  world</p>" in
  (list_ascii_of_string (template.stripHTML html) !! 6%nat = Some " "%char /\
   text.re_space " " = true) /\
  exists c', list_ascii_of_string (template.stripHTML html) !! 7%nat = Some c' /\
             text.re_space c' = false.
Proof.
  intros html.
  assert (H1 : list_ascii_of_string (template.stripHTML html) !! 6%nat = Some " "%char)
    by (vm_compute; reflexivity).
  assert (H2 : text.re_space " " = true) by reflexivity.
  split; [split; assumption|].
  exact (proj2 (proj2 (stripHTML_tidy html 6 " " H1 H2))).
Defined.

Lemma stripHTML_plain_witness :
  let s := "Hello, world" in
  (Forall (fun c => (32 <= text.byte c < 127)%N /\ c <> "<"%char /\ c <> "&"%char)
     (list_ascii_of_string s) /\
   text.single_spaced (list_ascii_of_string s) = true /\
   head (list_ascii_of_string s) <> Some " "%char /\
   last (list_ascii_of_string s) <> Some " "%char) /\
  template.stripHTML s = s.
Proof.
  intros s.
  assert (H1 : Forall (fun c => (32 <= text.byte c < 127)%N /\ c <> "<"%char /\ c <> "&"%char)
                 (list_ascii_of_string s)).
  { repeat constructor; try (vm_compute; discriminate); discriminate. }
  assert (H2 : text.single_spaced (list_ascii_of_string s) = true) by reflexivity.
  assert (H3 : head (list_ascii_of_string s) <> Some " "%char) by discriminate.
  assert (H4 : last (list_ascii_of_string s) <> Some " "%char) by (vm_compute; discriminate).
  split; [repeat split; assumption|].
  exact (stripHTML_plain s H1 H2 H3 H4).
Defined.

End more_sample_runs.

Section intake_then_read_sample.
Import common notification system sample.

Lemma Enqueue_then_GetNotification_witness :
  let r := {| resp_ID := "id-1"; resp_IdempotencyKey := "k1"; resp_Channel := "email";
              resp_Status := "queued" |} in
  (store.unique_ids (table fresh) /\
   fst (fst (exec (run_op cfg) (Enqueue svc signup) fresh)) = (Some r, None) /\
   next_fault (store_faults accepted) = None) /\
  exists l,
    fst (fst (exec (run_op cfg) (GetNotification "id-1") accepted)) = (Some l, None) /\
    log_Status l = "queued".
Proof.
  intros r.
  assert (H1 : store.unique_ids (table fresh)) by apply NoDup_nil_2.
  assert (H2 : fst (fst (exec (run_op cfg) (Enqueue svc signup) fresh)) = (Some r, None))
    by (vm_compute; reflexivity).
  assert (H3 : next_fault (store_faults accepted) = None) by (vm_compute; reflexivity).
  split; [repeat split; assumption|].
  destruct (Enqueue_then_GetNotification cfg svc signup fresh r H1 H2 H3)
    as (l & Hl & _ & _ & _ & Hs).
  exists l. split; [exact Hl|exact Hs].
Defined.

Lemma ProcessTask_records_outcome_witness :
  let row :=
    {| store.row_ID := "id-1"; store.row_IdempotencyKey := Some "k1";
       store.row_Channel := "email"; store.row_Type := "confirm_signup";
       store.row_Recipient := "a@b.com"; store.row_TemplateData := None;
       store.row_ProviderID := None; store.row_Status := "queued";
       store.row_ErrorMessage := None;
       store.row_CreatedAt := Some T0; store.row_UpdatedAt := Some T0;
       store.row_SentAt := None; store.row_DeliveredAt := None;
       store.row_OpenedAt := None; store.row_BouncedAt := None |} in
  (store_faults provider_up = [] /\ store.unique_ids (table provider_up) /\
   table provider_up !! 0%nat = Some row) /\
  exists row',
    table (snd (fst (exec (run_op cfg) (ProcessTask wk "id-1") provider_up))) !! 0%nat
      = Some row' /\
    store.row_UpdatedAt row' = Some T0.
Proof.
  intros row.
  assert (H1 : store_faults provider_up = []) by (vm_compute; reflexivity).
  assert (H2 : store.unique_ids (table provider_up)).
  { unfold store.unique_ids. apply (bool_decide_unpack _). vm_compute. exact I. }
  assert (H3 : table provider_up !! 0%nat = Some row) by (vm_compute; reflexivity).
  split; [repeat split; assumption|].
  destruct (ProcessTask_records_outcome cfg wk provider_up 0 row H1 H2 H3)
    as (row' & Hi & Hu & _).
  exists row'. split; [exact Hi|exact Hu].
Defined.

End intake_then_read_sample.
